(** * Crossref preview: the label index builder, its cache, reference
      substitution and the navigation fallback of [main.js]

    A shallow embedding of the indexing core of the plugin.

    - A JavaScript string is the list of its UTF-16 code units ([jsstring]).
    - Array indices and loop counters are [nat]; character offsets, line
      numbers and everything that goes through 32-bit operators are [Z], with
      the wrap-around of [>>], [<<], [^] and [>>>] written out.
    - The insertion-ordered [Map] of labels is an association list in
      insertion order; the plugin's [indexCache] is a [gmap] keyed by path.
    - Loops whose index jumps ([i = endLine], [i = cursor], the [exec] loops of
      global regular expressions) take a fuel argument; the entry points give
      them as much fuel as the loop can take steps. *)

From Stdlib Require Import ZArith List Bool Lia Ascii String DecimalString.
From stdpp Require Import base option list gmap numbers.

Import ListNotations.
Local Open Scope bool_scope.
Local Open Scope N_scope.
Local Open Scope list_scope.

(** ** JavaScript strings *)

Module JS.

(** One UTF-16 code unit, and a string as the list of its code units. *)
Abbreviation char16 := N (only parsing).
Abbreviation jsstring := (list N) (only parsing).

(** A string literal of the source, all of whose characters are ASCII. *)
Definition lit (s : string) : jsstring :=
  List.map N_of_ascii (list_ascii_of_string s).

Arguments lit : simpl never.

Definition LF : char16 := 10.
Definition CR : char16 := 13.

(** ECMAScript LineTerminator: what [.] does not match. *)
Definition isLineTerminator (c : char16) : bool :=
  (c =? 10) || (c =? 13) || (c =? 8232) || (c =? 8233).

(** ECMAScript WhiteSpace and LineTerminator: the class [\s], and what
    [String.prototype.trim] strips. *)
Definition isSpace (c : char16) : bool :=
  (c =? 9) || (c =? 10) || (c =? 11) || (c =? 12) || (c =? 13) || (c =? 32)
  || (c =? 160) || (c =? 5760)
  || ((8192 <=? c) && (c <=? 8202))
  || (c =? 8232) || (c =? 8233) || (c =? 8239) || (c =? 8287)
  || (c =? 12288) || (c =? 65279).

Definition isDigit (c : char16) : bool := (48 <=? c) && (c <=? 57).
Definition isUpper (c : char16) : bool := (65 <=? c) && (c <=? 90).
Definition isLower (c : char16) : bool := (97 <=? c) && (c <=? 122).

(** The class [[A-Za-z0-9_]]. *)
Definition isWordChar (c : char16) : bool :=
  isUpper c || isLower c || isDigit c || (c =? 95).

(** The class [[A-Za-z0-9_-]]. *)
Definition isLabelChar (c : char16) : bool :=
  isWordChar c || (c =? 45).

Definition eqb (a b : jsstring) : bool := bool_decide (a = b).

(** Longest prefix whose characters satisfy [p], and the rest: a greedy
    [[...]*] whose continuation cannot start inside the class. *)
Fixpoint span (p : char16 -> bool) (s : jsstring) : jsstring * jsstring :=
  match s with
  | [] => ([], [])
  | c :: s' =>
      if p c then let '(a, b) := span p s' in (c :: a, b) else ([], s)
  end.

Definition dropWhile (p : char16 -> bool) (s : jsstring) : jsstring :=
  snd (span p s).

Definition trimStart (s : jsstring) : jsstring := dropWhile isSpace s.
Definition trimEnd (s : jsstring) : jsstring :=
  rev (dropWhile isSpace (rev s)).

(** [s.trim()] *)
Definition trim (s : jsstring) : jsstring := trimEnd (trimStart s).

(** [s] starts with the literal [p]: the rest after it. *)
Fixpoint stripPrefix (p s : jsstring) : option jsstring :=
  match p, s with
  | [], _ => Some s
  | a :: p', b :: s' => if a =? b then stripPrefix p' s' else None
  | _ :: _, [] => None
  end.

Definition startsWithLF (s : jsstring) : bool :=
  match s with c :: _ => c =? LF | [] => false end.

(** [s.split(/\r?\n/)]: cut at every line feed, dropping a carriage return
    that stands right before it. *)
Fixpoint splitLines (s : jsstring) : list jsstring :=
  match s with
  | [] => [[]]
  | c :: s' =>
      if c =? LF then [] :: splitLines s'
      else if (c =? CR) && startsWithLF s' then splitLines s'
      else match splitLines s' with
           | l :: ls => (c :: l) :: ls
           | [] => [[c]]
           end
  end.

(** [label.split("-")[0]] *)
Definition beforeDash (s : jsstring) : jsstring :=
  fst (span (fun c => negb (c =? 45)) s).

(** ToInt32 and ToUint32 of a number that is an integer. *)
Definition toInt32 (z : Z) : Z := ((z + 2147483648) mod 4294967296 - 2147483648)%Z.
Definition toUint32 (z : Z) : Z := (z mod 4294967296)%Z.

(** [a << k], [a ^ b] and [a >> k] on numbers that are integers. *)
Definition shl32 (a : Z) (k : Z) : Z := toInt32 (Z.shiftl (toInt32 a) k).
Definition xor32 (a b : Z) : Z := Z.lxor (toInt32 a) (toInt32 b).
Definition sar32 (a : Z) (k : Z) : Z := Z.shiftr (toInt32 a) k.

Definition hexDigit (d : Z) : char16 :=
  if (d <? 10)%Z then Z.to_N (48 + d) else Z.to_N (87 + d).

(** [n.toString(16)] for [0 <= n < 2^32]: at most eight digits, no leading
    zero. *)
Fixpoint toHexAux (digits : nat) (n : Z) (acc : jsstring) : jsstring :=
  match digits with
  | O => acc
  | S k =>
      let acc' := hexDigit (n mod 16)%Z :: acc in
      if (n / 16 =? 0)%Z then acc' else toHexAux k (n / 16)%Z acc'
  end.

Definition toString16 (n : Z) : jsstring := toHexAux 8 n [].

End JS.

Import JS.

(** ** [fastHash], [buildLineOffsets], [offsetToLine] *)

(** One turn of the loop of [fastHash]: the xor yields an Int32, each shift
    too, and their sum is an exact number below 2^53. *)
Definition fastHash_step (hash : Z) (c : char16) : Z :=
  let h := xor32 hash (Z.of_N c) in
  (h + (shl32 h 1 + shl32 h 4 + shl32 h 7 + shl32 h 8 + shl32 h 24))%Z.

Definition fastHash (text : jsstring) : jsstring :=
  toString16 (toUint32 (fold_left fastHash_step text 2166136261%Z)).

Fixpoint buildLineOffsets_from (i : Z) (source : jsstring) : list Z :=
  match source with
  | [] => []
  | c :: rest =>
      if c =? 10 then (i + 1)%Z :: buildLineOffsets_from (i + 1)%Z rest
      else buildLineOffsets_from (i + 1)%Z rest
  end.

Definition buildLineOffsets (source : jsstring) : list Z :=
  0%Z :: buildLineOffsets_from 0%Z source.

(** [lineOffsets[mid] <= offset]; reading outside the array gives
    [undefined], and the comparison is then false. *)
Definition offsetAtLe (lineOffsets : list Z) (mid offset : Z) : bool :=
  if (mid <? 0)%Z then false
  else match lineOffsets !! Z.to_nat mid with
       | Some o => (o <=? offset)%Z
       | None => false
       end.

(** The [while (left <= right)] loop of [offsetToLine]; returns [right]. *)
Fixpoint offsetToLine_loop (fuel : nat) (lineOffsets : list Z) (offset left right : Z) : Z :=
  match fuel with
  | O => right
  | S fuel' =>
      if (left <=? right)%Z then
        let mid := sar32 (left + right) 1 in
        if offsetAtLe lineOffsets mid offset
        then offsetToLine_loop fuel' lineOffsets offset (mid + 1)%Z right
        else offsetToLine_loop fuel' lineOffsets offset left (mid - 1)%Z
      else right
  end.

Definition offsetToLine (lineOffsets : list Z) (offset : Z) : Z :=
  let right := (Z.of_nat (length lineOffsets) - 1)%Z in
  Z.max 0 (offsetToLine_loop (length lineOffsets) lineOffsets offset 0%Z right).

(** ** Descriptors and the label map *)

Inductive Kind := equation | figure | theorem.

#[global] Instance Kind_eq_dec : EqDecision Kind.
Proof. solve_decision. Defined.

Record Descriptor := {
  label : jsstring;
  kind : Kind;
  prefix : jsstring;
  number : nat;
  title : jsstring;
  lineStart : Z;
  lineEnd : Z
}.

(** [descriptor.title = t] *)
Definition setTitle (d : Descriptor) (t : jsstring) : Descriptor :=
  {| label := label d; kind := kind d; prefix := prefix d; number := number d;
     title := t; lineStart := lineStart d; lineEnd := lineEnd d |}.

(** A JavaScript [Map] from labels to descriptors, in insertion order. *)
Definition LabelMap := list (jsstring * Descriptor).

Fixpoint map_get (m : LabelMap) (k : jsstring) : option Descriptor :=
  match m with
  | [] => None
  | (k', v) :: m' => if JS.eqb k k' then Some v else map_get m' k
  end.

Definition map_has (m : LabelMap) (k : jsstring) : bool :=
  match map_get m k with Some _ => true | None => false end.

(** [m.set(k, v)]: an existing key keeps its place, a new one goes last. *)
Fixpoint map_set (m : LabelMap) (k : jsstring) (v : Descriptor) : LabelMap :=
  match m with
  | [] => [(k, v)]
  | (k', v') :: m' =>
      if JS.eqb k k' then (k, v) :: m' else (k', v') :: map_set m' k v
  end.

Record Index := { labels : LabelMap }.

(** The variables [parseCrossrefIndex] closes over and [addLabel] updates. *)
Record ParseState := {
  st_labels : LabelMap;
  equationCounter : nat;
  figureCounter : nat;
  theoremCounters : gmap jsstring nat
}.

Definition initialState : ParseState :=
  {| st_labels := []; equationCounter := 0; figureCounter := 0;
     theoremCounters := ∅ |}.

(** ** The regular expressions of the builder *)

Definition isEmpty (s : jsstring) : bool :=
  match s with [] => true | _ :: _ => false end.

(** The alternatives of [THEOREM_PREFIX_FRAGMENT]. *)
Definition THEOREM_PREFIXES : list jsstring :=
  List.map lit
    ["thm"; "lem"; "cor"; "prp"; "cnj"; "def"; "exm"; "exr"; "sol"; "rem"; "alg"]%string.

(** The alternatives of [PREFIX_FRAGMENT]. *)
Definition LABEL_PREFIXES : list jsstring :=
  lit "eq" :: lit "fig" :: THEOREM_PREFIXES.

(** An alternation of literals: the first alternative that matches. *)
Fixpoint matchAlternatives (alts : list jsstring) (s : jsstring)
  : option (jsstring * jsstring) :=
  match alts with
  | [] => None
  | a :: alts' =>
      match stripPrefix a s with
      | Some rest => Some (a, rest)
      | None => matchAlternatives alts' s
      end
  end.

(** [<alternatives>-[A-Za-z0-9_-]+] at the head of [s]: the text matched and
    the rest. The class is taken greedily; what follows it in every pattern
    of the source is a character outside the class. *)
Definition matchLabelWith (alts : list jsstring) (s : jsstring)
  : option (jsstring * jsstring) :=
  match matchAlternatives alts s with
  | None => None
  | Some (p, rest) =>
      match stripPrefix (lit "-") rest with
      | None => None
      | Some rest' =>
          let '(name, rest'') := span isLabelChar rest' in
          if isEmpty name then None else Some (p ++ lit "-" ++ name, rest'')
      end
  end.

(** [/^\{#(eq-[A-Za-z0-9_-]+)\}$/] *)
Definition matchEquationLabel (s : jsstring) : option jsstring :=
  match stripPrefix (lit "{#") s with
  | None => None
  | Some rest =>
      match matchLabelWith [lit "eq"] rest with
      | None => None
      | Some (lbl, rest') =>
          match stripPrefix (lit "}") rest' with
          | Some [] => Some lbl
          | _ => None
          end
      end
  end.

(** [THEOREM_START_PATTERN]: the captured label. *)
Definition matchTheoremStart (s : jsstring) : option jsstring :=
  match stripPrefix (lit ":::") s with
  | None => None
  | Some rest =>
      match stripPrefix (lit "{#") (dropWhile isSpace rest) with
      | None => None
      | Some rest' =>
          match matchLabelWith THEOREM_PREFIXES rest' with
          | None => None
          | Some (lbl, rest'') =>
              match stripPrefix (lit "}") rest'' with
              | None => None
              | Some tail => if forallb isSpace tail then Some lbl else None
              end
          end
      end
  end.

Definition testTheoremStart (s : jsstring) : bool :=
  match matchTheoremStart s with Some _ => true | None => false end.

(** [THEOREM_END_PATTERN.test(s)] *)
Definition testTheoremEnd (s : jsstring) : bool :=
  match stripPrefix (lit ":::") s with
  | None => false
  | Some rest => forallb isSpace rest
  end.

(** The tail [(.+)\s*$] of the heading pattern at [s]: the group takes the
    longest run without a line terminator; a shorter group leaves the same
    obstacle before the end of the line. *)
Definition matchHeadingGroup (s : jsstring) : option jsstring :=
  let '(g, rest) := span (fun c => negb (isLineTerminator c)) s in
  if isEmpty g then None
  else if forallb isSpace rest then Some g else None.

(** [\s+(.+)\s*$] with [ws] the white space already given to [\s+], in
    reverse, and [s] the text after it: the group is tried after the longest
    [\s+] first, then [\s+] gives characters back one at a time, keeping at
    least one. *)
Fixpoint matchHeadingBacktrack (ws : jsstring) (s : jsstring) : option jsstring :=
  match ws with
  | [] => None
  | c :: ws' =>
      match matchHeadingGroup s with
      | Some g => Some g
      | None => matchHeadingBacktrack ws' (c :: s)
      end
  end.

(** [current.match(/^\s*#{1,6}\s+(.+)\s*$/)]: the group. *)
Definition matchHeading (s : jsstring) : option jsstring :=
  let s1 := dropWhile isSpace s in
  let '(hashes, s2) := span (fun c => c =? 35) s1 in
  if isEmpty hashes || (6 <? length hashes)%nat then None
  else
    let '(ws, s3) := span isSpace s2 in
    matchHeadingBacktrack (rev ws) s3.

(** [fallbackTitle.replace(/^#+\s*/, "")] *)
Definition stripHeadingMarker (s : jsstring) : jsstring :=
  let '(hashes, rest) := span (fun c => c =? 35) s in
  if isEmpty hashes then s else dropWhile isSpace rest.

(** The figure pattern
    [/!\[[^\]]*]\([^)]+\)\s*\{#(fig-[A-Za-z0-9_-]+)\}/] at the head of [s]:
    the label and the rest after the match. *)
Definition matchFigureAt (s : jsstring) : option (jsstring * jsstring) :=
  match stripPrefix (lit "![") s with
  | None => None
  | Some s1 =>
      match stripPrefix (lit "](") (dropWhile (fun c => negb (c =? 93)) s1) with
      | None => None
      | Some s2 =>
          let '(url, s3) := span (fun c => negb (c =? 41)) s2 in
          if isEmpty url then None
          else
            match stripPrefix (lit ")") s3 with
            | None => None
            | Some s4 =>
                match stripPrefix (lit "{#") (dropWhile isSpace s4) with
                | None => None
                | Some s5 =>
                    match matchLabelWith [lit "fig"] s5 with
                    | None => None
                    | Some (lbl, s6) =>
                        match stripPrefix (lit "}") s6 with
                        | None => None
                        | Some s7 => Some (lbl, s7)
                        end
                    end
                end
            end
      end
  end.

(** [re.exec] of a pattern without look-around on the text from [pos] on:
    the first position where the pattern matches, what it captured, and the
    position after the match. *)
Fixpoint execFrom {A} (m : jsstring -> option (A * jsstring))
    (pos : nat) (s : jsstring) : option (nat * A * nat) :=
  match m s with
  | Some (a, rest) => Some (pos, a, (pos + (length s - length rest))%nat)
  | None =>
      match s with
      | [] => None
      | _ :: s' => execFrom m (S pos) s'
      end
  end.

(** [re.exec(text)] of a global pattern whose [lastIndex] is [lastIndex]:
    [(match.index, match[1], re.lastIndex)], or [None] for [null]. *)
Definition regexExec {A} (m : jsstring -> option (A * jsstring))
    (text : jsstring) (lastIndex : nat) : option (nat * A * nat) :=
  if (length text <? lastIndex)%nat then None
  else execFrom m lastIndex (drop lastIndex text).

(** ** [parseCrossrefIndex] *)

Section Builder.

(** What the closures of [parseCrossrefIndex] see: the text, its line
    offsets and its lines. *)
Variable source : jsstring.
Variable lineOffsets : list Z.
Variable lines : list jsstring.

(** [lineOffsets[i] || 0] *)
Definition offsetOrZero (i : nat) : Z := default 0%Z (lineOffsets !! i).

(** [nextLineIndex < lineOffsets.length ? lineOffsets[nextLineIndex] : source.length] *)
Definition offsetOrEnd (nextLineIndex : nat) : Z :=
  if (nextLineIndex <? length lineOffsets)%nat
  then default 0%Z (lineOffsets !! nextLineIndex)
  else Z.of_nat (length source).

Definition addLabel (st : ParseState) (lbl : jsstring) (k : Kind)
    (startOffset endOffset : Z) (ttl : jsstring) : ParseState :=
  if map_has (st_labels st) lbl then st
  else
    let pre := beforeDash lbl in
    let st' :=
      match k with
      | equation =>
          {| st_labels := st_labels st;
             equationCounter := S (equationCounter st);
             figureCounter := figureCounter st;
             theoremCounters := theoremCounters st |}
      | figure =>
          {| st_labels := st_labels st;
             equationCounter := equationCounter st;
             figureCounter := S (figureCounter st);
             theoremCounters := theoremCounters st |}
      | theorem =>
          {| st_labels := st_labels st;
             equationCounter := equationCounter st;
             figureCounter := figureCounter st;
             theoremCounters :=
               <[pre := S (default 0%nat (theoremCounters st !! pre))]>
                 (theoremCounters st) |}
      end in
    let num :=
      match k with
      | equation => equationCounter st'
      | figure => figureCounter st'
      | theorem => default 0%nat (theoremCounters st' !! pre)
      end in
    let ls := offsetToLine lineOffsets startOffset in
    let le := offsetToLine lineOffsets (Z.max startOffset (endOffset - 1)) in
    {| st_labels :=
         map_set (st_labels st') lbl
           {| label := lbl; kind := k; prefix := pre; number := num;
              title := ttl; lineStart := ls; lineEnd := le |};
       equationCounter := equationCounter st';
       figureCounter := figureCounter st';
       theoremCounters := theoremCounters st' |}.

(** *** Equation blocks *)

Definition isMathDelimiter (line : jsstring) : bool :=
  JS.eqb (trim line) (lit "$$").

(** [for (j = i + 1; ...)]: the first line from [j] on that is a delimiter. *)
Fixpoint findClosing (j : nat) (rest : list jsstring) : option nat :=
  match rest with
  | [] => None
  | l :: rest' => if isMathDelimiter l then Some j else findClosing (S j) rest'
  end.

(** [while (labelLine < lines.length && lines[labelLine].trim() === "")] *)
Fixpoint skipBlank (labelLine : nat) (rest : list jsstring) : nat :=
  match rest with
  | [] => labelLine
  | l :: rest' =>
      if isEmpty (trim l) then skipBlank (S labelLine) rest' else labelLine
  end.

(** The body of the first loop once [lines[i]] is a delimiter closed at
    [endLine]. *)
Definition equationBlock (i endLine : nat) (st : ParseState) : ParseState :=
  let labelLine := skipBlank (S endLine) (drop (S endLine) lines) in
  match lines !! labelLine with
  | None => st
  | Some l =>
      match matchEquationLabel (trim l) with
      | None => st
      | Some lbl =>
          addLabel st lbl equation (offsetOrZero i) (offsetOrEnd (S labelLine)) []
      end
  end.

Fixpoint scanEquations (fuel : nat) (i : nat) (st : ParseState) : ParseState :=
  match fuel with
  | O => st
  | S fuel' =>
      match lines !! i with
      | None => st
      | Some line =>
          if negb (isMathDelimiter line) then scanEquations fuel' (S i) st
          else
            match findClosing (S i) (drop (S i) lines) with
            | None => scanEquations fuel' (S i) st
            | Some endLine =>
                scanEquations fuel' (S endLine) (equationBlock i endLine st)
            end
      end
  end.

(** *** Figures *)

Fixpoint scanFigures (fuel : nat) (lastIndex : nat) (st : ParseState) : ParseState :=
  match fuel with
  | O => st
  | S fuel' =>
      match regexExec matchFigureAt source lastIndex with
      | None => st
      | Some (index, lbl, lastIndex') =>
          scanFigures fuel' lastIndex'
            (addLabel st lbl figure (Z.of_nat index) (Z.of_nat lastIndex') [])
      end
  end.

(** *** Theorem-like blocks *)

Record BlockScan := {
  bs_title : jsstring;
  bs_cursor : nat;
  bs_blockEndLine : nat;
  implicitClosedByNextStart : bool
}.

(** The inner loop over [cursor], on the lines from [cursor] on. *)
Fixpoint scanBlock (i cursor : nat) (rest : list jsstring)
    (ttl : jsstring) (blockEndLine : nat) : BlockScan :=
  match rest with
  | [] =>
      {| bs_title := ttl; bs_cursor := cursor; bs_blockEndLine := blockEndLine;
         implicitClosedByNextStart := false |}
  | current :: rest' =>
      let currentTrimmed := trim current in
      let ttl' :=
        if isEmpty ttl then
          match matchHeading current with
          | Some g => trim g
          | None => ttl
          end
        else ttl in
      if testTheoremEnd currentTrimmed then
        {| bs_title := ttl'; bs_cursor := cursor; bs_blockEndLine := cursor;
           implicitClosedByNextStart := false |}
      else if testTheoremStart currentTrimmed then
        {| bs_title := ttl'; bs_cursor := (cursor - 1)%nat;
           bs_blockEndLine := Nat.max i (cursor - 1);
           implicitClosedByNextStart := true |}
      else scanBlock i (S cursor) rest' ttl' cursor
  end.

(** The late title patch after an implicit close without a heading. *)
Definition patchFallbackTitle (st : ParseState) (lbl : jsstring)
    (fallbackTitleLine : jsstring) : ParseState :=
  let fallbackTitle := trim fallbackTitleLine in
  if negb (isEmpty fallbackTitle) && negb (testTheoremStart fallbackTitle)
     && negb (testTheoremEnd fallbackTitle)
  then
    match map_get (st_labels st) lbl with
    | Some descriptor =>
        if isEmpty (title descriptor) then
          {| st_labels :=
               map_set (st_labels st) lbl
                 (setTitle descriptor (trim (stripHeadingMarker fallbackTitle)));
             equationCounter := equationCounter st;
             figureCounter := figureCounter st;
             theoremCounters := theoremCounters st |}
        else st
    | None => st
    end
  else st.

(** The body of the third loop once [lines[i]] opens a block with [lbl]:
    the new state and the [cursor] the loop goes on from. *)
Definition theoremBlock (i : nat) (lbl : jsstring) (st : ParseState)
  : ParseState * nat :=
  let blockStartOffset := offsetOrZero i in
  let b := scanBlock i (S i) (drop (S i) lines) [] i in
  let blockEndOffset := offsetOrEnd (S (bs_blockEndLine b)) in
  let st1 := addLabel st lbl theorem blockStartOffset blockEndOffset (bs_title b) in
  let st2 :=
    if implicitClosedByNextStart b && isEmpty (bs_title b)
    then patchFallbackTitle st1 lbl (default [] (lines !! S i))
    else st1 in
  (st2, bs_cursor b).

Fixpoint scanTheorems (fuel : nat) (i : nat) (st : ParseState) : ParseState :=
  match fuel with
  | O => st
  | S fuel' =>
      match lines !! i with
      | None => st
      | Some line =>
          match matchTheoremStart (trim line) with
          | None => scanTheorems fuel' (S i) st
          | Some lbl =>
              let '(st', cursor) := theoremBlock i lbl st in
              scanTheorems fuel' (S cursor) st'
          end
      end
  end.

End Builder.

Definition parseState (source : jsstring) : ParseState :=
  let lineOffsets := buildLineOffsets source in
  let lines := splitLines source in
  let st1 := scanEquations source lineOffsets lines (length lines) 0 initialState in
  let st2 := scanFigures source lineOffsets (length source) 0 st1 in
  scanTheorems source lineOffsets lines (length lines) 0 st2.

Definition parseCrossrefIndex (source : jsstring) : Index :=
  {| labels := st_labels (parseState source) |}.

(** ** The index cache *)

Record CacheEntry := { hash : jsstring; index : Index }.

(** What one debug line carries; the time stamp in front of it is left out. *)
Inductive Payload :=
  | PayloadIndexRebuilt (labelCount : nat) (theoremLabels : list jsstring)
  | PayloadResolved (lbl : jsstring) (kindAttr : jsstring) (via : jsstring)
  | PayloadAttempted (lbl : jsstring) (line : Z).

Record DebugLine := {
  dl_sourcePath : jsstring;
  dl_message : jsstring;
  dl_payload : Payload
}.

(** The fields of the plugin object that the modelled methods use. *)
Record Plugin := {
  indexCache : gmap jsstring CacheEntry;
  debugLogBuffer : list DebugLine
}.

Definition endsWith (s suffix : jsstring) : bool :=
  match stripPrefix (rev suffix) (rev s) with Some _ => true | None => false end.

Definition DEBUG_NOTE_BASENAME : jsstring := lit "test.md".

Definition isDebugSource (sourcePath : jsstring) : bool :=
  if isEmpty sourcePath then false
  else JS.eqb sourcePath DEBUG_NOTE_BASENAME
       || endsWith sourcePath (lit "/" ++ DEBUG_NOTE_BASENAME).

Definition debugLog (p : Plugin) (sourcePath message : jsstring) (payload : Payload)
  : Plugin :=
  if isDebugSource sourcePath then
    {| indexCache := indexCache p;
       debugLogBuffer :=
         debugLogBuffer p ++
           [{| dl_sourcePath := sourcePath; dl_message := message;
               dl_payload := payload |}] |}
  else p.

Definition theoremLabelsOf (idx : Index) : list jsstring :=
  List.map (fun kv => label (snd kv))
    (List.filter (fun kv => bool_decide (kind (snd kv) = theorem)) (labels idx)).

Definition getCachedIndex (p : Plugin) (sourcePath source : jsstring)
  : Index * Plugin :=
  let h := fastHash source in
  let rebuild :=
    let idx := parseCrossrefIndex source in
    let p1 :=
      if isDebugSource sourcePath then
        debugLog p sourcePath (lit "index rebuilt")
          (PayloadIndexRebuilt (length (labels idx)) (theoremLabelsOf idx))
      else p in
    (idx,
     {| indexCache :=
          <[sourcePath := {| hash := h; index := idx |}]> (indexCache p1);
        debugLogBuffer := debugLogBuffer p1 |}) in
  match indexCache p !! sourcePath with
  | Some cached => if JS.eqb (hash cached) h then (index cached, p) else rebuild
  | None => rebuild
  end.

(** ** Reference substitution *)

(** The nodes [replaceReferencesInNode] puts into its fragment. *)
Inductive Node :=
  | TextNode (nodeValue : jsstring)
  | RefLink (className href datasetHref crossrefLabel textContent : jsstring)
  | MissingSpan (className crossrefMissing textContent : jsstring).

Definition decimal (n : nat) : jsstring :=
  lit (DecimalString.NilZero.string_of_uint (Nat.to_uint n)).

Definition THEOREM_TITLES : list (jsstring * jsstring) :=
  List.map (fun kv => (lit (fst kv), lit (snd kv)))
    [("thm", "Theorem"); ("lem", "Lemma"); ("cor", "Corollary");
     ("prp", "Proposition"); ("cnj", "Conjecture"); ("def", "Definition");
     ("exm", "Example"); ("exr", "Exercise"); ("sol", "Solution");
     ("rem", "Remark"); ("alg", "Algorithm")]%string.

Fixpoint lookupTitle (table : list (jsstring * jsstring)) (k : jsstring)
  : option jsstring :=
  match table with
  | [] => None
  | (k', v) :: table' => if JS.eqb k k' then Some v else lookupTitle table' k
  end.

Definition kindName (k : Kind) : jsstring :=
  match k with
  | equation => lit "equation"
  | figure => lit "figure"
  | theorem => lit "theorem"
  end.

Definition descriptorDisplay (descriptor : Descriptor) : jsstring :=
  match kind descriptor with
  | equation => lit "(" ++ decimal (number descriptor) ++ lit ")"
  | figure => lit "Figure " ++ decimal (number descriptor)
  | theorem =>
      default (lit "Theorem") (lookupTitle THEOREM_TITLES (prefix descriptor))
        ++ lit " " ++ decimal (number descriptor)
  end.

(** [REF_PATTERN] at the head of [s]: the label captured and the rest. *)
Definition matchRefAt (s : jsstring) : option (jsstring * jsstring) :=
  match stripPrefix (lit "@") s with
  | None => None
  | Some rest => matchLabelWith LABEL_PREFIXES rest
  end.

(** [text.charAt(i)] as the list of at most one character. *)
Definition charAt (text : jsstring) (i : nat) : jsstring :=
  match text !! i with Some c => [c] | None => [] end.

(** [/[A-Za-z0-9_]/.test(previous)] *)
Definition testWord (previous : jsstring) : bool := existsb isWordChar previous.

(** [text.slice(a, b)] for [a <= b]. *)
Definition slice (text : jsstring) (a b : nat) : jsstring :=
  take (b - a) (drop a text).

Definition referenceNode (idx : Index) (sourcePath raw lbl : jsstring) : Node :=
  match map_get (labels idx) lbl with
  | Some descriptor =>
      RefLink (lit "crossref-ref crossref-ref-" ++ kindName (kind descriptor))
        (lit "#" ++ lbl) (sourcePath ++ lit "#" ++ lbl) lbl
        (descriptorDisplay descriptor)
  | None => MissingSpan (lit "crossref-ref crossref-ref-missing") lbl raw
  end.

(** The [while (match)] loop: [lastIndex] is that of [REF_PATTERN], and the
    result is [(fragment, cursor, replaced)]. *)
Fixpoint replaceLoop (fuel : nat) (text : jsstring) (idx : Index)
    (sourcePath : jsstring) (lastIndex cursor : nat) (fragment : list Node)
    (replaced : bool) : list Node * nat * bool :=
  match fuel with
  | O => (fragment, cursor, replaced)
  | S fuel' =>
      match regexExec matchRefAt text lastIndex with
      | None => (fragment, cursor, replaced)
      | Some (atIndex, lbl, lastIndex') =>
          let raw := lit "@" ++ lbl in
          let previous :=
            if (0 <? atIndex)%nat then charAt text (atIndex - 1) else [] in
          if (0 <? atIndex)%nat && testWord previous then
            replaceLoop fuel' text idx sourcePath lastIndex' cursor fragment replaced
          else
            let fragment1 :=
              if (cursor <? atIndex)%nat
              then fragment ++ [TextNode (slice text cursor atIndex)]
              else fragment in
            let fragment2 := fragment1 ++ [referenceNode idx sourcePath raw lbl] in
            replaceLoop fuel' text idx sourcePath lastIndex'
              (atIndex + length raw)%nat fragment2 true
      end
  end.

(** [replaceReferencesInNode] on a text node whose value is [text]: the
    children of the fragment that takes the place of the node, or [None] when
    the node is left as it is. *)
Definition replaceReferencesInNode (text : jsstring) (idx : Index)
    (sourcePath : jsstring) : option (list Node) :=
  let '(fragment, cursor, replaced) :=
    replaceLoop (length text) text idx sourcePath 0 0 [] false in
  if negb replaced then None
  else if (cursor <? length text)%nat
       then Some (fragment ++ [TextNode (slice text cursor (length text))])
       else Some fragment.

(** The text a node stands for in the run it came from. *)
Definition nodeText (n : Node) : jsstring :=
  match n with
  | TextNode v => v
  | RefLink _ _ _ lbl _ => lit "@" ++ lbl
  | MissingSpan _ _ t => t
  end.

Definition fragmentText (ns : list Node) : jsstring :=
  List.concat (List.map nodeText ns).

(** ** Target resolution and the navigation fallback *)

(** [getActiveViewOfType(MarkdownView)]: the path of its file, if it has
    one, and whether it has a leaf. *)
Record ActiveView := { av_file : option jsstring; av_leaf : bool }.

Section Navigator.

(** The rendered elements, and the two things read off a target. *)
Variable Element : Type.
Variable closestCrossrefTarget : Element -> option Element.
Variable crossrefKindOf : Element -> jsstring.

(** A render root, as the three queries the resolver makes of it. *)
Record RenderRoot := {
  findDirectTargetInRoot : jsstring -> option Element;
  findBadgeTargetInRoot : jsstring -> option Element;
  findTargetBySectionRange : Descriptor -> option Element
}.

(** The host: its state, the active view, the roots around a link, and the
    navigation request, which may fail ([None]) and otherwise leaves the host
    re-rendered, the plugin's cache possibly refreshed on the way. *)
Variable World : Type.
Variable Link : Type.
Variable activeViewOf : World -> option ActiveView.
Variable collectReferenceSearchRoots : World -> Link -> list RenderRoot.
Variable openLinkText : World -> Plugin -> jsstring -> Z -> option (World * Plugin).

(** What the navigation fallback asks of the host, in the order it asks:
    the suppression of the native flash, the navigation request, the awaited
    timer, the clearing of native highlights, a resolution over the render
    roots, and the focus effect (scroll into view, then the flash class with
    the timer that removes it). *)
Inductive HostEvent :=
  | EvStartNativeFlashSuppression
  | EvOpenLinkText (path : jsstring) (line : Z)
  | EvAwaitTimeout (ms : nat)
  | EvClearNativeFlashHighlights
  | EvFindTargetElement (lbl : jsstring)
  | EvScrollIntoView (e : Element)
  | EvFlash (e : Element) (ms : nat).

Record Session := {
  world : World;
  plugin : Plugin;
  trace : list HostEvent
}.

Definition emit (s : Session) (e : HostEvent) : Session :=
  {| world := world s; plugin := plugin s; trace := trace s ++ [e] |}.

Definition logDebug (s : Session) (sourcePath message : jsstring) (payload : Payload)
  : Session :=
  {| world := world s; plugin := debugLog (plugin s) sourcePath message payload;
     trace := trace s |}.

Definition getActiveFilePath (w : World) : jsstring :=
  match activeViewOf w with
  | Some v => default [] (av_file v)
  | None => []
  end.

(** [for (const root of roots)]: the first root where the query hits. *)
Fixpoint firstHit (q : RenderRoot -> option Element) (roots : list RenderRoot)
  : option Element :=
  match roots with
  | [] => None
  | root :: roots' =>
      match q root with
      | Some e => Some e
      | None => firstHit q roots'
      end
  end.

(** The descriptor of [lbl] in the index cached for the active file. *)
Definition cachedDescriptor (p : Plugin) (sourcePath lbl : jsstring)
  : option Descriptor :=
  if isEmpty sourcePath then None
  else match indexCache p !! sourcePath with
       | Some cached => map_get (labels (index cached)) lbl
       | None => None
       end.

Definition findTargetElement (p : Plugin) (w : World) (lbl : jsstring)
    (originLink : Link) : option Element :=
  let roots := collectReferenceSearchRoots w originLink in
  match firstHit (fun root => findDirectTargetInRoot root lbl) roots with
  | Some direct => Some direct
  | None =>
      match firstHit (fun root => findBadgeTargetInRoot root lbl) roots with
      | Some badgeTarget => Some badgeTarget
      | None =>
          match cachedDescriptor p (getActiveFilePath w) lbl with
          | None => None
          | Some descriptor =>
              firstHit (fun root => findTargetBySectionRange root descriptor) roots
          end
      end
  end.

Definition navigateToReferenceLabel (s : Session) (lbl : jsstring)
    (originLink : Link) : bool * Session :=
  let sourcePath := getActiveFilePath (world s) in
  match cachedDescriptor (plugin s) sourcePath lbl with
  | None => (false, s)
  | Some descriptor =>
      match activeViewOf (world s) with
      | None => (false, s)
      | Some activeView =>
          if negb (av_leaf activeView) then (false, s)
          else
            let s1 := emit s EvStartNativeFlashSuppression in
            let s2 := emit s1 (EvOpenLinkText sourcePath (lineStart descriptor)) in
            match openLinkText (world s2) (plugin s2) sourcePath (lineStart descriptor) with
            | None => (false, s2)
            | Some (w', p') =>
                let s3 := emit {| world := w'; plugin := p'; trace := trace s2 |}
                               (EvAwaitTimeout 90) in
                let s4 := emit s3 EvClearNativeFlashHighlights in
                let s5 := emit s4 (EvFindTargetElement lbl) in
                match findTargetElement (plugin s5) (world s5) lbl originLink with
                | Some target =>
                    let focusHost := default target (closestCrossrefTarget target) in
                    let s6 := emit s5 (EvScrollIntoView focusHost) in
                    let s7 := emit s6 (EvFlash focusHost 1200) in
                    (true,
                     logDebug s7 sourcePath (lit "reference click target resolved")
                       (PayloadResolved lbl (crossrefKindOf focusHost)
                          (lit "fallback-open-link-line")))
                | None =>
                    (true,
                     logDebug s5 sourcePath (lit "reference fallback navigation attempted")
                       (PayloadAttempted lbl (lineStart descriptor)))
                end
            end
      end
  end.

(** How often the navigation request, the wait and the retry appear in a
    trace, and whether an element was focused. *)
Definition isOpenLinkText (e : HostEvent) : bool :=
  match e with EvOpenLinkText _ _ => true | _ => false end.
Definition isAwaitTimeout (e : HostEvent) : bool :=
  match e with EvAwaitTimeout _ => true | _ => false end.
Definition isFindTargetElement (e : HostEvent) : bool :=
  match e with EvFindTargetElement _ => true | _ => false end.
Definition isScrollIntoView (e : HostEvent) : bool :=
  match e with EvScrollIntoView _ => true | _ => false end.

Definition countEvents (f : HostEvent -> bool) (t : list HostEvent) : nat :=
  length (List.filter f t).

End Navigator.

Arguments world {Element World} s.
Arguments plugin {Element World} s.
Arguments trace {Element World} s.
Arguments EvStartNativeFlashSuppression {Element}.
Arguments EvOpenLinkText {Element} path line.
Arguments EvAwaitTimeout {Element} ms.
Arguments EvClearNativeFlashHighlights {Element}.
Arguments EvFindTargetElement {Element} lbl.
Arguments EvScrollIntoView {Element} e.
Arguments EvFlash {Element} e ms.
Arguments isOpenLinkText {Element} e.
Arguments isAwaitTimeout {Element} e.
Arguments isFindTargetElement {Element} e.
Arguments isScrollIntoView {Element} e.
Arguments countEvents {Element} f t.

Local Close Scope N_scope.
Local Open Scope nat_scope.

(** ** The vocabulary of the statements *)

(** Strictly increasing offsets. *)
Definition increasing (offs : list Z) : Prop :=
  forall i j a b, (i < j)%nat -> offs !! i = Some a -> offs !! j = Some b -> (a < b)%Z.

Definition spanOk (d : Descriptor) : Prop := (0 <= lineStart d <= lineEnd d)%Z.

Definition allSpansOk (st : ParseState) : Prop :=
  forall k d, In (k, d) (st_labels st) -> spanOk d.

(** [d'] is counted by the counter that numbered [d]. *)
Definition sameCounter (d d' : Descriptor) : bool :=
  match kind d with
  | equation => bool_decide (kind d' = equation)
  | figure => bool_decide (kind d' = figure)
  | theorem => bool_decide (kind d' = theorem) && JS.eqb (prefix d') (prefix d)
  end.

Definition descriptors (m : LabelMap) : list Descriptor := List.map snd m.

Definition countKind (k : Kind) (ds : list Descriptor) : nat :=
  length (List.filter (fun d => bool_decide (kind d = k)) ds).

Definition countCategory (pre : jsstring) (ds : list Descriptor) : nat :=
  length (List.filter
            (fun d => bool_decide (kind d = theorem) && JS.eqb (prefix d) pre) ds).

Definition rankBefore (ds : list Descriptor) (d : Descriptor) : nat :=
  S (length (List.filter (sameCounter d) ds)).

Record ranked (st : ParseState) : Prop := {
  rk_eq : equationCounter st = countKind equation (descriptors (st_labels st));
  rk_fig : figureCounter st = countKind figure (descriptors (st_labels st));
  rk_thm : forall pre,
    default 0 (theoremCounters st !! pre)
    = countCategory pre (descriptors (st_labels st));
  rk_num : forall i d,
    descriptors (st_labels st) !! i = Some d ->
    number d = rankBefore (take i (descriptors (st_labels st))) d
}.

(** A line of a block body: neither marker. *)
Definition plainLine (l : jsstring) : Prop :=
  testTheoremEnd (trim l) = false /\ testTheoremStart (trim l) = false.

Definition noDash (s : jsstring) : bool := forallb (fun c => negb (N.eqb c 45)) s.

(** Keys registered so far all belong to equations or figures. *)
Definition onlyEqFig (st : ParseState) : Prop :=
  forall key, map_get (st_labels st) key <> None ->
    beforeDash key = lit "eq" \/ beforeDash key = lit "fig".

(** [key] is the label of an open marker on a line from [a] up to [i - 1]. *)
Definition openedBetween (lines : list jsstring) (a i : nat) (key : jsstring) : Prop :=
  exists j l, a <= j < i /\ lines !! j = Some l /\ matchTheoremStart (trim l) = Some key.

(** All of [d] but its title. *)
Definition sameButTitle (d d' : Descriptor) : Prop :=
  label d = label d' /\ kind d = kind d' /\ prefix d = prefix d' /\
  number d = number d' /\ lineStart d = lineStart d' /\ lineEnd d = lineEnd d'.

(** [key] stays registered with [d], up to its title. *)
Definition keeps (key : jsstring) (d : Descriptor) (st : ParseState) : Prop :=
  exists d', map_get (st_labels st) key = Some d' /\ sameButTitle d d'.

(** Delimiter lines from line [a] up to line [i - 1]. *)
Definition delimitersFrom (lines : list jsstring) (i a : nat) : nat :=
  length (List.filter isMathDelimiter (drop a (take i lines))).

Definition noAt (s : jsstring) : bool := forallb (fun c => negb (N.eqb c 64)) s.

(** The marker put in the place of a reference to an undeclared label. *)
Definition missingNode (lbl : jsstring) : Node :=
  MissingSpan (lit "crossref-ref crossref-ref-missing") lbl (lit "@" ++ lbl).


(** An open marker on line [i] with label [lbl] and neither a close marker
    nor another open marker on any later line. *)
Definition unterminatedAt (source : jsstring) (i : nat) (lbl : jsstring) : Prop :=
  exists l,
    splitLines source !! i = Some l /\ matchTheoremStart (trim l) = Some lbl /\
    forall j l', i < j -> splitLines source !! j = Some l' -> plainLine l'.

(** What a test reads off a descriptor. *)
Definition summary (d : Descriptor) :=
  (label d, kind d, prefix d, number d, title d, lineStart d, lineEnd d).

Definition summaries (idx : Index) :=
  List.map (fun kv => summary (snd kv)) (labels idx).

(** *** Sample texts *)

Definition threeEquations : jsstring :=
  lit "$$
a
$$
{#eq-a}
$$
b
$$

{#eq-b}
See @eq-c and @eq-a.
$$
c
$$
{#eq-c}".

Definition duplicateTheorem : jsstring :=
  lit ":::{#thm-a}
:::
:::{#thm-a}
Hello
:::{#thm-b}
:::".

Definition firstTheoremOnly : jsstring :=
  lit ":::{#thm-a}
:::".

Definition unterminatedTheorem : jsstring :=
  lit ":::{#thm-a}
body".

Definition adjacentTheorems : jsstring :=
  lit ":::{#thm-a}
A
:::{#lem-b}
B
:::".

Definition unclosedMath : jsstring :=
  lit "$$
x
{#eq-x}
![c](u) {#fig-a}".

Definition oneEquation : jsstring :=
  lit "$$
x
$$
{#eq-a}".

(** *** A host in which nothing is rendered

    One active view on [note.md] with a leaf, one render root without any
    target, and a navigation request that succeeds and changes nothing. *)

Definition notePath : jsstring := lit "note.md".

Definition emptyRoot : RenderRoot unit :=
  {| findDirectTargetInRoot := fun _ => None;
     findBadgeTargetInRoot := fun _ => None;
     findTargetBySectionRange := fun _ => None |}.

Definition noteView (w : unit) : option ActiveView :=
  Some {| av_file := Some notePath; av_leaf := true |}.

Definition noteRoots (w : unit) (originLink : unit) : list (RenderRoot unit) :=
  [emptyRoot].

Definition noteOpen (w : unit) (p : Plugin) (path : jsstring) (line : Z)
  : option (unit * Plugin) := Some (w, p).

Definition notePlugin : Plugin :=
  {| indexCache :=
       {[ notePath := {| hash := fastHash oneEquation;
                         index := parseCrossrefIndex oneEquation |} ]};
     debugLogBuffer := [] |}.

Definition noteSession : Session unit unit :=
  {| world := tt; plugin := notePlugin; trace := [] |}.

Definition noteNavigate (lbl : jsstring) : bool * Session unit unit :=
  navigateToReferenceLabel unit (fun _ => None) (fun _ => []) unit unit
    noteView noteRoots noteOpen noteSession lbl tt.

(** ** More of the plugin, and the vocabulary of further statements *)

(** *** The index as a whole *)

(** A label as the patterns take it: one of [alts], a hyphen, and a name of
    at least one character of [[A-Za-z0-9_-]]. *)
Definition labelOver (alts : list jsstring) (lbl : jsstring) : Prop :=
  exists p name,
    In p alts /\ lbl = p ++ lit "-" ++ name /\ name <> [] /\
    forallb isLabelChar name = true.

(** The kind, the prefix and the label of a descriptor go together. *)
Definition consistent (d : Descriptor) : Prop :=
  prefix d = beforeDash (label d) /\
  match kind d with
  | equation => prefix d = lit "eq" /\ labelOver [lit "eq"] (label d)
  | figure => prefix d = lit "fig" /\ labelOver [lit "fig"] (label d)
  | theorem => In (prefix d) THEOREM_PREFIXES /\ labelOver THEOREM_PREFIXES (label d)
  end.

(** The map holds each key once, with a descriptor of that label. *)
Definition wellKeyed (m : LabelMap) : Prop :=
  List.NoDup (List.map fst m) /\ forall k d, In (k, d) m -> label d = k.

(** What every entry of a state satisfies. *)
Definition entriesOk (st : ParseState) : Prop :=
  wellKeyed (st_labels st) /\
  forall k d, In (k, d) (st_labels st) -> consistent d.


(** What a descriptor of each kind stands for in the text: a display-math
    block from its opening delimiter on line [lineStart], over the first
    delimiter line after it and blank lines, to its label line on line
    [lineEnd]; an occurrence of the figure pattern from the line of its [!]
    to the line of its closing brace; a block whose open marker is on line
    [lineStart]. *)
Definition standsFor (source : jsstring) (d : Descriptor) : Prop :=
  match kind d with
  | equation =>
      exists i e m li le l,
        lineStart d = Z.of_nat i /\ lineEnd d = Z.of_nat m /\ i < e < m /\
        splitLines source !! i = Some li /\ isMathDelimiter li = true /\
        splitLines source !! e = Some le /\ isMathDelimiter le = true /\
        (forall j lj, i < j < e -> splitLines source !! j = Some lj ->
                      isMathDelimiter lj = false) /\
        (forall j lj, e < j < m -> splitLines source !! j = Some lj -> trim lj = []) /\
        splitLines source !! m = Some l /\
        matchEquationLabel (trim l) = Some (label d)
  | figure =>
      exists index rest,
        index <= length source /\
        matchFigureAt (drop index source) = Some (label d, rest) /\
        lineStart d = offsetToLine (buildLineOffsets source) (Z.of_nat index) /\
        lineEnd d = offsetToLine (buildLineOffsets source)
                      (Z.of_nat (length source - length rest) - 1)
  | theorem =>
      exists i l,
        lineStart d = Z.of_nat i /\
        splitLines source !! i = Some l /\
        matchTheoremStart (trim l) = Some (label d)
  end.

Definition closedTheorem : jsstring :=
  lit "::: {#def-inner}
intro
## Inner Product
body
:::".

(** *** The handlers that drop cache entries *)

(** A file of the vault, as the handlers read it. *)
Record TFile := { path : jsstring }.

(** [file && file.path]: the path when both are truthy. *)
Definition filePath (file : option TFile) : option jsstring :=
  match file with
  | Some f => if isEmpty (path f) then None else Some (path f)
  | None => None
  end.

(** [this.indexCache.delete(k)] *)
Definition evict (p : Plugin) (k : jsstring) : Plugin :=
  {| indexCache := delete k (indexCache p); debugLogBuffer := debugLogBuffer p |}.

(** The handlers that [onload] registers for the vault events "rename" and
    "delete" and for the workspace events "editor-change" and "file-open". *)
Definition onRename (p : Plugin) (file : option TFile) (oldPath : jsstring) : Plugin :=
  let p1 := if isEmpty oldPath then p else evict p oldPath in
  match filePath file with
  | Some k => evict p1 k
  | None => p1
  end.

Definition onDelete (p : Plugin) (file : option TFile) : Plugin :=
  match filePath file with
  | Some k => evict p k
  | None => p
  end.

(** [view] is the second argument of the event; its [file] may be missing. *)
Definition onEditorChange (p : Plugin) (view : option (option TFile)) : Plugin :=
  match filePath (mjoin view) with
  | Some k => evict p k
  | None => p
  end.

Definition onFileOpen (p : Plugin) (file : option TFile) : Plugin :=
  match filePath file with
  | Some k => evict p k
  | None => p
  end.

(** The fields of the plugin as [onload] sets them. *)
Definition onloadPlugin : Plugin := {| indexCache := ∅; debugLogBuffer := [] |}.

(** What happens to the cache during a session: a request for the index of
    the text of a note, or one of the four events above. *)
Inductive CacheEvent :=
  | Requested (sourcePath source : jsstring)
  | Renamed (file : option TFile) (oldPath : jsstring)
  | Deleted (file : option TFile)
  | EditorChanged (view : option (option TFile))
  | FileOpened (file : option TFile).

Definition handleEvent (p : Plugin) (ev : CacheEvent) : Plugin :=
  match ev with
  | Requested sourcePath source => snd (getCachedIndex p sourcePath source)
  | Renamed file oldPath => onRename p file oldPath
  | Deleted file => onDelete p file
  | EditorChanged view => onEditorChange p view
  | FileOpened file => onFileOpen p file
  end.

Definition replay (evs : list CacheEvent) : Plugin :=
  fold_left handleEvent evs onloadPlugin.

(** The event drops the entry of [k]. *)
Definition evicts (ev : CacheEvent) (k : jsstring) : Prop :=
  match ev with
  | Requested _ _ => False
  | Renamed file oldPath => (oldPath = k /\ k <> []) \/ filePath file = Some k
  | Deleted file => filePath file = Some k
  | EditorChanged view => filePath (mjoin view) = Some k
  | FileOpened file => filePath file = Some k
  end.

(** Every entry holds the index of a text with the entry's fingerprint, and
    that text was requested for the entry's path. *)
Definition cacheFrom (evs : list CacheEvent) (p : Plugin) : Prop :=
  forall k e, indexCache p !! k = Some e ->
    exists src, In (Requested k src) evs /\
      hash e = fastHash src /\ index e = parseCrossrefIndex src.

(** *** The fingerprint *)

(** The 32-bit FNV-1a hash of the code units of a text: offset basis
    2166136261, prime 16777619. *)
Definition fnv1a (text : jsstring) : Z :=
  fold_left (fun h c => (Z.lxor h (Z.of_N c) * 16777619) mod 4294967296)%Z
    text 2166136261%Z.

(** The value of a hexadecimal numeral in lower case. *)
Definition digitValue (c : char16) : Z :=
  if (c <? 58)%N then (Z.of_N c - 48)%Z else (Z.of_N c - 87)%Z.

Definition hexValue (s : jsstring) : Z :=
  fold_left (fun v c => (v * 16 + digitValue c)%Z) s 0%Z.

Definition isHexDigit (c : char16) : bool :=
  isDigit c || ((97 <=? c)%N && (c <=? 102)%N).

(** *** Sections of the rendered note *)

(** [array.sort(compare)]: the sort is stable, so for a comparator that
    orders the elements its result is that of the insertion sort, where an
    element goes in front of the first one that it does not exceed. *)
Fixpoint insertBy (compare : Descriptor -> Descriptor -> Z) (x : Descriptor)
    (l : list Descriptor) : list Descriptor :=
  match l with
  | [] => [x]
  | y :: l' =>
      if (compare x y <=? 0)%Z then x :: y :: l' else y :: insertBy compare x l'
  end.

Definition sortBy (compare : Descriptor -> Descriptor -> Z) (l : list Descriptor)
  : list Descriptor :=
  fold_right (insertBy compare) [] l.

(** What [context.getSectionInfo(element)] gives: each line number is there
    when it is a finite number. *)
Record SectionInfo := {
  info_lineStart : option Z;
  info_lineEnd : option Z
}.

Definition getTheoremDescriptors (idx : Index) : list Descriptor :=
  sortBy (fun a b => lineStart a - lineStart b)%Z
    (List.filter (fun descriptor => bool_decide (kind descriptor = theorem))
       (descriptors (labels idx))).

(** [{ start, end }] or [null]. *)
Definition getSectionBounds (sectionInfo : option SectionInfo) : option (Z * Z) :=
  match sectionInfo with
  | Some info =>
      match info_lineStart info, info_lineEnd info with
      | Some a, Some b => Some (a, b)
      | _, _ => None
      end
  | None => None
  end.

Record TheoremMatch := {
  tm_descriptor : Descriptor;
  isStartSection : bool;
  isFullyInside : bool;
  sectionBounds : option (Z * Z)
}.

(** [item.lineEnd >= sectionBounds.start && item.lineStart <= sectionBounds.end] *)
Definition overlapsSection (bounds : Z * Z) (item : Descriptor) : bool :=
  (fst bounds <=? lineEnd item)%Z && (lineStart item <=? snd bounds)%Z.

Definition findTheoremMatchForSection (idx : Index)
    (sectionInfo : option SectionInfo) (directText : jsstring)
  : option TheoremMatch :=
  let theoremDescriptors := getTheoremDescriptors idx in
  if (length theoremDescriptors =? 0)%nat then None
  else
    match matchTheoremStart directText with
    | Some lbl =>
        match map_get (labels idx) lbl with
        | None => None
        | Some descriptor =>
            if bool_decide (kind descriptor = theorem) then
              Some {| tm_descriptor := descriptor; isStartSection := true;
                      isFullyInside := true;
                      sectionBounds := getSectionBounds sectionInfo |}
            else None
        end
    | None =>
        if testTheoremEnd directText then
          match getSectionBounds sectionInfo with
          | None => None
          | Some bounds =>
              match List.find (overlapsSection bounds) theoremDescriptors with
              | None => None
              | Some descriptor =>
                  Some {| tm_descriptor := descriptor; isStartSection := false;
                          isFullyInside := true; sectionBounds := Some bounds |}
              end
          end
        else
          match getSectionBounds sectionInfo with
          | None => None
          | Some bounds =>
              match List.find (overlapsSection bounds) theoremDescriptors with
              | None => None
              | Some descriptor =>
                  let isStart :=
                    (fst bounds <=? lineStart descriptor)%Z
                    && (lineStart descriptor <=? snd bounds)%Z in
                  let isInside :=
                    (lineStart descriptor <=? fst bounds)%Z
                    && (snd bounds <=? lineEnd descriptor)%Z in
                  if negb isStart && negb isInside then None
                  else Some {| tm_descriptor := descriptor; isStartSection := isStart;
                               isFullyInside := isInside;
                               sectionBounds := Some bounds |}
              end
          end
    end.

(** The comparator of [selectTargetsForSection]. *)
Definition compareSpans (a b : Descriptor) : Z :=
  if negb (lineStart a =? lineStart b)%Z then (lineStart a - lineStart b)%Z
  else (lineEnd a - lineEnd b)%Z.

Definition selectTargetsForSection (idx : Index)
    (sectionInfo : option SectionInfo) : list Descriptor :=
  let sorted := sortBy compareSpans (descriptors (labels idx)) in
  match sectionInfo with
  | None => []
  | Some info =>
      let sectionStart := default 0%Z (info_lineStart info) in
      let sectionEnd := default sectionStart (info_lineEnd info) in
      List.filter
        (fun descriptor =>
           (sectionStart - 1 <=? lineEnd descriptor)%Z
           && (lineStart descriptor <=? sectionEnd + 1)%Z)
        sorted
  end.

(** [a] comes no later than [b] in the order of [compareSpans]. *)
Definition spanLe (a b : Descriptor) : Prop :=
  (lineStart a < lineStart b)%Z \/
  (lineStart a = lineStart b /\ lineEnd a <= lineEnd b)%Z.

(** The window of [selectTargetsForSection] around the section of [info]. *)
Definition nearSection (info : SectionInfo) (d : Descriptor) : bool :=
  let sectionStart := default 0%Z (info_lineStart info) in
  let sectionEnd := default sectionStart (info_lineEnd info) in
  (sectionStart - 1 <=? lineEnd d)%Z && (lineStart d <=? sectionEnd + 1)%Z.

(** Each element is related to all the later ones. *)
Fixpoint sortedBy (R : Descriptor -> Descriptor -> Prop) (l : list Descriptor) : Prop :=
  match l with
  | [] => True
  | x :: l' => Forall (R x) l' /\ sortedBy R l'
  end.

(** *** The text of a rendered theorem *)





(** *** The nodes of a replaced text run *)

(** The link that stands for a reference to [lbl] with descriptor [d] in the
    note at [sourcePath]. *)
Definition linkNode (sourcePath lbl : jsstring) (d : Descriptor) : Node :=
  RefLink (lit "crossref-ref crossref-ref-" ++ kindName (kind d))
    (lit "#" ++ lbl) (sourcePath ++ lit "#" ++ lbl) lbl (descriptorDisplay d).

(** A text node is not empty, a link is the link of a label of the index, a
    missing marker is the marker of a label that the index does not have. *)
Definition nodeOk (idx : Index) (sourcePath : jsstring) (n : Node) : Prop :=
  match n with
  | TextNode v => v <> []
  | RefLink _ _ _ lbl _ =>
      exists d, map_get (labels idx) lbl = Some d /\ n = linkNode sourcePath lbl d
  | MissingSpan _ lbl _ =>
      map_get (labels idx) lbl = None /\ n = missingNode lbl
  end.

Definition isReference (n : Node) : bool :=
  match n with
  | TextNode _ => false
  | _ => true
  end.

(** No two text nodes in a row. *)
Fixpoint textNodesApart (ns : list Node) : Prop :=
  match ns with
  | TextNode _ :: ((TextNode _ :: _) as rest) => False
  | _ :: rest => textNodesApart rest
  | [] => True
  end.

(** Empty, or with a link or a missing marker as last node. *)
Definition endsWithReference (ns : list Node) : Prop :=
  ns = [] \/ exists ns' n, ns = ns' ++ [n] /\ isReference n = true.

(** *** [dedupeElements] *)

Section Dedupe.

(** The elements of the page, compared by identity; [None] stands for a
    value that is not an [HTMLElement], such as [null]. *)
Context {Element : Type} `{EqDecision Element}.

(** The loop of [dedupeElements], with the set [seen] as the list of its
    members. *)
Fixpoint dedupeLoop (elements : list (option Element)) (seen unique : list Element)
  : list Element :=
  match elements with
  | [] => unique
  | None :: rest => dedupeLoop rest seen unique
  | Some element :: rest =>
      if bool_decide (element ∈ seen) then dedupeLoop rest seen unique
      else dedupeLoop rest (element :: seen) (unique ++ [element])
  end.

Definition dedupeElements (elements : list (option Element)) : list Element :=
  dedupeLoop elements [] [].

End Dedupe.

(** *** [stripLabelTokens] *)

(** [normalizeText] on the text content of an element: the zero-width
    spaces removed, then trimmed. *)
Definition normalizeText (textContent : jsstring) : jsstring :=
  trim (List.filter (fun c => negb (N.eqb c 8203)) textContent).

(** [s.includes(needle)] *)
Fixpoint includes (needle s : jsstring) : bool :=
  match stripPrefix needle s with
  | Some _ => true
  | None =>
      match s with
      | [] => false
      | _ :: s' => includes needle s'
      end
  end.

(** [LABEL_TOKEN_PATTERN] at the head of [s]: the label and the rest after
    the closing brace. *)
Definition matchLabelTokenAt (s : jsstring) : option (jsstring * jsstring) :=
  match stripPrefix (lit "{#") s with
  | None => None
  | Some rest =>
      match matchLabelWith LABEL_PREFIXES rest with
      | None => None
      | Some (lbl, rest') =>
          match stripPrefix (lit "}") rest' with
          | None => None
          | Some tail => Some (lbl, tail)
          end
      end
  end.

(** [s.replace(LABEL_TOKEN_PATTERN, "")]: every match is left out, from left
    to right, the search going on after each match; [fuel] bounds the number
    of steps, one for each character or match. *)
Fixpoint removeLabelTokens (fuel : nat) (s : jsstring) : jsstring :=
  match fuel with
  | O => s
  | S fuel' =>
      match matchLabelTokenAt s with
      | Some (_, rest) => removeLabelTokens fuel' rest
      | None =>
          match s with
          | [] => []
          | c :: s' => c :: removeLabelTokens fuel' s'
          end
      end
  end.

(** The parent element of a text node, as the loop reads it: whether it or
    an ancestor matches the selector of [shouldSkipTextNode] (links, code,
    math, badges, theorem titles), and its text content. *)
Record ParentElement := {
  closestSkipped : bool;
  textContent : jsstring
}.

(** [shouldSkipTextNode]: a text node without parent element is skipped, and
    so is one inside an element of the selector. *)
Definition shouldSkipTextNode (parent : option ParentElement) : bool :=
  match parent with
  | None => true
  | Some p => closestSkipped p
  end.

(** [stripLabelTokens] on one text node of the root, with value [raw] and
    parent element [parent]: the value of the node afterwards. Only the nodes
    that [shouldSkipTextNode] lets through are collected; the loop then
    leaves a node alone when it has no [{#], when its trimmed text is an open
    marker, or when the normalized text of its parent is one. *)
Definition stripLabelTokens (parent : option ParentElement) (raw : jsstring)
  : jsstring :=
  if shouldSkipTextNode parent then raw
  else if negb (includes (lit "{#") raw) then raw
  else if testTheoremStart (trim raw) then raw
  else
    match parent with
    | Some p =>
        if testTheoremStart (normalizeText (textContent p)) then raw
        else removeLabelTokens (length raw) raw
    | None => removeLabelTokens (length raw) raw
    end.

Definition noBrace (s : jsstring) : bool := forallb (fun c => negb (N.eqb c 123)) s.

(** *** The two suggesters *)

(** What [onTrigger] returns, on the line of the cursor: the columns of
    [start] and [end], and the query. *)
Record TriggerInfo := {
  start_ch : nat;
  end_ch : nat;
  query : jsstring
}.

(** [text.match(re)] for a pattern that ends in [$]: the group of the
    leftmost match, [m atStart s] being the pattern at the head of the suffix
    [s], which begins the text when [atStart] holds. *)
Fixpoint searchSuffix (m : bool -> jsstring -> option jsstring) (atStart : bool)
    (s : jsstring) : option jsstring :=
  match m atStart s with
  | Some q => Some q
  | None =>
      match s with
      | [] => None
      | _ :: s' => searchSuffix m false s'
      end
  end.

(** The mark ([@] or [{#]) and then nothing but characters of
    [[A-Za-z0-9_-]] up to the end of the text, at the head of [s]: these
    characters. *)
Definition matchQueryAfter (mark : jsstring) (s : jsstring) : option jsstring :=
  match stripPrefix mark s with
  | Some q => if forallb isLabelChar q then Some q else None
  | None => None
  end.




(** [CrossrefLabelSuggest.onTrigger] *)
Definition labelOnTrigger (line : jsstring) (ch : nat) : option TriggerInfo :=
  let before := take ch line in
  match searchSuffix (fun _ => matchQueryAfter (lit "{#")) true before with
  | None => None
  | Some q => Some {| start_ch := ch - length q - 2; end_ch := ch; query := q |}
  end.

(** [editor.replaceRange(text, start, end)] within one line. *)
Definition replaceRange (line text : jsstring) (from to : nat) : jsstring :=
  take from line ++ text ++ drop to line.


(** [CrossrefLabelSuggest.selectSuggestion] for an item with [prefix]: the
    line afterwards and the column of the cursor, if it is set. *)
Definition labelSelectSuggestion (context : option TriggerInfo)
    (prefix : jsstring) (line : jsstring) : jsstring * option nat :=
  match context with
  | None => (line, None)
  | Some c =>
      let insertText := lit "{#" ++ prefix ++ lit "}" in
      (replaceRange line insertText (start_ch c) (end_ch c),
       Some (start_ch c + length insertText - 1))
  end.

(** *** Categories, read off the labels *)

(** [s] begins with [p]. *)
Definition startsWith (p s : jsstring) : bool :=
  match stripPrefix p s with
  | Some _ => true
  | None => false
  end.

(** The category of a label: the one of the thirteen prefixes that the label
    begins with, a hyphen after it. *)
Definition categoryOf (lbl : jsstring) : option jsstring :=
  List.find (fun pre => startsWith (pre ++ lit "-") lbl) LABEL_PREFIXES.

(** [d'] counts for the rank of [d]: it is of the kind of [d] and, for a
    theorem-like block, its label is of the category of the label of [d]. *)
Definition sameCategory (d d' : Descriptor) : bool :=
  bool_decide (kind d' = kind d)
  && match kind d with
     | theorem => bool_decide (categoryOf (label d') = categoryOf (label d))
     | _ => true
     end.

(** The 1-based rank of [d] after the descriptors [ds] registered before
    it. *)
Definition rankAmong (ds : list Descriptor) (d : Descriptor) : nat :=
  S (length (List.filter (sameCategory d) ds)).

(** Theorem-like blocks of two categories, in turn. *)
Definition mixedTheorems : jsstring :=
  lit ":::{#thm-a}
:::
:::{#lem-b}
:::
:::{#thm-c}
:::
:::{#lem-d}
:::".

(** * Lemmas *)

(** ** The patterns on sample lines *)

Example heading_of_block :
  matchHeading (lit "## Inner Product") = Some (lit "Inner Product").
Proof. reflexivity. Qed.

(** The group keeps the blanks that [\s*$] could also take. *)
Example heading_trailing_blanks :
  matchHeading (lit "  # Title  ") = Some (lit "Title  ").
Proof. reflexivity. Qed.

(** [\s+] gives one blank back to the group. *)
Example heading_of_blanks : matchHeading (lit "#   ") = Some (lit " ").
Proof. reflexivity. Qed.

Example heading_needs_text : matchHeading (lit "# ") = None.
Proof. reflexivity. Qed.

Example heading_seven_marks : matchHeading (lit "####### seven") = None.
Proof. reflexivity. Qed.

Example theorem_start_spaced :
  matchTheoremStart (lit "::: {#def-inner-product}") = Some (lit "def-inner-product").
Proof. reflexivity. Qed.

Example theorem_start_not_equation : matchTheoremStart (lit ":::{#eq-a}") = None.
Proof. reflexivity. Qed.

Example equation_label_alone :
  matchEquationLabel (lit "{#eq-energy}") = Some (lit "eq-energy") /\
  matchEquationLabel (lit "{#eq-energy} x") = None.
Proof. split; reflexivity. Qed.

Example figure_with_tail :
  matchFigureAt (lit "![Figure One](https://x/y.png){#fig-one} tail")
  = Some (lit "fig-one", lit " tail").
Proof. reflexivity. Qed.

(** A carriage return goes with the line feed after it, and only then. *)
Example split_crlf :
  splitLines [97; 13; 10; 98; 13; 99; 10]%N = [[97]; [98; 13; 99]; []]%N.
Proof. reflexivity. Qed.

Example trim_unicode : trim [9; 32; 97; 32; 98; 160; 65279]%N = [97; 32; 98]%N.
Proof. reflexivity. Qed.

Example offsets_and_lines :
  buildLineOffsets (lit "ab
c

d") = [0; 3; 5; 6]%Z /\
  List.map (offsetToLine [0; 3; 5; 6]%Z) [-1; 0; 2; 3; 4; 5; 6; 7; 100]%Z
  = [0; 0; 0; 1; 1; 2; 3; 3; 3]%Z.
Proof. split; reflexivity. Qed.

(** The values of 32-bit FNV-1a. *)
Example fastHash_values :
  fastHash [] = lit "811c9dc5" /\ fastHash (lit "a") = lit "e40c292c" /\
  fastHash (lit "foobar") = lit "bf9cf968".
Proof. repeat split; vm_compute; reflexivity. Qed.

(** A token after a word character is found by [exec]; the caller skips it. *)
Example exec_reference :
  regexExec matchRefAt (lit "a@eq-x @eq-y") 0 = Some (1, lit "eq-x", 6) /\
  regexExec matchRefAt (lit "a@eq-x @eq-y") 6 = Some (7, lit "eq-y", 12) /\
  regexExec matchRefAt (lit "a@eq-x @eq-y") 12 = None.
Proof. repeat split; reflexivity. Qed.

(** ** [offsetToLine] *)

Local Open Scope Z_scope.

Lemma sar32_half z : 0 <= z < 2147483648 -> sar32 z 1 = z / 2.
Proof.
  intros H. unfold sar32, toInt32.
  rewrite Z.shiftr_div_pow2 by lia.
  replace ((z + 2147483648) mod 4294967296) with (z + 2147483648).
  - f_equal. lia.
  - symmetry. apply Z.mod_small. lia.
Qed.

Lemma offsetToLine_loop_spec offs offset :
  increasing offs ->
  Z.of_nat (length offs) <= 1073741824 ->
  forall fuel left right,
    0 <= left -> right < Z.of_nat (length offs) -> left <= right + 1 ->
    right - left + 1 <= Z.of_nat fuel ->
    (forall k a, Z.of_nat k < left -> offs !! k = Some a -> a <= offset) ->
    (forall k a, right < Z.of_nat k -> offs !! k = Some a -> offset < a) ->
    let r := offsetToLine_loop fuel offs offset left right in
    -1 <= r < Z.of_nat (length offs) /\
    (forall k a, Z.of_nat k <= r -> offs !! k = Some a -> a <= offset) /\
    (forall k a, r < Z.of_nat k -> offs !! k = Some a -> offset < a).
Proof.
  intros Hinc Hlen. induction fuel as [|fuel IH]; intros left right Hl Hr Hlr Hfuel Hlo Hhi; simpl.
  - assert (left = right + 1) by lia. subst left.
    split; [lia|]. split; [|exact Hhi].
    intros k a Hk. apply Hlo. lia.
  - destruct (Z.leb_spec left right) as [Hle|Hgt].
    + rewrite sar32_half by lia.
      set (mid := (left + right) / 2).
      assert (Hmid : left <= mid <= right).
      { unfold mid. split.
        - apply Z.div_le_lower_bound; lia.
        - apply Z.div_le_upper_bound; lia. }
      unfold offsetAtLe.
      destruct (Z.ltb_spec mid 0) as [?|_]; [lia|].
      destruct (offs !! Z.to_nat mid) as [o|] eqn:Ho.
      * destruct (Z.leb_spec o offset) as [Hoo|Hoo].
        -- apply IH; try lia.
           ++ intros k a Hk Ha.
              destruct (decide (k = Z.to_nat mid)) as [->|Hne].
              ** rewrite Ho in Ha. inversion Ha; subst. lia.
              ** assert (a < o); [|lia].
                 eapply (Hinc k (Z.to_nat mid)); eauto. lia.
           ++ exact Hhi.
        -- apply IH; try lia.
           ++ exact Hlo.
           ++ intros k a Hk Ha.
              destruct (decide (k = Z.to_nat mid)) as [->|Hne].
              ** rewrite Ho in Ha. inversion Ha; subst. lia.
              ** destruct (Z_lt_le_dec right (Z.of_nat k)) as [Hk'|Hk'].
                 --- eapply Hhi; eauto.
                 --- assert (o < a); [|lia].
                     eapply (Hinc (Z.to_nat mid) k); eauto. lia.
      * apply lookup_ge_None in Ho. lia.
    + assert (left = right + 1) by lia. subst left.
      split; [lia|]. split; [|exact Hhi].
      intros k a Hk. apply Hlo. lia.
Qed.

Lemma offsetToLine_spec offs offset :
  increasing offs ->
  Z.of_nat (length offs) <= 1073741824 ->
  let r := offsetToLine_loop (length offs) offs offset 0 (Z.of_nat (length offs) - 1) in
  -1 <= r < Z.of_nat (length offs) /\
  (forall k a, Z.of_nat k <= r -> offs !! k = Some a -> a <= offset) /\
  (forall k a, r < Z.of_nat k -> offs !! k = Some a -> offset < a).
Proof.
  intros Hinc Hlen. apply offsetToLine_loop_spec; auto; try lia.
  intros k a Hk Ha. apply lookup_lt_Some in Ha. lia.
Qed.

Lemma offsetToLine_nonneg offs offset : 0 <= offsetToLine offs offset.
Proof. unfold offsetToLine. lia. Qed.

Lemma offsetToLine_mono offs o1 o2 :
  increasing offs ->
  Z.of_nat (length offs) <= 1073741824 ->
  o1 <= o2 -> offsetToLine offs o1 <= offsetToLine offs o2.
Proof.
  intros Hinc Hlen Hle. unfold offsetToLine.
  destruct (offsetToLine_spec offs o1 Hinc Hlen) as (Hr1 & Hlo1 & Hhi1).
  destruct (offsetToLine_spec offs o2 Hinc Hlen) as (Hr2 & Hlo2 & Hhi2).
  cbv zeta in *.
  set (r1 := offsetToLine_loop _ _ o1 _ _) in *.
  set (r2 := offsetToLine_loop _ _ o2 _ _) in *.
  destruct (Z_le_gt_dec r1 r2) as [|Hgt]; [lia|].
  exfalso.
  assert (Hk : (Z.to_nat r1 < length offs)%nat) by lia.
  destruct (lookup_lt_is_Some_2 offs (Z.to_nat r1) Hk) as [a Ha].
  assert (a <= o1) by (apply (Hlo1 (Z.to_nat r1) a); [lia|exact Ha]).
  assert (o2 < a) by (apply (Hhi2 (Z.to_nat r1) a); [lia|exact Ha]).
  lia.
Qed.

(** The line of an offset that lies between two consecutive line starts. *)
Lemma offsetToLine_exact offs offset m a :
  increasing offs ->
  Z.of_nat (length offs) <= 1073741824 ->
  offs !! m = Some a -> a <= offset ->
  (forall b, offs !! S m = Some b -> offset < b) ->
  offsetToLine offs offset = Z.of_nat m.
Proof.
  intros Hinc Hlen Hm Hle Hnext. unfold offsetToLine.
  destruct (offsetToLine_spec offs offset Hinc Hlen) as (Hr & Hlo & Hhi).
  cbv zeta in *.
  set (r := offsetToLine_loop _ _ offset _ _) in *.
  assert (Z.of_nat m <= r).
  { destruct (Z_le_gt_dec (Z.of_nat m) r); [lia|].
    assert (offset < a) by (apply (Hhi m a); [lia|exact Hm]). lia. }
  assert (r <= Z.of_nat m).
  { destruct (Z_le_gt_dec r (Z.of_nat m)); [lia|].
    assert (Hk : (S m < length offs)%nat) by lia.
    destruct (lookup_lt_is_Some_2 offs (S m) Hk) as [b Hb].
    assert (b <= offset) by (apply (Hlo (S m) b); [lia|exact Hb]).
    specialize (Hnext b Hb). lia. }
  lia.
Qed.

(** *** Line offsets and lines of a text *)

Lemma buildLineOffsets_from_bounds source : forall i k a,
  buildLineOffsets_from i source !! k = Some a ->
  i < a <= i + Z.of_nat (length source).
Proof.
  induction source as [|c rest IH]; intros i k a H; simpl in *.
  - rewrite lookup_nil in H. discriminate.
  - destruct (N.eqb c 10).
    + destruct k as [|k]; simpl in H.
      * inversion H; subst. lia.
      * apply IH in H. lia.
    + apply IH in H. lia.
Qed.

Lemma buildLineOffsets_from_increasing source : forall i,
  increasing (buildLineOffsets_from i source).
Proof.
  induction source as [|c rest IH]; intros i; simpl.
  - intros j k a b _ H. rewrite lookup_nil in H. discriminate.
  - destruct (N.eqb c 10); [|apply IH].
    intros j k a b Hjk Ha Hb.
    destruct k as [|k]; [lia|]. simpl in Hb.
    destruct j as [|j]; simpl in Ha.
    + inversion Ha; subst. apply buildLineOffsets_from_bounds in Hb. lia.
    + eapply (IH (i + 1) j k); eauto. lia.
Qed.

Lemma buildLineOffsets_increasing source : increasing (buildLineOffsets source).
Proof.
  unfold buildLineOffsets. intros j k a b Hjk Ha Hb.
  destruct k as [|k]; [lia|]. simpl in Hb.
  destruct j as [|j]; simpl in Ha.
  - inversion Ha; subst. apply buildLineOffsets_from_bounds in Hb. lia.
  - eapply (buildLineOffsets_from_increasing source 0 j k); eauto. lia.
Qed.

Lemma buildLineOffsets_bounds source k a :
  buildLineOffsets source !! k = Some a -> 0 <= a <= Z.of_nat (length source).
Proof.
  unfold buildLineOffsets. destruct k as [|k]; simpl; intros H.
  - inversion H; subst. lia.
  - apply buildLineOffsets_from_bounds in H. lia.
Qed.

Lemma buildLineOffsets_from_length source : forall i,
  (length (buildLineOffsets_from i source) <= length source)%nat.
Proof.
  induction source as [|c rest IH]; intros i; simpl; [lia|].
  destruct (N.eqb c 10); simpl; specialize (IH (i + 1)); lia.
Qed.

Lemma buildLineOffsets_length_le source :
  (length (buildLineOffsets source) <= S (length source))%nat.
Proof.
  unfold buildLineOffsets. simpl. pose proof (buildLineOffsets_from_length source 0). lia.
Qed.

Lemma splitLines_nonempty s : splitLines s <> [].
Proof.
  induction s as [|c s IH]; simpl; [discriminate|].
  destruct (N.eqb c LF); [discriminate|].
  destruct (N.eqb c CR && startsWithLF s); [exact IH|].
  destruct (splitLines s); discriminate.
Qed.

Lemma splitLines_length s : forall i,
  length (splitLines s) = S (length (buildLineOffsets_from i s)).
Proof.
  induction s as [|c s IH]; intros i; simpl; [reflexivity|].
  unfold LF. destruct (N.eqb_spec c 10) as [->|Hc]; simpl.
  - rewrite (IH (i + 1)). reflexivity.
  - destruct (N.eqb c CR && startsWithLF s); [apply IH|].
    pose proof (IH (i + 1)) as H.
    destruct (splitLines s); simpl in *; [discriminate|exact H].
Qed.

Lemma lines_offsets_length s :
  length (splitLines s) = length (buildLineOffsets s).
Proof. unfold buildLineOffsets. simpl. apply splitLines_length. Qed.

Local Close Scope Z_scope.

(** *** The label map *)

Lemma eqb_eq a b : JS.eqb a b = true <-> a = b.
Proof. unfold JS.eqb. apply bool_decide_eq_true. Qed.

Lemma eqb_neq a b : JS.eqb a b = false <-> a <> b.
Proof. unfold JS.eqb. apply bool_decide_eq_false. Qed.

Lemma eqb_refl a : JS.eqb a a = true.
Proof. apply eqb_eq. reflexivity. Qed.

Lemma map_has_get m k : map_has m k = true <-> map_get m k <> None.
Proof. unfold map_has. destruct (map_get m k); split; congruence. Qed.

Lemma map_has_false m k : map_has m k = false <-> map_get m k = None.
Proof. unfold map_has. destruct (map_get m k); split; congruence. Qed.

Lemma map_get_set_eq m k v : map_get (map_set m k v) k = Some v.
Proof.
  induction m as [|[k' v'] m IH]; simpl.
  - rewrite eqb_refl. reflexivity.
  - destruct (JS.eqb k k') eqn:E; simpl; rewrite ?eqb_refl, ?E; auto.
Qed.

Lemma map_get_set_ne m k k' v :
  k <> k' -> map_get (map_set m k v) k' = map_get m k'.
Proof.
  intros Hne. induction m as [|[k0 v0] m IH]; simpl.
  - assert (JS.eqb k' k = false) as -> by (apply eqb_neq; congruence). reflexivity.
  - destruct (JS.eqb k k0) eqn:E; simpl.
    + apply eqb_eq in E. subst k0.
      assert (JS.eqb k' k = false) as -> by (apply eqb_neq; congruence). reflexivity.
    + destruct (JS.eqb k' k0); auto.
Qed.

(** A new key goes to the end. *)
Lemma map_set_new m k v : map_get m k = None -> map_set m k v = m ++ [(k, v)].
Proof.
  induction m as [|[k' v'] m IH]; simpl; intros H; [reflexivity|].
  destruct (JS.eqb k k'); [discriminate|]. rewrite IH; auto.
Qed.

(** An existing key keeps its place. *)
Lemma map_set_existing m k d v :
  map_get m k = Some d ->
  exists l1 l2, m = l1 ++ (k, d) :: l2 /\ map_set m k v = l1 ++ (k, v) :: l2.
Proof.
  induction m as [|[k' v'] m IH]; simpl; intros H; [discriminate|].
  destruct (JS.eqb k k') eqn:E.
  - apply eqb_eq in E. subst k'. inversion H; subst.
    exists [], m. split; reflexivity.
  - destruct (IH H) as (l1 & l2 & -> & ->).
    exists ((k', v') :: l1), l2. split; reflexivity.
Qed.

Lemma map_get_In m k d : map_get m k = Some d -> In (k, d) m.
Proof.
  induction m as [|[k' v'] m IH]; simpl; intros H; [discriminate|].
  destruct (JS.eqb k k') eqn:E.
  - apply eqb_eq in E. subst. inversion H; subst. left; reflexivity.
  - right. auto.
Qed.

(** *** What every scan preserves *)

Section Closure.

Variable source : jsstring.
Variable lineOffsets : list Z.
Variable lines : list jsstring.
Variable P : ParseState -> Prop.

Hypothesis P_addLabel : forall st lbl k a b t,
  P st -> P (addLabel lineOffsets st lbl k a b t).
Hypothesis P_patch : forall st lbl l,
  P st -> P (patchFallbackTitle st lbl l).

Lemma scanEquations_closed : forall fuel i st,
  P st -> P (scanEquations source lineOffsets lines fuel i st).
Proof.
  induction fuel as [|fuel IH]; intros i st H; simpl; [exact H|].
  destruct (lines !! i) as [line|]; [|exact H].
  destruct (negb (isMathDelimiter line)); [apply IH; exact H|].
  destruct (findClosing _ _); [|apply IH; exact H].
  apply IH. unfold equationBlock.
  destruct (lines !! _); [|exact H].
  destruct (matchEquationLabel _); [|exact H].
  apply P_addLabel; exact H.
Qed.

Lemma scanFigures_closed : forall fuel lastIndex st,
  P st -> P (scanFigures source lineOffsets fuel lastIndex st).
Proof.
  induction fuel as [|fuel IH]; intros lastIndex st H; simpl; [exact H|].
  destruct (regexExec _ _ _) as [[[ix lbl] li]|]; [|exact H].
  apply IH. apply P_addLabel; exact H.
Qed.

Lemma theoremBlock_closed i lbl st :
  P st -> P (fst (theoremBlock source lineOffsets lines i lbl st)).
Proof.
  intros H. unfold theoremBlock. simpl.
  destruct (_ && _); [apply P_patch|]; apply P_addLabel; exact H.
Qed.

Lemma scanTheorems_closed : forall fuel i st,
  P st -> P (scanTheorems source lineOffsets lines fuel i st).
Proof.
  induction fuel as [|fuel IH]; intros i st H; cbn [scanTheorems]; [exact H|].
  destruct (lines !! i); [|exact H].
  destruct (matchTheoremStart _) as [lbl|]; [|apply IH; exact H].
  pose proof (theoremBlock_closed i lbl st H) as Hb.
  destruct (theoremBlock _ _ _ _ _ _) as [st' cursor]. simpl in Hb.
  apply IH; exact Hb.
Qed.

End Closure.

(** An invariant of [addLabel] and of the title patch that holds at the start
    holds of the state [parseCrossrefIndex] ends in. *)
Lemma parseState_closed (source : jsstring) (P : ParseState -> Prop) :
  P initialState ->
  (forall st lbl k a b t,
     P st -> P (addLabel (buildLineOffsets source) st lbl k a b t)) ->
  (forall st lbl l, P st -> P (patchFallbackTitle st lbl l)) ->
  P (parseState source).
Proof.
  intros H0 Hadd Hpatch. unfold parseState.
  apply scanTheorems_closed; auto.
  apply scanFigures_closed; auto.
  apply scanEquations_closed; auto.
Qed.

(** *** Line spans *)

Lemma In_map_set m k v k' d :
  In (k', d) (map_set m k v) -> In (k', d) m \/ (k', d) = (k, v).
Proof.
  induction m as [|[k0 v0] m IH]; simpl.
  - intros [H|[]]. right. congruence.
  - destruct (JS.eqb k k0); simpl.
    + intros [H|H]; [right; congruence|left; right; exact H].
    + intros [H|H]; [left; left; exact H|].
      destruct (IH H) as [?|?]; [left; right; assumption|right; assumption].
Qed.

Lemma allSpansOk_addLabel offs st lbl k a b t :
  increasing offs -> (Z.of_nat (length offs) <= 1073741824)%Z ->
  allSpansOk st -> allSpansOk (addLabel offs st lbl k a b t).
Proof.
  intros Hinc Hlen H. unfold addLabel.
  destruct (map_has (st_labels st) lbl); [exact H|].
  intros k' d Hin. simpl in Hin.
  apply In_map_set in Hin. destruct Hin as [Hin|Heq].
  - destruct k; simpl in Hin; eapply H; eauto.
  - inversion Heq; subst. unfold spanOk. simpl. split.
    + apply offsetToLine_nonneg.
    + apply offsetToLine_mono; auto. lia.
Qed.

Lemma allSpansOk_patch st lbl l :
  allSpansOk st -> allSpansOk (patchFallbackTitle st lbl l).
Proof.
  intros H. unfold patchFallbackTitle.
  destruct (_ && _); [|exact H].
  destruct (map_get (st_labels st) lbl) as [d|] eqn:Hd; [|exact H].
  destruct (isEmpty (title d)); [|exact H].
  intros k' d' Hin. simpl in Hin.
  apply In_map_set in Hin. destruct Hin as [Hin|Heq].
  - eapply H; eauto.
  - inversion Heq; subst. apply map_get_In in Hd. apply H in Hd. exact Hd.
Qed.

Lemma offsets_short source :
  (Z.of_nat (length source) < 1073741824)%Z ->
  (Z.of_nat (length (buildLineOffsets source)) <= 1073741824)%Z.
Proof. intros H. pose proof (buildLineOffsets_length_le source). lia. Qed.

Lemma parseState_spans source :
  (Z.of_nat (length source) < 1073741824)%Z -> allSpansOk (parseState source).
Proof.
  intros Hlen. apply parseState_closed.
  - intros k d [].
  - intros. apply allSpansOk_addLabel; auto using buildLineOffsets_increasing, offsets_short.
  - intros. apply allSpansOk_patch; auto.
Qed.

(** *** Numbers and ranks *)

Lemma filter_app_length {A} (f : A -> bool) l1 l2 :
  length (List.filter f (l1 ++ l2)) = length (List.filter f l1) + length (List.filter f l2).
Proof. rewrite List.filter_app, length_app. reflexivity. Qed.

Lemma filter_length_cons_ext {A} (f : A -> bool) x y l :
  f x = f y ->
  length (List.filter f (x :: l)) = length (List.filter f (y :: l)).
Proof. intros H. simpl. rewrite H. destruct (f y); reflexivity. Qed.

Lemma ranked_initial : ranked initialState.
Proof.
  split; simpl; try reflexivity.
  intros i d H. rewrite lookup_nil in H. discriminate.
Qed.

Lemma rank_snoc ds d0 i d :
  (ds ++ [d0]) !! i = Some d ->
  (forall j e, ds !! j = Some e -> number e = rankBefore (take j ds) e) ->
  number d0 = rankBefore ds d0 ->
  number d = rankBefore (take i (ds ++ [d0])) d.
Proof.
  intros Hi Hold Hnew.
  destruct (decide (i < length ds)) as [Hlt|Hge].
  - rewrite lookup_app_l in Hi by exact Hlt.
    rewrite take_app_le by lia. apply Hold. exact Hi.
  - rewrite lookup_app_r in Hi by lia.
    destruct (i - length ds) as [|n] eqn:E; simpl in Hi.
    + inversion Hi; subst d0.
      assert (i = length ds) as -> by lia.
      rewrite take_app_length. exact Hnew.
    + rewrite lookup_nil in Hi. discriminate.
Qed.

Lemma descriptors_snoc m k v : descriptors (m ++ [(k, v)]) = descriptors m ++ [v].
Proof. unfold descriptors. rewrite List.map_app. reflexivity. Qed.

Lemma ranked_addLabel offs st lbl k a b t :
  ranked st -> ranked (addLabel offs st lbl k a b t).
Proof.
  intros [Heq Hfig Hthm Hnum]. unfold addLabel.
  destruct (map_has (st_labels st) lbl) eqn:Hhas; [split; assumption|].
  apply map_has_false in Hhas.
  destruct k; split; simpl; rewrite (map_set_new _ _ _ Hhas), descriptors_snoc;
    unfold countKind, countCategory in *;
    try (rewrite filter_app_length; simpl; lia);
    try (intros pre; rewrite filter_app_length; simpl).
  - rewrite Hthm. lia.
  - intros i d Hi. eapply rank_snoc; eauto.
    unfold rankBefore, sameCounter. simpl. rewrite Heq. reflexivity.
  - rewrite Hthm. lia.
  - intros i d Hi. eapply rank_snoc; eauto.
    unfold rankBefore, sameCounter. simpl. rewrite Hfig. reflexivity.
  - destruct (decide (beforeDash lbl = pre)) as [->|Hne].
    + rewrite lookup_insert_eq. simpl. rewrite eqb_refl. simpl.
      rewrite Hthm. lia.
    + rewrite lookup_insert_ne by exact Hne.
      assert (JS.eqb (beforeDash lbl) pre = false) as -> by (apply eqb_neq; exact Hne).
      simpl. rewrite Hthm. lia.
  - intros i d Hi. eapply rank_snoc; eauto.
    unfold rankBefore, sameCounter. simpl.
    rewrite lookup_insert_eq. simpl. rewrite Hthm. reflexivity.
Qed.

Lemma sameCounter_setTitle_l d t e : sameCounter (setTitle d t) e = sameCounter d e.
Proof. reflexivity. Qed.

Lemma sameCounter_setTitle_r d t e : sameCounter e (setTitle d t) = sameCounter e d.
Proof. reflexivity. Qed.

Lemma ranked_patch st lbl l : ranked st -> ranked (patchFallbackTitle st lbl l).
Proof.
  intros H. unfold patchFallbackTitle.
  destruct (_ && _); [|exact H].
  destruct (map_get (st_labels st) lbl) as [d|] eqn:Hd; [|exact H].
  destruct (isEmpty (title d)); [|exact H].
  destruct H as [Heq Hfig Hthm Hnum].
  set (t := trim _).
  destruct (map_set_existing _ _ _ (setTitle d t) Hd) as (l1 & l2 & Em & Es).
  assert (Hds : descriptors (st_labels st) = descriptors l1 ++ d :: descriptors l2).
  { rewrite Em. unfold descriptors. rewrite List.map_app. reflexivity. }
  assert (Hds' : descriptors (map_set (st_labels st) lbl (setTitle d t))
                 = descriptors l1 ++ setTitle d t :: descriptors l2).
  { rewrite Es. unfold descriptors. rewrite List.map_app. reflexivity. }
  split; simpl; rewrite Hds'; rewrite Hds in *; unfold countKind, countCategory in *.
  - rewrite Heq, !filter_app_length. f_equal. apply filter_length_cons_ext. reflexivity.
  - rewrite Hfig, !filter_app_length. f_equal. apply filter_length_cons_ext. reflexivity.
  - intros pre. rewrite Hthm, !filter_app_length. f_equal.
    apply filter_length_cons_ext. reflexivity.
  - intros i e Hi.
    set (n := length (descriptors l1)) in *.
    destruct (decide (i < n)) as [Hlt|Hge].
    + rewrite lookup_app_l in Hi by exact Hlt.
      rewrite take_app_le by (fold n; lia).
      specialize (Hnum i e). rewrite lookup_app_l in Hnum by exact Hlt.
      rewrite take_app_le in Hnum by (fold n; lia). auto.
    + rewrite lookup_app_r in Hi by (fold n; lia). fold n in Hi.
      rewrite take_app_ge by (fold n; lia). fold n.
      destruct (i - n) as [|m] eqn:E.
      * simpl in Hi. inversion Hi; subst e. simpl. rewrite app_nil_r.
        specialize (Hnum i d). rewrite lookup_app_r in Hnum by (fold n; lia).
        fold n in Hnum. rewrite E in Hnum. specialize (Hnum eq_refl).
        rewrite take_app_ge in Hnum by (fold n; lia). fold n in Hnum.
        rewrite E in Hnum. simpl in Hnum. rewrite app_nil_r in Hnum. exact Hnum.
      * simpl in Hi.
        specialize (Hnum i e). rewrite lookup_app_r in Hnum by (fold n; lia).
        fold n in Hnum. rewrite E in Hnum. specialize (Hnum Hi).
        rewrite take_app_ge in Hnum by (fold n; lia). fold n in Hnum.
        rewrite E in Hnum. simpl in Hnum. rewrite Hnum.
        unfold rankBefore. rewrite !filter_app_length.
        do 2 f_equal. cbn [take].
        apply filter_length_cons_ext. reflexivity.
Qed.

Lemma parseState_ranked source : ranked (parseState source).
Proof.
  apply parseState_closed.
  - apply ranked_initial.
  - intros. apply ranked_addLabel; assumption.
  - intros. apply ranked_patch; assumption.
Qed.

(** *** Block markers *)

Lemma span_all p s : forallb p s = true -> span p s = (s, []).
Proof.
  induction s as [|c s IH]; simpl; [reflexivity|].
  intros H. apply andb_true_iff in H as [Hc Hs]. rewrite Hc, (IH Hs). reflexivity.
Qed.

(** A close marker is not an open marker. *)
Lemma end_not_start s : testTheoremEnd s = true -> matchTheoremStart s = None.
Proof.
  unfold testTheoremEnd, matchTheoremStart.
  destruct (stripPrefix (lit ":::") s) as [rest|]; [|reflexivity].
  intros H. unfold dropWhile. rewrite (span_all _ _ H). reflexivity.
Qed.

Lemma testTheoremStart_true s :
  testTheoremStart s = true <-> exists lbl, matchTheoremStart s = Some lbl.
Proof.
  unfold testTheoremStart. destruct (matchTheoremStart s) as [lbl|]; split.
  - eauto.
  - reflexivity.
  - discriminate.
  - intros [? ?]. discriminate.
Qed.

Section TheoremScan.

Variable source : jsstring.
Variable lineOffsets : list Z.
Variable lines : list jsstring.

(** The inner loop stops at the first open marker at the latest, and the
    outer loop goes on after the line the block was opened on. *)
Lemma scanBlock_stops : forall rest i cursor ttl bel n l,
  rest !! n = Some l -> testTheoremStart (trim l) = true -> 1 <= cursor ->
  let b := scanBlock i cursor rest ttl bel in
  cursor - 1 <= bs_cursor b /\ S (bs_cursor b) <= cursor + n.
Proof.
  induction rest as [|current rest IH]; intros i cursor ttl bel n l Hn Hs Hc; simpl.
  - rewrite lookup_nil in Hn. discriminate.
  - destruct (testTheoremEnd (trim current)) eqn:He; simpl.
    + destruct n as [|n]; [|lia]. simpl in Hn. inversion Hn; subst l.
      apply end_not_start in He. unfold testTheoremStart in Hs. rewrite He in Hs. discriminate.
    + destruct (testTheoremStart (trim current)) eqn:Hst; simpl; [lia|].
      destruct n as [|n]; simpl in Hn.
      * inversion Hn; subst l. congruence.
      * specialize (IH i (S cursor) (if isEmpty ttl then match matchHeading current with Some g => trim g | None => ttl end else ttl) cursor n l Hn Hs).
        cbv zeta in IH. lia.
Qed.

(** The block opened on line [i] with plain lines up to the open marker on
    line [cursor + n]: closed by that marker. *)
Lemma scanBlock_implicit : forall rest i cursor ttl bel n l,
  rest !! n = Some l -> testTheoremStart (trim l) = true ->
  (forall j l', j < n -> rest !! j = Some l' -> plainLine l') ->
  1 <= cursor ->
  let b := scanBlock i cursor rest ttl bel in
  bs_cursor b = cursor + n - 1 /\
  bs_blockEndLine b = Nat.max i (cursor + n - 1) /\
  implicitClosedByNextStart b = true.
Proof.
  induction rest as [|current rest IH]; intros i cursor ttl bel n l Hn Hs Hplain Hc; simpl.
  - rewrite lookup_nil in Hn. discriminate.
  - destruct n as [|n]; simpl in Hn.
    + inversion Hn; subst l.
      assert (He : testTheoremEnd (trim current) = false).
      { destruct (testTheoremEnd (trim current)) eqn:He; [|reflexivity].
        apply end_not_start in He. unfold testTheoremStart in Hs.
        rewrite He in Hs. discriminate. }
      rewrite He, Hs. simpl. rewrite Nat.add_0_r. auto.
    + destruct (Hplain 0 current) as [He Hst]; [lia|reflexivity|].
      rewrite He, Hst.
      specialize (IH i (S cursor) (if isEmpty ttl then match matchHeading current with Some g => trim g | None => ttl end else ttl) cursor n l Hn Hs).
      cbv zeta in IH.
      destruct IH as (H1 & H2 & H3).
      * intros j l' Hj Hl'. apply (Hplain (S j)); [lia|exact Hl'].
      * lia.
      * replace (cursor + S n - 1) with (S cursor + n - 1) by lia. auto.
Qed.

(** The block opened on line [i] with nothing but plain lines after it:
    the loop runs to the end of the lines. *)
Lemma scanBlock_open : forall rest i cursor ttl bel,
  (forall j l', rest !! j = Some l' -> plainLine l') ->
  let b := scanBlock i cursor rest ttl bel in
  bs_cursor b = cursor + length rest /\
  bs_blockEndLine b = match rest with [] => bel | _ :: _ => cursor + length rest - 1 end /\
  implicitClosedByNextStart b = false.
Proof.
  induction rest as [|current rest IH]; intros i cursor ttl bel Hplain; simpl.
  - rewrite Nat.add_0_r. auto.
  - destruct (Hplain 0 current) as [He Hst]; [reflexivity|].
    rewrite He, Hst.
    specialize (IH i (S cursor) (if isEmpty ttl then match matchHeading current with Some g => trim g | None => ttl end else ttl) cursor).
    cbv zeta in IH. destruct IH as (H1 & H2 & H3).
    + intros j l' Hl'. apply (Hplain (S j)). exact Hl'.
    + rewrite H1, H2, H3. repeat split; try lia.
      destruct rest; simpl; lia.
Qed.

(** *** Keys *)

Lemma addLabel_get_other st lbl k a b t key :
  key <> lbl ->
  map_get (st_labels (addLabel lineOffsets st lbl k a b t)) key
  = map_get (st_labels st) key.
Proof.
  intros Hne. unfold addLabel.
  destruct (map_has (st_labels st) lbl); [reflexivity|].
  simpl. destruct k; simpl; apply map_get_set_ne; congruence.
Qed.

Lemma addLabel_get_kept st lbl k a b t key d :
  map_get (st_labels st) key = Some d ->
  map_get (st_labels (addLabel lineOffsets st lbl k a b t)) key = Some d.
Proof.
  intros H. destruct (decide (key = lbl)) as [->|Hne].
  - unfold addLabel. assert (map_has (st_labels st) lbl = true) as ->; [|exact H].
    apply map_has_get. congruence.
  - rewrite addLabel_get_other; auto.
Qed.

Lemma addLabel_get_new st lbl k a b t :
  map_get (st_labels st) lbl = None ->
  exists num,
    map_get (st_labels (addLabel lineOffsets st lbl k a b t)) lbl
    = Some {| label := lbl; kind := k; prefix := beforeDash lbl; number := num;
              title := t;
              lineStart := offsetToLine lineOffsets a;
              lineEnd := offsetToLine lineOffsets (Z.max a (b - 1)) |}.
Proof.
  intros H. unfold addLabel.
  assert (map_has (st_labels st) lbl = false) as -> by (apply map_has_false; exact H).
  destruct k; simpl; rewrite map_get_set_eq; eauto.
Qed.

Lemma addLabel_has st lbl k a b t :
  map_get (st_labels (addLabel lineOffsets st lbl k a b t)) lbl <> None.
Proof.
  destruct (map_get (st_labels st) lbl) as [d|] eqn:H.
  - rewrite (addLabel_get_kept _ _ _ _ _ _ _ _ H). discriminate.
  - destruct (addLabel_get_new st lbl k a b t H) as [num ->]. discriminate.
Qed.

(** The title patch changes nothing but titles. *)
Lemma patch_get st lbl l key :
  map_get (st_labels (patchFallbackTitle st lbl l)) key = map_get (st_labels st) key
  \/ exists d t,
       map_get (st_labels st) key = Some d /\
       map_get (st_labels (patchFallbackTitle st lbl l)) key = Some (setTitle d t).
Proof.
  unfold patchFallbackTitle.
  destruct (_ && _); [|left; reflexivity].
  destruct (map_get (st_labels st) lbl) as [d|] eqn:Hd; [|left; reflexivity].
  destruct (isEmpty (title d)); [|left; reflexivity].
  simpl. destruct (decide (lbl = key)) as [<-|Hne].
  - right. exists d. eexists. split; [exact Hd|]. apply map_get_set_eq.
  - left. apply map_get_set_ne. exact Hne.
Qed.

Lemma patch_get_None st lbl l key :
  map_get (st_labels (patchFallbackTitle st lbl l)) key = None
  <-> map_get (st_labels st) key = None.
Proof.
  destruct (patch_get st lbl l key) as [->|(d & t & H1 & H2)]; [reflexivity|].
  rewrite H1, H2. split; discriminate.
Qed.

End TheoremScan.

(** *** Which labels each scan can register *)

Lemma beforeDash_app p rest :
  noDash p = true -> beforeDash (p ++ lit "-" ++ rest) = p.
Proof.
  unfold beforeDash. induction p as [|c p IH]; simpl; intros H; [reflexivity|].
  apply andb_true_iff in H as [Hc Hp]. rewrite Hc.
  specialize (IH Hp). destruct (span _ (p ++ _)) as [x y]. simpl in *. congruence.
Qed.

Lemma matchAlternatives_In alts s p rest :
  matchAlternatives alts s = Some (p, rest) -> In p alts.
Proof.
  induction alts as [|a alts IH]; simpl; [discriminate|].
  destruct (stripPrefix a s); intros H.
  - inversion H; subst. left; reflexivity.
  - right. auto.
Qed.

Lemma matchLabelWith_beforeDash alts s lbl rest :
  forallb noDash alts = true ->
  matchLabelWith alts s = Some (lbl, rest) -> In (beforeDash lbl) alts.
Proof.
  intros Hnd. unfold matchLabelWith.
  destruct (matchAlternatives alts s) as [[p r]|] eqn:Ha; [|discriminate].
  destruct (stripPrefix (lit "-") r) as [r'|]; [|discriminate].
  destruct (span isLabelChar r') as [name r''].
  destruct (isEmpty name); [discriminate|].
  intros [= <- <-].
  apply matchAlternatives_In in Ha.
  replace (beforeDash _) with p; [exact Ha|].
  symmetry. apply (beforeDash_app p name).
  rewrite forallb_forall in Hnd. apply Hnd. exact Ha.
Qed.

Lemma theoremLabel_prefix s lbl :
  matchTheoremStart s = Some lbl -> In (beforeDash lbl) THEOREM_PREFIXES.
Proof.
  unfold matchTheoremStart.
  destruct (stripPrefix (lit ":::") s) as [r|]; [|discriminate].
  destruct (stripPrefix (lit "{#") _) as [r'|]; [|discriminate].
  destruct (matchLabelWith THEOREM_PREFIXES r') as [[l r'']|] eqn:Hm; [|discriminate].
  destruct (stripPrefix (lit "}") r'') as [tail|]; [|discriminate].
  destruct (forallb isSpace tail); [|discriminate].
  intros [= <-].
  eapply matchLabelWith_beforeDash; [|exact Hm]. reflexivity.
Qed.

Lemma equationLabel_prefix s lbl :
  matchEquationLabel s = Some lbl -> beforeDash lbl = lit "eq".
Proof.
  unfold matchEquationLabel.
  destruct (stripPrefix (lit "{#") s) as [r|]; [|discriminate].
  destruct (matchLabelWith [lit "eq"] r) as [[l r']|] eqn:Hm; [|discriminate].
  destruct (stripPrefix (lit "}") r') as [[|]|]; try discriminate.
  intros [= <-].
  apply matchLabelWith_beforeDash in Hm; [|reflexivity].
  destruct Hm as [<-|[]]. reflexivity.
Qed.

Lemma figureLabel_prefix s lbl rest :
  matchFigureAt s = Some (lbl, rest) -> beforeDash lbl = lit "fig".
Proof.
  unfold matchFigureAt.
  destruct (stripPrefix (lit "![") s) as [s1|]; [|discriminate].
  destruct (stripPrefix (lit "](") _) as [s2|]; [|discriminate].
  destruct (span _ s2) as [url s3].
  destruct (isEmpty url); [discriminate|].
  destruct (stripPrefix (lit ")") s3) as [s4|]; [|discriminate].
  destruct (stripPrefix (lit "{#") _) as [s5|]; [|discriminate].
  destruct (matchLabelWith [lit "fig"] s5) as [[l s6]|] eqn:Hm; [|discriminate].
  destruct (stripPrefix (lit "}") s6) as [s7|]; [|discriminate].
  intros [= <- <-].
  apply matchLabelWith_beforeDash in Hm; [|reflexivity].
  destruct Hm as [<-|[]]. reflexivity.
Qed.

Lemma onlyEqFig_addLabel offs st lbl k a b t :
  beforeDash lbl = lit "eq" \/ beforeDash lbl = lit "fig" ->
  onlyEqFig st -> onlyEqFig (addLabel offs st lbl k a b t).
Proof.
  intros Hl H key Hkey.
  destruct (decide (key = lbl)) as [->|Hne]; [exact Hl|].
  rewrite addLabel_get_other in Hkey by exact Hne. auto.
Qed.

Lemma execFrom_match {A} (m : jsstring -> option (A * jsstring)) : forall s pos ix a li,
  execFrom m pos s = Some (ix, a, li) ->
  exists s' rest, m s' = Some (a, rest).
Proof.
  induction s as [|c s IH]; intros pos ix a li; simpl.
  - destruct (m []) as [[a' rest]|] eqn:E; [|discriminate].
    intros H. inversion H; subst. eauto.
  - destruct (m (c :: s)) as [[a' rest]|] eqn:E.
    + intros H. inversion H; subst. eauto.
    + apply IH.
Qed.

Lemma scanEquations_onlyEqFig source offs lines : forall fuel i st,
  onlyEqFig st -> onlyEqFig (scanEquations source offs lines fuel i st).
Proof.
  induction fuel as [|fuel IH]; intros i st H; simpl; [exact H|].
  destruct (lines !! i) as [line|]; [|exact H].
  destruct (negb (isMathDelimiter line)); [apply IH; exact H|].
  destruct (findClosing _ _); [|apply IH; exact H].
  apply IH. unfold equationBlock.
  destruct (lines !! _); [|exact H].
  destruct (matchEquationLabel _) eqn:E; [|exact H].
  apply onlyEqFig_addLabel; [|exact H].
  left. eapply equationLabel_prefix; eauto.
Qed.

Lemma scanFigures_onlyEqFig source offs : forall fuel lastIndex st,
  onlyEqFig st -> onlyEqFig (scanFigures source offs fuel lastIndex st).
Proof.
  induction fuel as [|fuel IH]; intros lastIndex st H; simpl; [exact H|].
  destruct (regexExec _ _ _) as [[[ix lbl] li]|] eqn:E; [|exact H].
  apply IH. apply onlyEqFig_addLabel; [|exact H].
  right. unfold regexExec in E. destruct (_ <? _); [discriminate|].
  apply execFrom_match in E. destruct E as (s' & rest & E).
  eapply figureLabel_prefix; eauto.
Qed.

Lemma onlyEqFig_not_theorem st s lbl :
  onlyEqFig st -> matchTheoremStart s = Some lbl ->
  map_get (st_labels st) lbl = None.
Proof.
  intros H Hs. destruct (map_get (st_labels st) lbl) eqn:E; [|reflexivity].
  exfalso. apply theoremLabel_prefix in Hs.
  destruct (H lbl) as [He|He]; [congruence| |]; rewrite He in Hs;
    unfold THEOREM_PREFIXES in Hs; simpl in Hs;
    repeat (destruct Hs as [Hs|Hs]; [discriminate Hs|]); exact Hs.
Qed.

(** *** The third loop reaches every open marker *)

Lemma sameButTitle_refl d : sameButTitle d d.
Proof. repeat split. Qed.

Lemma sameButTitle_trans d1 d2 d3 :
  sameButTitle d1 d2 -> sameButTitle d2 d3 -> sameButTitle d1 d3.
Proof. unfold sameButTitle. intuition congruence. Qed.

Lemma keeps_addLabel offs key d st lbl k a b t :
  keeps key d st -> keeps key d (addLabel offs st lbl k a b t).
Proof.
  intros (d' & H & Hs). exists d'. split; [|exact Hs].
  apply addLabel_get_kept. exact H.
Qed.

Lemma keeps_patch key d st lbl l :
  keeps key d st -> keeps key d (patchFallbackTitle st lbl l).
Proof.
  intros (d' & H & Hs).
  destruct (patch_get st lbl l key) as [E|(d0 & t & H1 & H2)].
  - exists d'. rewrite E. auto.
  - rewrite H in H1. inversion H1; subst d0.
    exists (setTitle d' t). split; [exact H2|].
    eapply sameButTitle_trans; [exact Hs|]. repeat split.
Qed.

Section Visit.

Variable source : jsstring.
Variable lineOffsets : list Z.
Variable lines : list jsstring.

Lemma theoremBlock_keys i lbl st key :
  map_get (st_labels (fst (theoremBlock source lineOffsets lines i lbl st))) key <> None ->
  map_get (st_labels st) key <> None \/ key = lbl.
Proof.
  unfold theoremBlock. cbn [fst]. intros H.
  destruct (decide (key = lbl)) as [->|Hne]; [right; reflexivity|left].
  destruct (_ && _).
  - rewrite patch_get_None in H. rewrite addLabel_get_other in H by exact Hne. exact H.
  - rewrite addLabel_get_other in H by exact Hne. exact H.
Qed.

Lemma theoremBlock_cursor i lbl st n l :
  lines !! n = Some l -> testTheoremStart (trim l) = true -> i < n ->
  let c := snd (theoremBlock source lineOffsets lines i lbl st) in
  i <= c /\ S c <= n.
Proof.
  intros Hn Hs Hin. unfold theoremBlock. cbn [snd].
  pose proof (scanBlock_stops (drop (S i) lines) i (S i) [] i (n - S i) l) as H.
  rewrite lookup_drop in H. replace (S i + (n - S i)) with n in H by lia.
  specialize (H Hn Hs). cbv zeta in H. lia.
Qed.

Lemma scanTheorems_visit : forall fuel a st i l lbl,
  lines !! i = Some l -> matchTheoremStart (trim l) = Some lbl ->
  a <= i -> length lines - a <= fuel ->
  exists fuel' st',
    scanTheorems source lineOffsets lines fuel a st
    = scanTheorems source lineOffsets lines fuel' i st' /\
    length lines - i <= fuel' /\
    (forall key, map_get (st_labels st') key <> None ->
       map_get (st_labels st) key <> None \/ openedBetween lines a i key).
Proof.
  induction fuel as [|fuel IH]; intros a st i l lbl Hi Hs Hai Hfuel.
  - apply lookup_lt_Some in Hi. lia.
  - destruct (decide (a = i)) as [->|Hne].
    + exists (S fuel), st. split; [reflexivity|]. split; [exact Hfuel|]. auto.
    + assert (Ha : a < length lines) by (apply lookup_lt_Some in Hi; lia).
      destruct (lookup_lt_is_Some_2 lines a Ha) as [la Hla].
      cbn [scanTheorems]. rewrite Hla.
      destruct (matchTheoremStart (trim la)) as [lbla|] eqn:Hma.
      * pose proof (theoremBlock_cursor a lbla st i l Hi) as Hc.
        pose proof (theoremBlock_keys a lbla st) as Hk.
        destruct (theoremBlock source lineOffsets lines a lbla st) as [st2 c].
        cbn [fst snd] in *.
        destruct Hc as [Hc1 Hc2]; [apply testTheoremStart_true; eauto|lia|].
        destruct (IH (S c) st2 i l lbl Hi Hs) as (fuel' & st' & E & Hf & Hkeys); [lia|lia|].
        exists fuel', st'. split; [exact E|]. split; [exact Hf|].
        intros key Hkey. destruct (Hkeys key Hkey) as [H2|(j & lj & Hj & Hlj & Hmj)].
        -- destruct (Hk key H2) as [? | ->]; [left; assumption|].
           right. exists a, la. split; [lia|]. auto.
        -- right. exists j, lj. split; [lia|]. auto.
      * destruct (IH (S a) st i l lbl Hi Hs) as (fuel' & st' & E & Hf & Hkeys); [lia|lia|].
        exists fuel', st'. split; [exact E|]. split; [exact Hf|].
        intros key Hkey. destruct (Hkeys key Hkey) as [H2|(j & lj & Hj & Hlj & Hmj)].
        -- left; assumption.
        -- right. exists j, lj. split; [lia|]. auto.
Qed.

(** What the block opened on line [i] registers when its label is new. *)
Lemma theoremBlock_registers i lbl st :
  map_get (st_labels st) lbl = None ->
  let b := scanBlock i (S i) (drop (S i) lines) [] i in
  exists d,
    map_get (st_labels (fst (theoremBlock source lineOffsets lines i lbl st))) lbl = Some d /\
    kind d = theorem /\
    lineStart d = offsetToLine lineOffsets (offsetOrZero lineOffsets i) /\
    lineEnd d = offsetToLine lineOffsets
                  (Z.max (offsetOrZero lineOffsets i)
                         (offsetOrEnd source lineOffsets (S (bs_blockEndLine b)) - 1)).
Proof.
  intros Hnew. cbv zeta. unfold theoremBlock. cbn [fst].
  set (b := scanBlock i (S i) (drop (S i) lines) [] i).
  destruct (addLabel_get_new lineOffsets st lbl theorem (offsetOrZero lineOffsets i)
              (offsetOrEnd source lineOffsets (S (bs_blockEndLine b))) (bs_title b) Hnew)
    as [num Hget].
  destruct (_ && _).
  - destruct (patch_get (addLabel lineOffsets st lbl theorem (offsetOrZero lineOffsets i)
                (offsetOrEnd source lineOffsets (S (bs_blockEndLine b))) (bs_title b))
                lbl (default [] (lines !! S i)) lbl) as [E|(d0 & t & H1 & H2)].
    + rewrite E, Hget. eexists. split; [reflexivity|]. simpl. auto.
    + rewrite Hget in H1. inversion H1; subst d0. rewrite H2.
      eexists. split; [reflexivity|]. simpl. auto.
  - rewrite Hget. eexists. split; [reflexivity|]. simpl. auto.
Qed.

(** Every open marker's label is registered once its block is done. *)
Lemma theoremBlock_has i lbl st :
  map_get (st_labels (fst (theoremBlock source lineOffsets lines i lbl st))) lbl <> None.
Proof.
  unfold theoremBlock. cbn [fst]. destruct (_ && _).
  - rewrite patch_get_None. apply addLabel_has.
  - apply addLabel_has.
Qed.

Lemma scanTheorems_keeps key d : forall fuel i st,
  keeps key d st -> keeps key d (scanTheorems source lineOffsets lines fuel i st).
Proof.
  intros. apply scanTheorems_closed; auto using keeps_addLabel, keeps_patch.
Qed.

(** The state after the third loop, seen from an open marker on line [i]
    whose label no earlier marker carries. *)
Lemma scanTheorems_registers fuel st i l lbl :
  lines !! i = Some l -> matchTheoremStart (trim l) = Some lbl ->
  length lines <= fuel ->
  onlyEqFig st ->
  ~ openedBetween lines 0 i lbl ->
  let b := scanBlock i (S i) (drop (S i) lines) [] i in
  exists d,
    map_get (st_labels (scanTheorems source lineOffsets lines fuel 0 st)) lbl = Some d /\
    kind d = theorem /\
    lineStart d = offsetToLine lineOffsets (offsetOrZero lineOffsets i) /\
    lineEnd d = offsetToLine lineOffsets
                  (Z.max (offsetOrZero lineOffsets i)
                         (offsetOrEnd source lineOffsets (S (bs_blockEndLine b)) - 1)).
Proof.
  intros Hi Hs Hfuel Hst Hfirst. cbv zeta.
  destruct (scanTheorems_visit fuel 0 st i l lbl Hi Hs) as (fuel' & st' & E & Hf & Hkeys);
    [lia|lia|].
  rewrite E.
  assert (Hnew : map_get (st_labels st') lbl = None).
  { destruct (map_get (st_labels st') lbl) eqn:Hg; [|reflexivity].
    exfalso. destruct (Hkeys lbl) as [H|H]; [congruence| |exact (Hfirst H)].
    apply H. eapply onlyEqFig_not_theorem; eauto. }
  destruct fuel' as [|fuel']; [apply lookup_lt_Some in Hi; lia|].
  cbn [scanTheorems]. rewrite Hi, Hs.
  destruct (theoremBlock_registers i lbl st' Hnew) as (d & Hd & Hk & Hls & Hle).
  destruct (theoremBlock source lineOffsets lines i lbl st') as [st2 c]. cbn [fst] in Hd.
  destruct (scanTheorems_keeps lbl d fuel' (S c) st2) as (d' & Hd' & Hsame).
  { exists d. split; [exact Hd|apply sameButTitle_refl]. }
  exists d'. split; [exact Hd'|].
  destruct Hsame as (_ & Hk' & _ & _ & Hls' & Hle').
  rewrite <- Hk', <- Hls', <- Hle'. auto.
Qed.

(** Every open marker's label is in the map after the third loop. *)
Lemma scanTheorems_has fuel st i l lbl :
  lines !! i = Some l -> matchTheoremStart (trim l) = Some lbl ->
  length lines <= fuel ->
  map_get (st_labels (scanTheorems source lineOffsets lines fuel 0 st)) lbl <> None.
Proof.
  intros Hi Hs Hfuel.
  destruct (scanTheorems_visit fuel 0 st i l lbl Hi Hs) as (fuel' & st' & E & Hf & _);
    [lia|lia|].
  rewrite E.
  destruct fuel' as [|fuel']; [apply lookup_lt_Some in Hi; lia|].
  cbn [scanTheorems]. rewrite Hi, Hs.
  pose proof (theoremBlock_has i lbl st') as Hh.
  destruct (theoremBlock source lineOffsets lines i lbl st') as [st2 c]. cbn [fst] in Hh.
  destruct (map_get (st_labels st2) lbl) as [d|] eqn:Hd; [|congruence].
  destruct (scanTheorems_keeps lbl d fuel' (S c) st2) as (d' & Hd' & _).
  { exists d. split; [exact Hd|apply sameButTitle_refl]. }
  rewrite Hd'. discriminate.
Qed.

End Visit.

(** *** Spans of theorem blocks in the index *)

Lemma offsetToLine_line_start source i a :
  (Z.of_nat (length source) < 1073741824)%Z ->
  buildLineOffsets source !! i = Some a ->
  offsetToLine (buildLineOffsets source) a = Z.of_nat i.
Proof.
  intros Hlen Ha.
  apply (offsetToLine_exact _ _ i a);
    auto using buildLineOffsets_increasing, offsets_short.
  - lia.
  - intros b Hb. eapply (buildLineOffsets_increasing source i (S i)); eauto.
Qed.

Lemma offsets_le source i j a b :
  i <= j -> buildLineOffsets source !! i = Some a ->
  buildLineOffsets source !! j = Some b -> (a <= b)%Z.
Proof.
  intros Hij Ha Hb. destruct (decide (i = j)) as [->|Hne].
  - rewrite Ha in Hb. inversion Hb. lia.
  - assert (a < b)%Z; [|lia].
    eapply (buildLineOffsets_increasing source i j); eauto. lia.
Qed.

Lemma map_get_position m key d :
  map_get m key = Some d -> exists n, descriptors m !! n = Some d.
Proof.
  induction m as [|[k' v'] m IH]; simpl; intros H; [discriminate|].
  destruct (JS.eqb key k').
  - inversion H; subst. exists 0. reflexivity.
  - destruct (IH H) as [n Hn]. exists (S n). exact Hn.
Qed.

Lemma parseState_onlyEqFig_before source :
  onlyEqFig
    (scanFigures source (buildLineOffsets source) (length source) 0
       (scanEquations source (buildLineOffsets source) (splitLines source)
          (length (splitLines source)) 0 initialState)).
Proof.
  apply scanFigures_onlyEqFig, scanEquations_onlyEqFig.
  intros key H. simpl in H. congruence.
Qed.

(** A block opened on line [i] by a marker whose label no earlier marker
    carries, in the index. *)
Lemma index_registers source i l lbl :
  (Z.of_nat (length source) < 1073741824)%Z ->
  splitLines source !! i = Some l -> matchTheoremStart (trim l) = Some lbl ->
  ~ openedBetween (splitLines source) 0 i lbl ->
  let b := scanBlock i (S i) (drop (S i) (splitLines source)) [] i in
  exists d a,
    map_get (labels (parseCrossrefIndex source)) lbl = Some d /\
    buildLineOffsets source !! i = Some a /\
    kind d = theorem /\
    lineStart d = Z.of_nat i /\
    lineEnd d = offsetToLine (buildLineOffsets source)
                  (Z.max a (offsetOrEnd source (buildLineOffsets source)
                              (S (bs_blockEndLine b)) - 1)).
Proof.
  intros Hlen Hi Hs Hfirst. cbv zeta.
  unfold parseCrossrefIndex, parseState. cbn [labels].
  destruct (scanTheorems_registers source (buildLineOffsets source) (splitLines source)
              (length (splitLines source)) _ i l lbl Hi Hs (le_n _)
              (parseState_onlyEqFig_before source) Hfirst)
    as (d & Hd & Hk & Hls & Hle).
  assert (Hlt : i < length (buildLineOffsets source)).
  { rewrite <- lines_offsets_length. eapply lookup_lt_Some; eauto. }
  destruct (lookup_lt_is_Some_2 _ _ Hlt) as [a Ha].
  exists d, a. split; [exact Hd|]. split; [exact Ha|]. split; [exact Hk|].
  unfold offsetOrZero in *. rewrite Ha in *. cbn [default] in *.
  split; [|exact Hle].
  rewrite Hls. apply offsetToLine_line_start; auto.
Qed.

Lemma index_has source i l lbl :
  splitLines source !! i = Some l -> matchTheoremStart (trim l) = Some lbl ->
  map_get (labels (parseCrossrefIndex source)) lbl <> None.
Proof.
  intros Hi Hs. unfold parseCrossrefIndex, parseState. cbn [labels].
  eapply scanTheorems_has; eauto.
Qed.

(** The block is closed by the open marker on line [k]. *)
Lemma index_implicit_close source i k l1 l2 lbl1 lbl2 :
  (Z.of_nat (length source) < 1073741824)%Z ->
  splitLines source !! i = Some l1 -> matchTheoremStart (trim l1) = Some lbl1 ->
  splitLines source !! k = Some l2 -> matchTheoremStart (trim l2) = Some lbl2 ->
  i < k ->
  (forall j l, i < j < k -> splitLines source !! j = Some l -> plainLine l) ->
  ~ openedBetween (splitLines source) 0 i lbl1 ->
  exists d,
    map_get (labels (parseCrossrefIndex source)) lbl1 = Some d /\
    kind d = theorem /\
    lineStart d = Z.of_nat i /\ lineEnd d = (Z.of_nat k - 1)%Z.
Proof.
  intros Hlen Hi Hs1 Hk Hs2 Hik Hplain Hfirst.
  destruct (index_registers source i l1 lbl1 Hlen Hi Hs1 Hfirst)
    as (d & a & Hd & Ha & Hkind & Hls & Hle).
  exists d. split; [exact Hd|]. split; [exact Hkind|]. split; [exact Hls|].
  rewrite Hle. clear Hle.
  destruct (scanBlock_implicit (drop (S i) (splitLines source)) i (S i) [] i (k - S i) l2)
    as (_ & Hbel & _).
  - rewrite lookup_drop. replace (S i + (k - S i)) with k by lia. exact Hk.
  - apply testTheoremStart_true; eauto.
  - intros j l' Hj Hl'. rewrite lookup_drop in Hl'. eapply Hplain; [|exact Hl']. lia.
  - lia.
  - rewrite Hbel. replace (S (Nat.max i (S i + (k - S i) - 1))) with k by lia.
    assert (Hklt : k < length (buildLineOffsets source)).
    { rewrite <- lines_offsets_length. eapply lookup_lt_Some; eauto. }
    destruct (lookup_lt_is_Some_2 _ _ Hklt) as [bk Hbk].
    assert (Hk1 : k - 1 < length (buildLineOffsets source)) by lia.
    destruct (lookup_lt_is_Some_2 _ _ Hk1) as [c Hc].
    unfold offsetOrEnd.
    assert ((k <? length (buildLineOffsets source)) = true) as ->
      by (apply Nat.ltb_lt; exact Hklt).
    rewrite Hbk. change (default 0%Z (Some bk)) with bk.
    assert (a <= c)%Z by (eapply (offsets_le source i (k - 1)); eauto; lia).
    assert (c < bk)%Z.
    { eapply (buildLineOffsets_increasing source (k - 1) k); eauto. lia. }
    replace (Z.max a (bk - 1)) with (bk - 1)%Z by lia.
    replace (Z.of_nat k - 1)%Z with (Z.of_nat (k - 1)) by lia.
    apply (offsetToLine_exact _ _ (k - 1) c);
      auto using buildLineOffsets_increasing, offsets_short.
    + lia.
    + intros b Hb. replace (S (k - 1)) with k in Hb by lia.
      rewrite Hbk in Hb. inversion Hb. lia.
Qed.

(** The block runs to the end of the text. *)
Lemma index_open_block source i l lbl :
  (Z.of_nat (length source) < 1073741824)%Z ->
  splitLines source !! i = Some l -> matchTheoremStart (trim l) = Some lbl ->
  (forall j l', i < j -> splitLines source !! j = Some l' -> plainLine l') ->
  ~ openedBetween (splitLines source) 0 i lbl ->
  exists d,
    map_get (labels (parseCrossrefIndex source)) lbl = Some d /\
    kind d = theorem /\
    lineStart d = Z.of_nat i /\
    lineEnd d = Z.max (Z.of_nat i)
                  (offsetToLine (buildLineOffsets source) (Z.of_nat (length source) - 1)).
Proof.
  intros Hlen Hi Hs Hplain Hfirst.
  destruct (index_registers source i l lbl Hlen Hi Hs Hfirst)
    as (d & a & Hd & Ha & Hkind & Hls & Hle).
  exists d. split; [exact Hd|]. split; [exact Hkind|]. split; [exact Hls|].
  rewrite Hle. clear Hle.
  destruct (scanBlock_open (drop (S i) (splitLines source)) i (S i) [] i) as (_ & Hbel & _).
  { intros j l' Hl'. rewrite lookup_drop in Hl'. eapply Hplain; [|exact Hl']. lia. }
  assert (Hilt : i < length (splitLines source)) by (eapply lookup_lt_Some; eauto).
  assert (Hb : S (bs_blockEndLine (scanBlock i (S i) (drop (S i) (splitLines source)) [] i))
               = length (buildLineOffsets source)).
  { rewrite Hbel, <- lines_offsets_length.
    destruct (drop (S i) (splitLines source)) eqn:E.
    - apply (f_equal length) in E. rewrite length_drop in E. simpl in E. lia.
    - rewrite <- E, length_drop. apply (f_equal length) in E.
      rewrite length_drop in E. simpl in E. lia. }
  rewrite Hb. unfold offsetOrEnd. rewrite Nat.ltb_irrefl.
  pose proof (offsetToLine_line_start source i a Hlen Ha) as Hline.
  set (last := (Z.of_nat (length source) - 1)%Z).
  destruct (Z_le_gt_dec a last) as [Hal|Hal].
  - replace (Z.max a last) with last by lia.
    assert (offsetToLine (buildLineOffsets source) a
            <= offsetToLine (buildLineOffsets source) last)%Z
      by (apply offsetToLine_mono; auto using buildLineOffsets_increasing, offsets_short).
    lia.
  - replace (Z.max a last) with a by lia.
    assert (offsetToLine (buildLineOffsets source) last
            <= offsetToLine (buildLineOffsets source) a)%Z
      by (apply offsetToLine_mono; auto using buildLineOffsets_increasing, offsets_short; lia).
    lia.
Qed.

(** *** The first loop and display math without a closing delimiter *)

Lemma isMathDelimiter_trim l : isMathDelimiter l = true -> trim l = lit "$$".
Proof. unfold isMathDelimiter. apply eqb_eq. Qed.

Lemma findClosing_none : forall rest j,
  (forall m lm, rest !! m = Some lm -> isMathDelimiter lm = false) ->
  findClosing j rest = None.
Proof.
  induction rest as [|l rest IH]; intros j H; simpl; [reflexivity|].
  rewrite (H 0 l eq_refl). apply IH. intros m lm Hm. apply (H (S m)). exact Hm.
Qed.

Lemma findClosing_spec : forall rest j e,
  findClosing j rest = Some e ->
  j <= e /\
  (exists le, rest !! (e - j) = Some le /\ isMathDelimiter le = true) /\
  (forall m lm, m < e - j -> rest !! m = Some lm -> isMathDelimiter lm = false).
Proof.
  induction rest as [|l rest IH]; intros j e; simpl; [discriminate|].
  destruct (isMathDelimiter l) eqn:Hl.
  - intros [= <-]. rewrite Nat.sub_diag. split; [lia|]. split; [eauto|]. intros; lia.
  - intros H. destruct (IH _ _ H) as (Hje & (le & Hle & Hd) & Hbefore).
    split; [lia|]. split.
    + exists le. replace (e - j) with (S (e - S j)) by lia. auto.
    + intros m lm Hm Hlm. destruct m as [|m]; simpl in Hlm.
      * congruence.
      * apply (Hbefore m); [lia|exact Hlm].
Qed.

Lemma findClosing_exists : forall rest j n l,
  rest !! n = Some l -> isMathDelimiter l = true ->
  exists e, findClosing j rest = Some e /\ e <= j + n.
Proof.
  induction rest as [|l0 rest IH]; intros j n l Hn Hl; simpl.
  - rewrite lookup_nil in Hn. discriminate.
  - destruct (isMathDelimiter l0) eqn:Hl0.
    + exists j. split; [reflexivity|lia].
    + destruct n as [|n]; simpl in Hn; [congruence|].
      destruct (IH (S j) n l Hn Hl) as (e & He & Hle). exists e. split; [exact He|lia].
Qed.

Lemma findClosing_take : forall rest j e n,
  findClosing j rest = Some e -> e - j < n ->
  findClosing j (take n rest) = Some e.
Proof.
  induction rest as [|l rest IH]; intros j e n; simpl; [discriminate|].
  destruct n as [|n]; [lia|]. simpl.
  destruct (isMathDelimiter l); [auto|].
  intros H Hn. pose proof (findClosing_spec _ _ _ H) as (Hje & _).
  apply IH; [exact H|lia].
Qed.

Lemma skipBlank_le : forall rest j n l,
  rest !! n = Some l -> isEmpty (trim l) = false -> j <= skipBlank j rest <= j + n.
Proof.
  induction rest as [|l0 rest IH]; intros j n l Hn Hl; simpl.
  - rewrite lookup_nil in Hn. discriminate.
  - destruct (isEmpty (trim l0)) eqn:Hl0; [|lia].
    destruct n as [|n]; simpl in Hn; [congruence|].
    specialize (IH (S j) n l Hn Hl). lia.
Qed.

Lemma skipBlank_ge : forall rest j, j <= skipBlank j rest.
Proof.
  induction rest as [|l rest IH]; intros j; simpl; [lia|].
  destruct (isEmpty (trim l)); [|lia]. specialize (IH (S j)). lia.
Qed.

Lemma skipBlank_take : forall rest j n,
  skipBlank j rest < j + n -> skipBlank j (take n rest) = skipBlank j rest.
Proof.
  induction rest as [|l rest IH]; intros j n H; simpl in *.
  - rewrite take_nil. reflexivity.
  - destruct n as [|n]; simpl.
    + destruct (isEmpty (trim l)); [|lia].
      pose proof (skipBlank_ge rest (S j)). lia.
    + destruct (isEmpty (trim l)); [|reflexivity].
      apply IH. lia.
Qed.

Lemma skipBlank_take_all : forall rest j n,
  n <= length rest -> j + n <= skipBlank j rest -> skipBlank j (take n rest) = j + n.
Proof.
  induction rest as [|l rest IH]; intros j n Hn H; simpl in *.
  - assert (n = 0) by lia. subst. simpl. lia.
  - destruct n as [|n]; simpl; [lia|].
    destruct (isEmpty (trim l)); [|lia].
    rewrite IH; lia.
Qed.

Lemma drop_take_sub {A} (l : list A) n m :
  n <= m -> drop n (take m l) = take (m - n) (drop n l).
Proof.
  intros H. rewrite take_drop_commute. replace (n + (m - n)) with m by lia. reflexivity.
Qed.

Section Unclosed.

Variable source : jsstring.
Variable lineOffsets : list Z.
Variable lines : list jsstring.

Lemma scanEquations_no_delimiter : forall fuel i st,
  (forall j l, i <= j -> lines !! j = Some l -> isMathDelimiter l = false) ->
  scanEquations source lineOffsets lines fuel i st = st.
Proof.
  induction fuel as [|fuel IH]; intros i st H; simpl; [reflexivity|].
  destruct (lines !! i) as [line|] eqn:Hl; [|reflexivity].
  rewrite (H i line (le_n _) Hl). simpl. apply IH.
  intros j l Hj. apply H. lia.
Qed.

(** The test [endLine < 0] and its [continue]. *)
Lemma scanEquations_unclosed fuel i l st :
  lines !! i = Some l -> isMathDelimiter l = true ->
  (forall j l', i < j -> lines !! j = Some l' -> isMathDelimiter l' = false) ->
  scanEquations source lineOffsets lines (S fuel) i st
  = scanEquations source lineOffsets lines fuel (S i) st
  /\ scanEquations source lineOffsets lines fuel (S i) st = st.
Proof.
  intros Hi Hl Hlater. split.
  - simpl. rewrite Hi, Hl. simpl.
    rewrite findClosing_none; [reflexivity|].
    intros m lm Hm. rewrite lookup_drop in Hm. eapply Hlater; [|exact Hm]. lia.
  - apply scanEquations_no_delimiter. intros j l' Hj. apply Hlater. lia.
Qed.

Variable i : nat.
Variable li : jsstring.
Hypothesis line_i : lines !! i = Some li.
Hypothesis delimiter_i : isMathDelimiter li = true.
Hypothesis none_later :
  forall j l, i < j -> lines !! j = Some l -> isMathDelimiter l = false.

Lemma delimitersFrom_step a la :
  a < i -> lines !! a = Some la ->
  delimitersFrom lines i a = (if isMathDelimiter la then 1 else 0) + delimitersFrom lines i (S a).
Proof.
  intros Ha Hla. unfold delimitersFrom.
  assert (H : take i lines !! a = Some la) by (rewrite lookup_take_lt; auto).
  rewrite (drop_S _ _ _ H). simpl. destruct (isMathDelimiter la); reflexivity.
Qed.

Lemma delimitersFrom_end : delimitersFrom lines i i = 0.
Proof.
  unfold delimitersFrom. rewrite drop_ge; [reflexivity|].
  rewrite length_take. lia.
Qed.

Lemma delimitersFrom_skip : forall n a,
  a + n <= i ->
  (forall m lm, a <= m < a + n -> lines !! m = Some lm -> isMathDelimiter lm = false) ->
  delimitersFrom lines i a = delimitersFrom lines i (a + n).
Proof.
  induction n as [|n IH]; intros a Ha H.
  - rewrite Nat.add_0_r. reflexivity.
  - assert (Hlt : a < length lines) by (apply lookup_lt_Some in line_i; lia).
    destruct (lookup_lt_is_Some_2 lines a Hlt) as [la Hla].
    rewrite (delimitersFrom_step a la) by (auto; lia).
    rewrite (H a la) by (auto; lia). simpl.
    replace (a + S n) with (S a + n) by lia. apply IH; [lia|].
    intros m lm Hm. apply H. lia.
Qed.

Lemma equationBlock_take a e st :
  e < i ->
  equationBlock source lineOffsets (take i lines) a e st
  = equationBlock source lineOffsets lines a e st.
Proof.
  intros He. unfold equationBlock.
  assert (Hnb : isEmpty (trim li) = false)
    by (rewrite (isMathDelimiter_trim _ delimiter_i); reflexivity).
  assert (Hi' : drop (S e) lines !! (i - S e) = Some li).
  { rewrite lookup_drop. replace (S e + (i - S e)) with i by lia. exact line_i. }
  pose proof (skipBlank_le _ (S e) _ _ Hi' Hnb) as Hle.
  replace (S e + (i - S e)) with i in Hle by lia.
  rewrite drop_take_sub by lia.
  destruct (decide (skipBlank (S e) (drop (S e) lines) < i)) as [Hlt|Hge].
  - rewrite skipBlank_take by lia.
    rewrite lookup_take_lt by exact Hlt. reflexivity.
  - assert (Heq : skipBlank (S e) (drop (S e) lines) = i) by lia.
    rewrite skipBlank_take_all.
    + replace (S e + (i - S e)) with i by lia.
      rewrite lookup_take_ge by lia. rewrite Heq, line_i.
      rewrite (isMathDelimiter_trim _ delimiter_i). reflexivity.
    + rewrite length_drop. apply lookup_lt_Some in line_i. lia.
    + lia.
Qed.

(** From an index with an even number of delimiter lines up to line [i],
    the loop does on the lines what it does on the lines before line [i]. *)
Lemma scanEquations_take : forall fuel a st,
  a <= i -> Nat.even (delimitersFrom lines i a) = true ->
  scanEquations source lineOffsets lines fuel a st
  = scanEquations source lineOffsets (take i lines) fuel a st.
Proof.
  induction fuel as [|fuel IH]; intros a st Ha Heven; [reflexivity|].
  destruct (decide (a = i)) as [->|Hne].
  - destruct (scanEquations_unclosed fuel i li st line_i delimiter_i none_later) as [-> ->].
    simpl. rewrite lookup_take_ge by lia. reflexivity.
  - assert (Hlt : a < length lines) by (apply lookup_lt_Some in line_i; lia).
    destruct (lookup_lt_is_Some_2 lines a Hlt) as [la Hla].
    cbn [scanEquations]. rewrite lookup_take_lt by lia. rewrite Hla.
    rewrite (delimitersFrom_step a la) in Heven by (auto; lia).
    destruct (isMathDelimiter la) eqn:Hd; cbn [negb].
    + destruct (findClosing_exists (drop (S a) lines) (S a) (i - S a) li) as (e & He & Hei).
      { rewrite lookup_drop. replace (S a + (i - S a)) with i by lia. exact line_i. }
      { exact delimiter_i. }
      replace (S a + (i - S a)) with i in Hei by lia.
      destruct (findClosing_spec _ _ _ He) as (Hae & (le & Hle & Hdle) & Hbefore).
      rewrite lookup_drop in Hle. replace (S a + (e - S a)) with e in Hle by lia.
      assert (Hskip : delimitersFrom lines i (S a) = delimitersFrom lines i e).
      { rewrite (delimitersFrom_skip (e - S a) (S a));
          [replace (S a + (e - S a)) with e by lia; reflexivity|lia|].
        intros m lm Hm Hlm. apply (Hbefore (m - S a)); [lia|].
        rewrite lookup_drop. replace (S a + (m - S a)) with m by lia. exact Hlm. }
      assert (Hei' : e < i).
      { destruct (decide (e = i)) as [->|]; [|lia].
        rewrite Hskip, delimitersFrom_end in Heven. discriminate. }
      rewrite (delimitersFrom_step e le) in Hskip by (auto; lia).
      rewrite Hdle in Hskip.
      rewrite He.
      rewrite drop_take_sub by lia.
      rewrite (findClosing_take _ _ _ (i - S a) He) by lia.
      rewrite equationBlock_take by exact Hei'.
      apply IH; [lia|].
      rewrite Hskip in Heven. simpl in Heven. exact Heven.
    + apply IH; [lia|exact Heven].
Qed.

End Unclosed.

(** *** What the patterns consume *)

Lemma stripPrefix_app : forall p s r, stripPrefix p s = Some r -> s = p ++ r.
Proof.
  induction p as [|a p IH]; intros s r; simpl.
  - intros [= ->]. reflexivity.
  - destruct s as [|b s]; [discriminate|].
    destruct (N.eqb_spec a b) as [->|]; [|discriminate].
    intros H. rewrite (IH _ _ H). reflexivity.
Qed.

Lemma stripPrefix_self : forall p r, stripPrefix p (p ++ r) = Some r.
Proof.
  induction p as [|a p IH]; intros r; simpl; [reflexivity|].
  rewrite N.eqb_refl. apply IH.
Qed.

Lemma span_app p : forall s a b, span p s = (a, b) -> s = a ++ b.
Proof.
  induction s as [|c s IH]; intros a b; simpl.
  - intros [= <- <-]. reflexivity.
  - destruct (p c).
    + destruct (span p s) as [a' b']. intros [= <- <-]. rewrite (IH a' b' eq_refl). reflexivity.
    + intros [= <- <-]. reflexivity.
Qed.

Lemma span_forall p : forall s a b, span p s = (a, b) -> forallb p a = true.
Proof.
  induction s as [|c s IH]; intros a b; simpl.
  - intros [= <- <-]. reflexivity.
  - destruct (p c) eqn:Hc.
    + destruct (span p s) as [a' b']. intros [= <- <-]. simpl. rewrite Hc. eapply IH; eauto.
    + intros [= <- <-]. reflexivity.
Qed.

Lemma span_stop p : forall s a b c b',
  span p s = (a, b) -> b = c :: b' -> p c = false.
Proof.
  induction s as [|c0 s IH]; intros a b c b'; simpl.
  - intros [= <- <-]. discriminate.
  - destruct (p c0) eqn:Hc.
    + destruct (span p s) as [a' b0]. intros [= <- <-]. eapply IH; eauto.
    + intros [= <- <-] [= <- <-]. exact Hc.
Qed.

Lemma dropWhile_length p s : length (dropWhile p s) <= length s.
Proof.
  unfold dropWhile. destruct (span p s) as [a b] eqn:E.
  apply span_app in E. subst s. simpl. rewrite length_app. lia.
Qed.

Lemma matchAlternatives_app alts s p rest :
  matchAlternatives alts s = Some (p, rest) -> s = p ++ rest.
Proof.
  induction alts as [|a alts IH]; simpl; [discriminate|].
  destruct (stripPrefix a s) eqn:E.
  - intros [= <- <-]. apply stripPrefix_app. exact E.
  - exact IH.
Qed.

(** What a label match takes: the label, all of it, and nothing that could
    still belong to it after it. *)
Lemma matchLabelWith_app alts s lbl rest :
  matchLabelWith alts s = Some (lbl, rest) ->
  s = lbl ++ rest /\ lbl <> [] /\
  (forall c rest', rest = c :: rest' -> isLabelChar c = false).
Proof.
  unfold matchLabelWith.
  destruct (matchAlternatives alts s) as [[p r]|] eqn:Ha; [|discriminate].
  destruct (stripPrefix (lit "-") r) as [r'|] eqn:Hd; [|discriminate].
  destruct (span isLabelChar r') as [name r''] eqn:Hsp.
  destruct (isEmpty name); [discriminate|].
  intros [= <- <-].
  apply matchAlternatives_app in Ha. apply stripPrefix_app in Hd.
  pose proof (span_app _ _ _ _ Hsp) as Hn.
  split; [|split].
  - subst s r r'. rewrite <- !app_assoc. reflexivity.
  - destruct p; discriminate.
  - intros c rest' ->. eapply span_stop; eauto.
Qed.

Lemma noAt_label s :
  forallb isLabelChar s = true -> noAt s = true.
Proof.
  unfold noAt. induction s as [|c s IH]; simpl; [reflexivity|].
  intros H. apply andb_true_iff in H as [Hc Hs]. rewrite (IH Hs), andb_true_r.
  destruct (N.eqb_spec c 64) as [->|]; [discriminate Hc|reflexivity].
Qed.

Lemma noAt_app a b : noAt a = true -> noAt b = true -> noAt (a ++ b) = true.
Proof.
  unfold noAt. intros Ha Hb. rewrite List.forallb_app.
  apply andb_true_iff. split; assumption.
Qed.

Lemma matchLabelWith_noAt alts s lbl rest :
  forallb noAt alts = true ->
  matchLabelWith alts s = Some (lbl, rest) -> noAt lbl = true.
Proof.
  intros Halts. unfold matchLabelWith.
  destruct (matchAlternatives alts s) as [[p r]|] eqn:Ha; [|discriminate].
  destruct (stripPrefix (lit "-") r) as [r'|] eqn:Hd; [|discriminate].
  destruct (span isLabelChar r') as [name r''] eqn:Hsp.
  destruct (isEmpty name); [discriminate|].
  intros [= <- <-].
  apply matchAlternatives_In in Ha.
  rewrite forallb_forall in Halts.
  apply noAt_app; [apply Halts; exact Ha|].
  apply (noAt_app (lit "-")); [reflexivity|].
  apply noAt_label. eapply span_forall; eauto.
Qed.

(** A reference token is [@], then its label, and no [@] inside. *)
Lemma matchRefAt_app s lbl rest :
  matchRefAt s = Some (lbl, rest) ->
  s = lit "@" ++ lbl ++ rest /\ noAt lbl = true.
Proof.
  unfold matchRefAt.
  destruct (stripPrefix (lit "@") s) as [r|] eqn:E; [|discriminate].
  intros H. apply stripPrefix_app in E.
  pose proof (matchLabelWith_app _ _ _ _ H) as (-> & _ & _).
  split; [exact E|].
  eapply matchLabelWith_noAt; [|exact H]. reflexivity.
Qed.

(** The figure pattern takes at least one character. *)
Lemma matchFigureAt_shorter s lbl rest :
  matchFigureAt s = Some (lbl, rest) -> length rest < length s.
Proof.
  unfold matchFigureAt.
  destruct (stripPrefix (lit "![") s) as [s1|] eqn:E1; [|discriminate].
  destruct (stripPrefix (lit "](") _) as [s2|] eqn:E2; [|discriminate].
  destruct (span _ s2) as [url s3] eqn:E3.
  destruct (isEmpty url); [discriminate|].
  destruct (stripPrefix (lit ")") s3) as [s4|] eqn:E4; [|discriminate].
  destruct (stripPrefix (lit "{#") _) as [s5|] eqn:E5; [|discriminate].
  destruct (matchLabelWith [lit "fig"] s5) as [[l s6]|] eqn:Hm; [|discriminate].
  destruct (stripPrefix (lit "}") s6) as [s7|] eqn:E7; [|discriminate].
  intros [= <- <-].
  apply stripPrefix_app in E1, E2, E4, E5, E7.
  apply span_app in E3. apply matchLabelWith_app in Hm as (Hm & _ & _).
  pose proof (dropWhile_length (fun c => negb (N.eqb c 93)) s1) as H1.
  pose proof (dropWhile_length isSpace s4) as H4.
  apply (f_equal length) in E1, E2, E3, E4, E5, E7, Hm.
  rewrite ?length_app in *. simpl in *. lia.
Qed.

(** *** [exec] *)

Lemma execFrom_spec {A} (m : jsstring -> option (A * jsstring)) : forall s pos ix a li,
  execFrom m pos s = Some (ix, a, li) ->
  exists k rest,
    ix = pos + k /\ k <= length s /\ m (drop k s) = Some (a, rest) /\
    li = ix + (length (drop k s) - length rest) /\
    (forall q, q < k -> m (drop q s) = None).
Proof.
  induction s as [|c s IH]; intros pos ix a li; simpl.
  - destruct (m []) as [[a' rest]|] eqn:E; [|discriminate].
    intros [= <- <- <-]. exists 0, rest. simpl. rewrite Nat.add_0_r.
    repeat split; auto. intros; lia.
  - destruct (m (c :: s)) as [[a' rest]|] eqn:E.
    + intros [= <- <- <-]. exists 0, rest. simpl. rewrite Nat.add_0_r.
      repeat split; auto; [lia|]. intros; lia.
    + intros H. destruct (IH _ _ _ _ H) as (k & rest & -> & Hk & Hm & -> & Hnone).
      exists (S k), rest. simpl. repeat split; auto; try lia.
      intros q Hq. destruct q as [|q]; simpl; [exact E|]. apply Hnone. lia.
Qed.

Lemma execFrom_exists {A} (m : jsstring -> option (A * jsstring)) : forall s pos k a rest,
  m (drop k s) = Some (a, rest) -> k <= length s ->
  exists ix a' li, execFrom m pos s = Some (ix, a', li) /\ ix <= pos + k.
Proof.
  induction s as [|c s IH]; intros pos k a rest Hm Hk; simpl in *.
  - assert (k = 0) by lia. subst k. simpl in Hm. rewrite Hm. eexists _, _, _. split; [reflexivity|lia].
  - destruct (m (c :: s)) as [[a' rest']|] eqn:E.
    + eexists _, _, _. split; [reflexivity|lia].
    + destruct k as [|k]; simpl in Hm; [congruence|].
      destruct (IH (S pos) k a rest Hm) as (ix & a' & li & H & Hle); [lia|].
      exists ix, a', li. split; [exact H|lia].
Qed.

Lemma regexExec_spec {A} (m : jsstring -> option (A * jsstring)) text lastIndex ix a li :
  regexExec m text lastIndex = Some (ix, a, li) ->
  lastIndex <= ix <= length text /\
  exists rest,
    m (drop ix text) = Some (a, rest) /\
    li = ix + (length (drop ix text) - length rest) /\
    (forall q, lastIndex <= q < ix -> m (drop q text) = None).
Proof.
  unfold regexExec. destruct (Nat.ltb_spec (length text) lastIndex) as [|Hle]; [discriminate|].
  intros H. apply execFrom_spec in H as (k & rest & -> & Hk & Hm & -> & Hnone).
  rewrite length_drop in Hk. rewrite drop_drop in Hm.
  split; [lia|]. exists rest. rewrite drop_drop. repeat split; auto.
  intros q Hq. specialize (Hnone (q - lastIndex)). rewrite drop_drop in Hnone.
  replace (lastIndex + (q - lastIndex)) with q in Hnone by lia. apply Hnone. lia.
Qed.

Lemma regexExec_exists {A} (m : jsstring -> option (A * jsstring)) text lastIndex q a rest :
  lastIndex <= q <= length text -> m (drop q text) = Some (a, rest) ->
  exists ix a' li, regexExec m text lastIndex = Some (ix, a', li) /\ ix <= q.
Proof.
  intros Hq Hm. unfold regexExec.
  destruct (Nat.ltb_spec (length text) lastIndex) as [|Hle]; [lia|].
  destruct (execFrom_exists m (drop lastIndex text) lastIndex (q - lastIndex) a rest)
    as (ix & a' & li & H & Hix).
  - rewrite drop_drop. replace (lastIndex + (q - lastIndex)) with q by lia. exact Hm.
  - rewrite length_drop. lia.
  - exists ix, a', li. split; [exact H|lia].
Qed.

(** *** Fuel *)

Section Fuel.

Variable source : jsstring.
Variable lineOffsets : list Z.
Variable lines : list jsstring.

(** The first loop needs one unit of fuel for each line still ahead; any
    more changes nothing. *)
Lemma scanEquations_fuel : forall fuel fuel' i st,
  length lines - i <= fuel -> length lines - i <= fuel' ->
  scanEquations source lineOffsets lines fuel i st
  = scanEquations source lineOffsets lines fuel' i st.
Proof.
  induction fuel as [|fuel IH]; intros fuel' i st H H'.
  - assert (Hn : lines !! i = None) by (apply lookup_ge_None; lia).
    destruct fuel'; simpl; [reflexivity|]. rewrite Hn. reflexivity.
  - destruct fuel' as [|fuel'].
    + assert (Hn : lines !! i = None) by (apply lookup_ge_None; lia).
      simpl. rewrite Hn. reflexivity.
    + simpl. destruct (lines !! i) as [line|] eqn:Hl; [|reflexivity].
      apply lookup_lt_Some in Hl.
      destruct (negb (isMathDelimiter line)); [apply IH; lia|].
      destruct (findClosing (S i) (drop (S i) lines)) as [e|] eqn:He; [|apply IH; lia].
      apply findClosing_spec in He as (He & _). apply IH; lia.
Qed.

Lemma scanBlock_cursor_ge : forall rest i cursor ttl bel,
  cursor - 1 <= bs_cursor (scanBlock i cursor rest ttl bel).
Proof.
  induction rest as [|current rest IH]; intros i cursor ttl bel; simpl; [lia|].
  destruct (testTheoremEnd _); simpl; [lia|].
  destruct (testTheoremStart _); simpl; [lia|].
  match goal with |- _ <= bs_cursor (scanBlock _ _ _ ?t _) => specialize (IH i (S cursor) t cursor) end.
  lia.
Qed.

(** The third loop likewise. *)
Lemma scanTheorems_fuel : forall fuel fuel' i st,
  length lines - i <= fuel -> length lines - i <= fuel' ->
  scanTheorems source lineOffsets lines fuel i st
  = scanTheorems source lineOffsets lines fuel' i st.
Proof.
  induction fuel as [|fuel IH]; intros fuel' i st H H'.
  - assert (Hn : lines !! i = None) by (apply lookup_ge_None; lia).
    destruct fuel'; cbn [scanTheorems]; [reflexivity|]. rewrite Hn. reflexivity.
  - destruct fuel' as [|fuel'].
    + assert (Hn : lines !! i = None) by (apply lookup_ge_None; lia).
      cbn [scanTheorems]. rewrite Hn. reflexivity.
    + cbn [scanTheorems]. destruct (lines !! i) as [line|] eqn:Hl; [|reflexivity].
      apply lookup_lt_Some in Hl.
      destruct (matchTheoremStart (trim line)) as [lbl|]; [|apply IH; lia].
      assert (Hc : i <= snd (theoremBlock source lineOffsets lines i lbl st)).
      { unfold theoremBlock. cbn [snd].
        pose proof (scanBlock_cursor_ge (drop (S i) lines) i (S i) [] i). lia. }
      destruct (theoremBlock source lineOffsets lines i lbl st) as [st' c]. cbn [snd] in Hc.
      apply IH; lia.
Qed.

(** The second loop needs one unit of fuel for each character still ahead. *)
Lemma scanFigures_fuel : forall fuel fuel' lastIndex st,
  length source - lastIndex <= fuel -> length source - lastIndex <= fuel' ->
  scanFigures source lineOffsets fuel lastIndex st
  = scanFigures source lineOffsets fuel' lastIndex st.
Proof.
  assert (Hend : forall lastIndex, length source <= lastIndex ->
            regexExec matchFigureAt source lastIndex = None).
  { intros lastIndex Hle.
    destruct (regexExec matchFigureAt source lastIndex) as [[[ix lbl] li]|] eqn:E; [|reflexivity].
    apply regexExec_spec in E as (Hix & rest & Hm & _ & _).
    apply matchFigureAt_shorter in Hm. rewrite length_drop in Hm. lia. }
  induction fuel as [|fuel IH]; intros fuel' lastIndex st H H'.
  - destruct fuel'; simpl; [reflexivity|]. rewrite Hend by lia. reflexivity.
  - destruct fuel' as [|fuel'].
    + simpl. rewrite Hend by lia. reflexivity.
    + simpl. destruct (regexExec matchFigureAt source lastIndex) as [[[ix lbl] li]|] eqn:E;
        [|reflexivity].
      apply regexExec_spec in E as (Hix & rest & Hm & -> & _).
      apply matchFigureAt_shorter in Hm. rewrite length_drop in *. apply IH; lia.
Qed.

End Fuel.

(** *** Reference substitution keeps the text *)

Lemma fragmentText_app a b : fragmentText (a ++ b) = fragmentText a ++ fragmentText b.
Proof. unfold fragmentText. rewrite List.map_app, List.concat_app. reflexivity. Qed.

Lemma fragmentText_single n : fragmentText [n] = nodeText n.
Proof. unfold fragmentText. simpl. apply app_nil_r. Qed.

Lemma nodeText_referenceNode idx sourcePath lbl :
  nodeText (referenceNode idx sourcePath (lit "@" ++ lbl) lbl) = lit "@" ++ lbl.
Proof. unfold referenceNode. destruct (map_get _ _); reflexivity. Qed.

Lemma take_extend (text raw rest : jsstring) ix :
  drop ix text = raw ++ rest -> take ix text ++ raw = take (ix + length raw) text.
Proof.
  intros H. rewrite <- take_take_drop, H, take_app_length. reflexivity.
Qed.

Lemma take_slice (text : jsstring) a b :
  a <= b -> take a text ++ slice text a b = take b text.
Proof.
  intros H. unfold slice. rewrite take_take_drop. f_equal. lia.
Qed.

Lemma length_raw (lbl : jsstring) : length (lit "@" ++ lbl) = S (length lbl).
Proof. reflexivity. Qed.

Lemma destruct_list_rev {A} (l : list A) : l = [] \/ exists l' x, l = l' ++ [x].
Proof.
  induction l as [|a l IH] using rev_ind; [left; reflexivity|right; eauto].
Qed.

Section References.

Variable text : jsstring.
Variable idx : Index.
Variable sourcePath : jsstring.

(** One turn of the loop that replaces the token at [atIndex]. *)
Lemma replace_step_text fragment cursor atIndex lbl rest :
  cursor <= atIndex ->
  fragmentText fragment = take cursor text ->
  drop atIndex text = (lit "@" ++ lbl) ++ rest ->
  fragmentText
    ((if cursor <? atIndex
      then fragment ++ [TextNode (slice text cursor atIndex)]
      else fragment)) = take atIndex text /\
  fragmentText
    ((if cursor <? atIndex
      then fragment ++ [TextNode (slice text cursor atIndex)]
      else fragment) ++ [referenceNode idx sourcePath (lit "@" ++ lbl) lbl])
  = take (atIndex + length (lit "@" ++ lbl)) text.
Proof.
  intros Hc Hf Hd.
  assert (H1 : fragmentText
            (if cursor <? atIndex
             then fragment ++ [TextNode (slice text cursor atIndex)]
             else fragment) = take atIndex text).
  { destruct (Nat.ltb_spec cursor atIndex) as [Hlt|Hge].
    - rewrite fragmentText_app, fragmentText_single, Hf. simpl. apply take_slice. lia.
    - assert (cursor = atIndex) as -> by lia. exact Hf. }
  split; [exact H1|].
  rewrite fragmentText_app, fragmentText_single, H1, nodeText_referenceNode.
  apply take_extend with (rest := rest). exact Hd.
Qed.

Lemma exec_ref lastIndex atIndex lbl lastIndex' :
  regexExec matchRefAt text lastIndex = Some (atIndex, lbl, lastIndex') ->
  lastIndex <= atIndex /\ atIndex < length text /\
  lastIndex' = atIndex + length (lit "@" ++ lbl) /\
  lastIndex' <= length text /\
  noAt lbl = true /\
  exists rest, drop atIndex text = (lit "@" ++ lbl) ++ rest /\
               matchRefAt (drop atIndex text) = Some (lbl, rest).
Proof.
  intros H. apply regexExec_spec in H as (Hix & rest & Hm & -> & _).
  pose proof (matchRefAt_app _ _ _ Hm) as (Hd & Hno).
  assert (Hlen : length (drop atIndex text) = length (lit "@" ++ lbl) + length rest).
  { rewrite Hd. rewrite !length_app. lia. }
  rewrite length_drop in Hlen. rewrite length_drop. rewrite length_raw in *.
  split; [lia|]. split; [lia|]. split; [lia|]. split; [lia|].
  split; [exact Hno|]. exists rest. split; [|exact Hm].
  rewrite Hd. rewrite <- app_assoc. reflexivity.
Qed.

(** The loop only appends, and what it has appended stands for the text up
    to [cursor]. *)
Lemma replaceLoop_text : forall fuel lastIndex cursor fragment replaced,
  cursor <= lastIndex ->
  fragmentText fragment = take cursor text ->
  cursor <= length text ->
  exists extra cursor' replaced',
    replaceLoop fuel text idx sourcePath lastIndex cursor fragment replaced
    = (fragment ++ extra, cursor', replaced') /\
    fragmentText (fragment ++ extra) = take cursor' text /\
    cursor' <= length text /\
    (replaced = true -> replaced' = true).
Proof.
  induction fuel as [|fuel IH]; intros lastIndex cursor fragment replaced Hc Hf Hlen.
  - exists [], cursor, replaced. cbn [replaceLoop]. rewrite app_nil_r. auto.
  - cbn [replaceLoop].
    destruct (regexExec matchRefAt text lastIndex) as [[[atIndex lbl] lastIndex']|] eqn:E.
    + pose proof (exec_ref _ _ _ _ E) as (Hix & Hlt & -> & Hle & Hno & rest & Hd & _).
      destruct ((0 <? atIndex) && testWord _).
      * apply IH; auto. rewrite length_raw. lia.
      * destruct (replace_step_text fragment cursor atIndex lbl rest) as [_ H2]; auto; [lia|].
        destruct (IH (atIndex + length (lit "@" ++ lbl)) (atIndex + length (lit "@" ++ lbl))
                    _ true (le_n _) H2 Hle)
          as (extra & cursor' & replaced' & Hrun & Htext & Hcur & Hrep).
        rewrite Hrun.
        exists ((if cursor <? atIndex then [TextNode (slice text cursor atIndex)] else [])
                ++ [referenceNode idx sourcePath (lit "@" ++ lbl) lbl] ++ extra),
          cursor', replaced'.
        assert (Hshape :
          ((if cursor <? atIndex
            then fragment ++ [TextNode (slice text cursor atIndex)]
            else fragment) ++ [referenceNode idx sourcePath (lit "@" ++ lbl) lbl]) ++ extra
          = fragment ++
            (if cursor <? atIndex then [TextNode (slice text cursor atIndex)] else [])
            ++ [referenceNode idx sourcePath (lit "@" ++ lbl) lbl] ++ extra).
        { destruct (cursor <? atIndex); rewrite <- ?app_assoc; reflexivity. }
        rewrite <- Hshape. auto.
    + exists [], cursor, replaced. rewrite app_nil_r. auto.
Qed.

(** The loop needs one unit of fuel for each character still ahead; any
    more changes nothing. *)
Lemma replaceLoop_fuel : forall fuel fuel' lastIndex cursor fragment replaced,
  length text - lastIndex <= fuel -> length text - lastIndex <= fuel' ->
  replaceLoop fuel text idx sourcePath lastIndex cursor fragment replaced
  = replaceLoop fuel' text idx sourcePath lastIndex cursor fragment replaced.
Proof.
  assert (Hend : forall lastIndex, length text <= lastIndex ->
            regexExec matchRefAt text lastIndex = None).
  { intros lastIndex Hle.
    destruct (regexExec matchRefAt text lastIndex) as [[[ix lbl] li]|] eqn:E; [|reflexivity].
    apply exec_ref in E as (Hix & Hlt & _). lia. }
  induction fuel as [|fuel IH]; intros fuel' lastIndex cursor fragment replaced H H'.
  - destruct fuel'; cbn [replaceLoop]; [reflexivity|]. rewrite Hend by lia. reflexivity.
  - destruct fuel' as [|fuel'].
    + cbn [replaceLoop]. rewrite Hend by lia. reflexivity.
    + cbn [replaceLoop].
      destruct (regexExec matchRefAt text lastIndex) as [[[ix lbl] li]|] eqn:E;
        [|reflexivity].
      apply exec_ref in E as (Hix & Hlt & -> & _). rewrite length_raw.
      destruct (_ && _); apply IH; lia.
Qed.

(** The nodes that take the place of a text run stand for the text of the
    run. *)
Lemma replaceReferencesInNode_text ns :
  replaceReferencesInNode text idx sourcePath = Some ns -> fragmentText ns = text.
Proof.
  unfold replaceReferencesInNode.
  destruct (replaceLoop_text (length text) 0 0 [] false (le_n _) eq_refl (Nat.le_0_l _))
    as (extra & cursor' & replaced' & Hrun & Htext & Hcur & _).
  rewrite Hrun. simpl in *.
  destruct (negb replaced'); [discriminate|].
  destruct (Nat.ltb_spec cursor' (length text)) as [Hlt|Hge]; intros [= <-].
  - rewrite fragmentText_app, fragmentText_single, Htext. simpl.
    rewrite take_slice by lia. apply firstn_all.
  - rewrite Htext. apply take_ge. lia.
Qed.

(** *** A reference to a label that the index does not have *)

Variable pre lbl post : jsstring.
Hypothesis text_eq : text = pre ++ lit "@" ++ lbl ++ post.
Hypothesis token : matchRefAt (lit "@" ++ lbl ++ post) = Some (lbl, post).
Hypothesis not_after_word : forall pre' c, pre = pre' ++ [c] -> isWordChar c = false.
Hypothesis undeclared : map_get (labels idx) lbl = None.

Lemma drop_pre : drop (length pre) text = lit "@" ++ lbl ++ post.
Proof. rewrite text_eq. apply drop_app_length. Qed.

Lemma at_pre : text !! length pre = Some 64%N.
Proof. rewrite text_eq.  rewrite lookup_app_r by lia. rewrite Nat.sub_diag. reflexivity. Qed.

Lemma previous_not_word :
  ((0 <? length pre)
   && testWord (if 0 <? length pre then charAt text (length pre - 1) else [])) = false.
Proof.
  destruct (Nat.ltb_spec 0 (length pre)) as [Hlt|]; [|reflexivity].
  cbn [andb]. unfold charAt. rewrite text_eq, lookup_app_l by lia.
  destruct (pre !! (length pre - 1)) as [c|] eqn:Hc; [|reflexivity].
  unfold testWord. cbn [existsb]. rewrite orb_false_r.
  destruct (destruct_list_rev pre) as [Hnil|(pre' & c' & Hpre)]; [subst; simpl in *; lia|].
  rewrite Hpre in Hc. rewrite length_app in Hc. simpl in Hc.
  rewrite lookup_app_r in Hc by lia.
  replace (length pre' + 1 - 1 - length pre') with 0 in Hc by lia.
  injection Hc as <-. eapply not_after_word; eauto.
Qed.

Lemma noAt_lookup s j : noAt s = true -> s !! j <> Some 64%N.
Proof.
  unfold noAt. revert j. induction s as [|c s IH]; intros j H Hj.
  - rewrite lookup_nil in Hj. discriminate.
  - simpl in H. apply andb_true_iff in H as [Hc Hs].
    destruct j as [|j]; simpl in Hj.
    + inversion Hj; subst. discriminate.
    + exact (IH j Hs Hj).
Qed.

(** A token before the one at [length pre] ends before it. *)
Lemma earlier_token_ends atIndex lbl' rest :
  atIndex < length pre ->
  drop atIndex text = (lit "@" ++ lbl') ++ rest -> noAt lbl' = true ->
  atIndex + length (lit "@" ++ lbl') <= length pre.
Proof.
  intros Hlt Hd Hno.
  destruct (decide (atIndex + length (lit "@" ++ lbl') <= length pre)) as [|Hgt]; [assumption|].
  exfalso. simpl in Hgt.
  pose proof at_pre as Hat.
  replace (length pre) with (atIndex + S (length pre - atIndex - 1)) in Hat by lia.
  rewrite <- lookup_drop, Hd in Hat. simpl in Hat.
  rewrite lookup_app_l in Hat by lia.
  exact (noAt_lookup _ _ Hno Hat).
Qed.

(** The loop comes to the token at [length pre] and puts the missing marker
    there, after nodes that stand for [pre]. *)
Lemma replaceLoop_reaches : forall fuel lastIndex cursor fragment replaced,
  cursor <= lastIndex -> lastIndex <= length pre ->
  length text - lastIndex <= fuel ->
  fragmentText fragment = take cursor text ->
  exists fuel' fragment0,
    replaceLoop fuel text idx sourcePath lastIndex cursor fragment replaced
    = replaceLoop fuel' text idx sourcePath
        (length pre + length (lit "@" ++ lbl)) (length pre + length (lit "@" ++ lbl))
        (fragment0 ++ [(missingNode lbl)]) true /\
    fragmentText fragment0 = pre.
Proof.
  assert (Hp : length pre < length text).
  { rewrite text_eq, length_app. simpl. lia. }
  induction fuel as [|fuel IH]; intros lastIndex cursor fragment replaced Hc Hl Hfuel Hf;
    [lia|].
  destruct (regexExec_exists matchRefAt text lastIndex (length pre) lbl post)
    as (atIndex & lbl' & lastIndex' & E & Hix).
  { lia. }
  { rewrite drop_pre. exact token. }
  pose proof (exec_ref _ _ _ _ E) as (Hle & Hlt & -> & Hend & Hno & rest & Hd & Hm).
  simpl replaceLoop. rewrite E.
  destruct (decide (atIndex = length pre)) as [->|Hne].
  - rewrite drop_pre, token in Hm. injection Hm as <- <-.
    rewrite previous_not_word.
    destruct (replace_step_text fragment cursor (length pre) lbl post) as [H1 H2]; auto; [lia|].
    exists fuel. eexists. split.
    + unfold referenceNode. rewrite undeclared. reflexivity.
    + rewrite H1, text_eq. apply take_app_length.
  - assert (Hends : atIndex + length (lit "@" ++ lbl') <= length pre).
    { apply (earlier_token_ends atIndex lbl' rest); auto. lia. }
    destruct ((0 <? atIndex) && testWord _).
    + apply IH; auto; simpl in *; lia.
    + destruct (replace_step_text fragment cursor atIndex lbl' rest) as [_ H2]; auto; [lia|].
      apply IH; auto; simpl in *; lia.
Qed.

Lemma missing_marker_placed :
  exists before after,
    replaceReferencesInNode text idx sourcePath = Some (before ++ (missingNode lbl) :: after) /\
    fragmentText before = pre /\ fragmentText after = post.
Proof.
  pose proof (replaceLoop_reaches (length text) 0 0 [] false) as H.
  destruct H as (fuel' & fragment0 & Hrun & Hpre); [lia|lia|lia|reflexivity|].
  assert (Htake : fragmentText (fragment0 ++ [(missingNode lbl)])
                  = take (length pre + length (lit "@" ++ lbl)) text).
  { rewrite fragmentText_app, fragmentText_single, Hpre. simpl nodeText.
    rewrite text_eq. rewrite take_app_ge by lia.
    f_equal. replace (length pre + length (lit "@" ++ lbl) - length pre)
      with (length (lit "@" ++ lbl)) by lia.
    rewrite (app_assoc (lit "@") lbl post). rewrite take_app_length. reflexivity. }
  assert (Hin : length pre + length (lit "@" ++ lbl) <= length text).
  { rewrite text_eq, !length_app. lia. }
  destruct (replaceLoop_text fuel' _ _ _ true (le_n _) Htake Hin)
    as (extra & cursor' & replaced' & Hrun' & Htext & Hcur & Hrep).
  specialize (Hrep eq_refl). subst replaced'.
  assert (Hout : exists after,
            replaceReferencesInNode text idx sourcePath
            = Some (fragment0 ++ (missingNode lbl) :: after)).
  { unfold replaceReferencesInNode. rewrite Hrun, Hrun'. simpl.
    destruct (cursor' <? length text).
    - exists (extra ++ [TextNode (slice text cursor' (length text))]).
      rewrite <- !app_assoc. reflexivity.
    - exists extra. rewrite <- !app_assoc. reflexivity. }
  destruct Hout as [after Hout].
  exists fragment0, after. split; [exact Hout|]. split; [exact Hpre|].
  pose proof (replaceReferencesInNode_text _ Hout) as Hall.
  rewrite fragmentText_app, Hpre in Hall.
  change ((missingNode lbl) :: after) with ([(missingNode lbl)] ++ after) in Hall.
  rewrite fragmentText_app, fragmentText_single in Hall. simpl nodeText in Hall.
  rewrite text_eq in Hall.
  apply app_inv_head in Hall.
  rewrite (app_assoc (lit "@") lbl post) in Hall.
  apply app_inv_head in Hall. exact Hall.
Qed.

End References.

(** ** The claims *)

(** *** Determinism *)

Lemma parseState_fuel source fuel1 fuel2 fuel3 :
  length (splitLines source) <= fuel1 ->
  length source <= fuel2 ->
  length (splitLines source) <= fuel3 ->
  scanTheorems source (buildLineOffsets source) (splitLines source) fuel3 0
    (scanFigures source (buildLineOffsets source) fuel2 0
       (scanEquations source (buildLineOffsets source) (splitLines source) fuel1 0
          initialState))
  = parseState source.
Proof.
  intros H1 H2 H3. unfold parseState.
  rewrite (scanEquations_fuel source _ _ fuel1 (length (splitLines source))) by lia.
  rewrite (scanFigures_fuel source _ fuel2 (length source)) by lia.
  apply scanTheorems_fuel; lia.
Qed.

(** C2. Building the index twice on identical text yields identical indexes:
    the same descriptors, with the same labels, kinds, categories, numbers,
    titles and line spans, in the same order. The index is a function of the
    text alone: the fuel the three loops are given beyond what they need does
    not show in it. *)
Theorem parseCrossrefIndex_deterministic (text1 text2 : jsstring) :
  text1 = text2 ->
  parseCrossrefIndex text1 = parseCrossrefIndex text2 /\
  summaries (parseCrossrefIndex text1) = summaries (parseCrossrefIndex text2) /\
  (forall fuel1 fuel2 fuel3,
     length (splitLines text1) <= fuel1 -> length text1 <= fuel2 ->
     length (splitLines text1) <= fuel3 ->
     st_labels
       (scanTheorems text1 (buildLineOffsets text1) (splitLines text1) fuel3 0
          (scanFigures text1 (buildLineOffsets text1) fuel2 0
             (scanEquations text1 (buildLineOffsets text1) (splitLines text1) fuel1 0
                initialState)))
     = labels (parseCrossrefIndex text2)).
Proof.
  intros <-. split; [reflexivity|]. split; [reflexivity|].
  intros fuel1 fuel2 fuel3 H1 H2 H3.
  rewrite parseState_fuel by assumption. reflexivity.
Qed.

Lemma parseCrossrefIndex_deterministic_witness :
  parseCrossrefIndex threeEquations = parseCrossrefIndex threeEquations.
Proof.
  exact (proj1 (parseCrossrefIndex_deterministic threeEquations threeEquations eq_refl)).
Defined.

(** *** Duplicate declarations *)

(** A second [addLabel] of a registered label changes nothing at all. *)
Lemma addLabel_duplicate offs st lbl k a b t d :
  map_get (st_labels st) lbl = Some d -> addLabel offs st lbl k a b t = st.
Proof.
  intros H. unfold addLabel.
  assert (map_has (st_labels st) lbl = true) as ->; [|reflexivity].
  apply map_has_get. congruence.
Qed.

(** A block that declares a registered label again leaves the counters and
    all of the descriptor but its title as they were. *)
Lemma duplicate_block_keeps source offs lines i st lbl d :
  map_get (st_labels st) lbl = Some d ->
  let st' := fst (theoremBlock source offs lines i lbl st) in
  keeps lbl d st' /\
  equationCounter st' = equationCounter st /\
  figureCounter st' = figureCounter st /\
  theoremCounters st' = theoremCounters st.
Proof.
  intros H. cbv zeta. unfold theoremBlock. cbn [fst].
  rewrite (addLabel_duplicate _ _ _ _ _ _ _ _ H).
  assert (Hk : keeps lbl d st) by (exists d; split; [exact H|apply sameButTitle_refl]).
  destruct (_ && _); [|auto].
  split; [apply keeps_patch; exact Hk|].
  unfold patchFallbackTitle.
  destruct (_ && _); [|auto].
  destruct (map_get (st_labels st) lbl) as [d0|]; [|auto].
  destruct (isEmpty (title d0)); auto.
Qed.

(** C4, on the text [duplicateTheorem]: thm-a is declared on line 0 without a
    heading and closed on line 1, then declared again on line 2 in a block
    that the marker of thm-b closes. The second declaration registers nothing
    and takes no number (thm-b is Theorem 2), and the span stays that of the
    first block, but the title of the descriptor becomes the first line of
    the second block; the first block alone has an empty title. *)
Theorem duplicate_patches_first_title :
  summaries (parseCrossrefIndex duplicateTheorem)
  = [(lit "thm-a", theorem, lit "thm", 1, lit "Hello", 0%Z, 1%Z);
     (lit "thm-b", theorem, lit "thm", 2, [], 4%Z, 5%Z)] /\
  summaries (parseCrossrefIndex firstTheoremOnly)
  = [(lit "thm-a", theorem, lit "thm", 1, [], 0%Z, 1%Z)].
Proof. split; vm_compute; reflexivity. Qed.

(** *** Blocks without a close marker *)

(** C5 as stated fails: the open marker of [unterminatedTheorem] is followed
    by no marker at all, and its label is in the index. *)
Lemma unterminated_block_is_indexed :
  unterminatedAt unterminatedTheorem 0 (lit "thm-a") /\
  map_get (labels (parseCrossrefIndex unterminatedTheorem)) (lit "thm-a") <> None.
Proof.
  split.
  - exists (lit ":::{#thm-a}"). split; [reflexivity|]. split; [reflexivity|].
    intros j l' Hj Hl'.
    destruct j as [|[|j]]; [lia| |discriminate Hl'].
    injection Hl' as <-. split; reflexivity.
  - vm_compute. discriminate.
Qed.

(** C5, amended. A theorem block whose open marker is followed by neither a
    close marker nor another open marker is closed by the end of the text:
    its label is in the index, and when no earlier open marker carries the
    label, the descriptor is that of this block, from the line of the marker
    to the line of the last character of the text. *)
Theorem unterminated_block_closed_by_end source i lbl :
  (Z.of_nat (length source) < 1073741824)%Z ->
  unterminatedAt source i lbl ->
  map_get (labels (parseCrossrefIndex source)) lbl <> None /\
  (~ openedBetween (splitLines source) 0 i lbl ->
   exists d,
     map_get (labels (parseCrossrefIndex source)) lbl = Some d /\
     kind d = theorem /\
     lineStart d = Z.of_nat i /\
     lineEnd d = Z.max (Z.of_nat i)
                   (offsetToLine (buildLineOffsets source)
                      (Z.of_nat (length source) - 1))).
Proof.
  intros Hlen (l & Hi & Hs & Hplain). split.
  - eapply index_has; eauto.
  - intros Hfirst. eapply index_open_block; eauto.
Qed.

Lemma unterminated_block_closed_by_end_witness :
  map_get (labels (parseCrossrefIndex unterminatedTheorem)) (lit "thm-a") <> None /\
  (~ openedBetween (splitLines unterminatedTheorem) 0 0 (lit "thm-a") ->
   exists d,
     map_get (labels (parseCrossrefIndex unterminatedTheorem)) (lit "thm-a") = Some d /\
     kind d = theorem /\
     lineStart d = Z.of_nat 0 /\
     lineEnd d = Z.max (Z.of_nat 0)
                   (offsetToLine (buildLineOffsets unterminatedTheorem)
                      (Z.of_nat (length unterminatedTheorem) - 1))).
Proof.
  apply (unterminated_block_closed_by_end unterminatedTheorem 0 (lit "thm-a")).
  - vm_compute. reflexivity.
  - exists (lit ":::{#thm-a}"). split; [reflexivity|]. split; [reflexivity|].
    intros j l' Hj Hl'.
    destruct j as [|[|j]]; [lia| |discriminate Hl'].
    injection Hl' as <-. split; reflexivity.
Defined.

(** C6. A display-math delimiter line where the first loop looks for an
    opening delimiter (an even number of delimiter lines stand before it) and
    after which no delimiter line comes is skipped: the loop goes on with the
    next line and changes nothing from there on, so that the equations of the
    text are those of the lines before that line, while the figure and
    theorem loops still run over the whole text. In [unclosedMath] the label
    line after the unclosed block registers nothing and the figure after it
    is indexed. *)
Theorem unclosed_math_skipped :
  (forall source i l,
     splitLines source !! i = Some l -> isMathDelimiter l = true ->
     (forall j l', i < j -> splitLines source !! j = Some l' ->
                   isMathDelimiter l' = false) ->
     Nat.even (delimitersFrom (splitLines source) i 0) = true ->
     (forall fuel st,
        scanEquations source (buildLineOffsets source) (splitLines source) (S fuel) i st
        = scanEquations source (buildLineOffsets source) (splitLines source) fuel (S i) st
        /\ scanEquations source (buildLineOffsets source) (splitLines source) fuel (S i) st
           = st) /\
     parseState source
     = scanTheorems source (buildLineOffsets source) (splitLines source)
         (length (splitLines source)) 0
         (scanFigures source (buildLineOffsets source) (length source) 0
            (scanEquations source (buildLineOffsets source) (take i (splitLines source))
               (length (take i (splitLines source))) 0 initialState))) /\
  summaries (parseCrossrefIndex unclosedMath)
  = [(lit "fig-a", figure, lit "fig", 1, [], 3%Z, 3%Z)].
Proof.
  split.
  - intros source i l Hi Hl Hlater Heven. split.
    + intros fuel st. eapply scanEquations_unclosed; eauto.
    + unfold parseState. do 2 f_equal.
      rewrite (scanEquations_take source _ _ i l Hi Hl Hlater) by (auto; lia).
      apply scanEquations_fuel; rewrite length_take; lia.
  - vm_compute. reflexivity.
Qed.

Lemma unclosed_math_skipped_witness :
  parseState unclosedMath
  = scanTheorems unclosedMath (buildLineOffsets unclosedMath) (splitLines unclosedMath)
      (length (splitLines unclosedMath)) 0
      (scanFigures unclosedMath (buildLineOffsets unclosedMath) (length unclosedMath) 0
         (scanEquations unclosedMath (buildLineOffsets unclosedMath)
            (take 0 (splitLines unclosedMath))
            (length (take 0 (splitLines unclosedMath))) 0 initialState)).
Proof.
  apply (proj1 unclosed_math_skipped unclosedMath 0 (lit "$$")).
  - reflexivity.
  - reflexivity.
  - intros j l' Hj Hl'.
    destruct j as [|[|[|[|j]]]]; [lia| | | |discriminate Hl'];
      injection Hl' as <-; reflexivity.
  - reflexivity.
Defined.

(** *** The cache *)

(** C8. [getCachedIndex] returns the index of the entry cached for the path,
    and leaves the plugin as it is, when that entry's fingerprint is the
    [fastHash] of the current text; when there is no entry for the path, or
    its fingerprint differs, it returns [parseCrossrefIndex] of the current
    text and puts that index with the new fingerprint in the place of the
    path's entry, the entries of other paths staying as they are. *)
Theorem getCachedIndex_spec (p : Plugin) (sourcePath source : jsstring) :
  (forall cached,
     indexCache p !! sourcePath = Some cached -> hash cached = fastHash source ->
     getCachedIndex p sourcePath source = (index cached, p)) /\
  ((forall cached,
      indexCache p !! sourcePath = Some cached -> hash cached <> fastHash source) ->
   fst (getCachedIndex p sourcePath source) = parseCrossrefIndex source /\
   indexCache (snd (getCachedIndex p sourcePath source))
   = <[sourcePath := {| hash := fastHash source; index := parseCrossrefIndex source |}]>
       (indexCache p)).
Proof.
  unfold getCachedIndex. split.
  - intros cached Hc Hh. rewrite Hc.
    assert (JS.eqb (hash cached) (fastHash source) = true) as -> by (apply eqb_eq; exact Hh).
    reflexivity.
  - intros Hmiss.
    assert (Hlog : forall msg payload,
              indexCache (if isDebugSource sourcePath
                          then debugLog p sourcePath msg payload else p)
              = indexCache p).
    { intros msg payload. unfold debugLog. destruct (isDebugSource sourcePath); reflexivity. }
    destruct (indexCache p !! sourcePath) as [cached|] eqn:Hc.
    + assert (JS.eqb (hash cached) (fastHash source) = false) as ->
        by (apply eqb_neq; apply Hmiss; reflexivity).
      cbn [fst snd indexCache]. rewrite Hlog. split; reflexivity.
    + cbn [fst snd indexCache]. rewrite Hlog. split; reflexivity.
Qed.

Lemma getCachedIndex_spec_witness :
  getCachedIndex notePlugin notePath oneEquation
  = (parseCrossrefIndex oneEquation, notePlugin).
Proof.
  apply (proj1 (getCachedIndex_spec notePlugin notePath oneEquation)
           {| hash := fastHash oneEquation; index := parseCrossrefIndex oneEquation |}).
  - vm_compute. reflexivity.
  - reflexivity.
Defined.

(** *** References to undeclared labels *)

(** C9. In a text run [pre ++ "@" ++ lbl ++ post] where the pattern matches
    [@lbl] at that place, [pre] does not end in a word character and the
    index has no [lbl], the nodes that take the place of the run are nodes
    that stand for [pre], then the missing marker, whose text is [@lbl] as
    written, then nodes that stand for [post]; and whatever a run is replaced
    by stands for the text of the run. *)
Theorem missing_reference_marker :
  (forall text idx sourcePath pre lbl post,
     text = pre ++ lit "@" ++ lbl ++ post ->
     matchRefAt (lit "@" ++ lbl ++ post) = Some (lbl, post) ->
     (forall pre' c, pre = pre' ++ [c] -> isWordChar c = false) ->
     map_get (labels idx) lbl = None ->
     exists before after,
       replaceReferencesInNode text idx sourcePath
       = Some (before
               ++ MissingSpan (lit "crossref-ref crossref-ref-missing") lbl
                    (lit "@" ++ lbl)
               :: after) /\
       fragmentText before = pre /\ fragmentText after = post) /\
  (forall text idx sourcePath ns,
     replaceReferencesInNode text idx sourcePath = Some ns -> fragmentText ns = text).
Proof.
  split.
  - intros text idx sourcePath pre lbl post Ht Hm Hw Hu.
    exact (missing_marker_placed text idx sourcePath pre lbl post Ht Hm Hw Hu).
  - intros text idx sourcePath ns. apply replaceReferencesInNode_text.
Qed.

Lemma missing_reference_marker_witness :
  exists before after,
    replaceReferencesInNode (lit "see @eq-x.") {| labels := [] |} notePath
    = Some (before
            ++ MissingSpan (lit "crossref-ref crossref-ref-missing") (lit "eq-x")
                 (lit "@" ++ lit "eq-x")
            :: after) /\
    fragmentText before = lit "see " /\ fragmentText after = lit ".".
Proof.
  apply (proj1 missing_reference_marker (lit "see @eq-x.") {| labels := [] |} notePath
           (lit "see ") (lit "eq-x") (lit ".")).
  - reflexivity.
  - reflexivity.
  - intros pre' c H.
    assert (c = 32%N) as ->; [|reflexivity].
    apply (f_equal (@rev N)) in H. rewrite rev_app_distr in H.
    vm_compute in H. injection H as H _. symmetry. exact H.
  - reflexivity.
Defined.

(** *** Line spans *)

(** C10. For a text below 2^30 characters, [offsetToLine] on its line
    offsets never returns a negative line and is monotone in the offset, and
    every descriptor of the index has [0 <= lineStart <= lineEnd]. *)
Theorem descriptor_spans_well_formed (source : jsstring) :
  (Z.of_nat (length source) < 1073741824)%Z ->
  (forall offset, (0 <= offsetToLine (buildLineOffsets source) offset)%Z) /\
  (forall o1 o2,
     (o1 <= o2)%Z ->
     (offsetToLine (buildLineOffsets source) o1
      <= offsetToLine (buildLineOffsets source) o2)%Z) /\
  (forall key d,
     In (key, d) (labels (parseCrossrefIndex source)) ->
     (0 <= lineStart d <= lineEnd d)%Z).
Proof.
  intros Hlen. split; [|split].
  - intros offset. apply offsetToLine_nonneg.
  - intros o1 o2 H.
    apply offsetToLine_mono; auto using buildLineOffsets_increasing, offsets_short.
  - intros key d H. exact (parseState_spans source Hlen key d H).
Qed.

Lemma descriptor_spans_well_formed_witness :
  (forall offset, (0 <= offsetToLine (buildLineOffsets threeEquations) offset)%Z) /\
  (forall o1 o2,
     (o1 <= o2)%Z ->
     (offsetToLine (buildLineOffsets threeEquations) o1
      <= offsetToLine (buildLineOffsets threeEquations) o2)%Z) /\
  (forall key d,
     In (key, d) (labels (parseCrossrefIndex threeEquations)) ->
     (0 <= lineStart d <= lineEnd d)%Z).
Proof.
  apply (descriptor_spans_well_formed threeEquations). vm_compute. reflexivity.
Defined.

(** *** The navigation fallback *)

(** C1 as stated fails: in the host where nothing is rendered, eq-a is known
    to the cached index, the navigation request goes through, the retry finds
    no target and nothing is scrolled into view, and the result is [true]. *)
Lemma navigation_true_without_target :
  cachedDescriptor notePlugin notePath (lit "eq-a") <> None /\
  fst (noteNavigate (lit "eq-a")) = true /\
  findTargetElement unit unit unit noteView noteRoots
    (plugin (snd (noteNavigate (lit "eq-a")))) (world (snd (noteNavigate (lit "eq-a"))))
    (lit "eq-a") tt = None /\
  countEvents isScrollIntoView (trace (snd (noteNavigate (lit "eq-a")))) = 0.
Proof.
  split; [vm_compute; discriminate|].
  split; [vm_compute; reflexivity|].
  split; vm_compute; reflexivity.
Qed.

(** * Further properties *)

(** ** Where the entries of the index come from *)

Section Provenance.

Variable source : jsstring.
Variable lineOffsets : list Z.
Variable lines : list jsstring.
Variable P : ParseState -> Prop.

(** The three calls of [addLabel], with what each loop knows at the call. *)
Hypothesis P_equation : forall st i li e l lbl,
  lines !! i = Some li -> isMathDelimiter li = true ->
  findClosing (S i) (drop (S i) lines) = Some e ->
  lines !! skipBlank (S e) (drop (S e) lines) = Some l ->
  matchEquationLabel (trim l) = Some lbl ->
  P st ->
  P (addLabel lineOffsets st lbl equation (offsetOrZero lineOffsets i)
       (offsetOrEnd source lineOffsets (S (skipBlank (S e) (drop (S e) lines)))) []).
Hypothesis P_figure : forall st index lbl rest,
  index <= length source ->
  matchFigureAt (drop index source) = Some (lbl, rest) ->
  P st ->
  P (addLabel lineOffsets st lbl figure (Z.of_nat index)
       (Z.of_nat (index + (length (drop index source) - length rest))) []).
Hypothesis P_theorem : forall st i l lbl,
  lines !! i = Some l -> matchTheoremStart (trim l) = Some lbl ->
  P st ->
  P (addLabel lineOffsets st lbl theorem (offsetOrZero lineOffsets i)
       (offsetOrEnd source lineOffsets
          (S (bs_blockEndLine (scanBlock i (S i) (drop (S i) lines) [] i))))
       (bs_title (scanBlock i (S i) (drop (S i) lines) [] i))).
Hypothesis P_patch : forall st lbl l, P st -> P (patchFallbackTitle st lbl l).

Lemma scanEquations_from : forall fuel i st,
  P st -> P (scanEquations source lineOffsets lines fuel i st).
Proof.
  induction fuel as [|fuel IH]; intros i st H; simpl; [exact H|].
  destruct (lines !! i) as [line|] eqn:Hi; [|exact H].
  destruct (isMathDelimiter line) eqn:Hd; cbn [negb]; [|apply IH; exact H].
  destruct (findClosing _ _) as [e|] eqn:He; [|apply IH; exact H].
  apply IH. unfold equationBlock.
  destruct (lines !! skipBlank (S e) (drop (S e) lines)) as [l|] eqn:Hl; [|exact H].
  destruct (matchEquationLabel (trim l)) as [lbl|] eqn:Hm; [|exact H].
  eapply P_equation; eauto.
Qed.

Lemma scanFigures_from : forall fuel lastIndex st,
  P st -> P (scanFigures source lineOffsets fuel lastIndex st).
Proof.
  induction fuel as [|fuel IH]; intros lastIndex st H; simpl; [exact H|].
  destruct (regexExec _ _ _) as [[[ix lbl] li]|] eqn:E; [|exact H].
  apply IH. apply regexExec_spec in E as (Hix & rest & Hm & -> & _).
  apply P_figure; auto. lia.
Qed.

Lemma scanTheorems_from : forall fuel i st,
  P st -> P (scanTheorems source lineOffsets lines fuel i st).
Proof.
  induction fuel as [|fuel IH]; intros i st H; cbn [scanTheorems]; [exact H|].
  destruct (lines !! i) as [line|] eqn:Hi; [|exact H].
  destruct (matchTheoremStart (trim line)) as [lbl|] eqn:Hm; [|apply IH; exact H].
  unfold theoremBlock. apply IH.
  destruct (_ && _); [apply P_patch|]; eapply P_theorem; eauto.
Qed.

End Provenance.

(** An invariant of the three calls of [addLabel] as the loops make them,
    and of the title patch, holds of the state the builder ends in. *)
Lemma parseState_from (source : jsstring) (P : ParseState -> Prop) :
  P initialState ->
  (forall st i li e l lbl,
     splitLines source !! i = Some li -> isMathDelimiter li = true ->
     findClosing (S i) (drop (S i) (splitLines source)) = Some e ->
     splitLines source !! skipBlank (S e) (drop (S e) (splitLines source)) = Some l ->
     matchEquationLabel (trim l) = Some lbl ->
     P st ->
     P (addLabel (buildLineOffsets source) st lbl equation
          (offsetOrZero (buildLineOffsets source) i)
          (offsetOrEnd source (buildLineOffsets source)
             (S (skipBlank (S e) (drop (S e) (splitLines source))))) [])) ->
  (forall st index lbl rest,
     index <= length source ->
     matchFigureAt (drop index source) = Some (lbl, rest) ->
     P st ->
     P (addLabel (buildLineOffsets source) st lbl figure (Z.of_nat index)
          (Z.of_nat (index + (length (drop index source) - length rest))) [])) ->
  (forall st i l lbl,
     splitLines source !! i = Some l -> matchTheoremStart (trim l) = Some lbl ->
     P st ->
     P (addLabel (buildLineOffsets source) st lbl theorem
          (offsetOrZero (buildLineOffsets source) i)
          (offsetOrEnd source (buildLineOffsets source)
             (S (bs_blockEndLine
                   (scanBlock i (S i) (drop (S i) (splitLines source)) [] i))))
          (bs_title (scanBlock i (S i) (drop (S i) (splitLines source)) [] i)))) ->
  (forall st lbl l, P st -> P (patchFallbackTitle st lbl l)) ->
  P (parseState source).
Proof.
  intros H0 Heq Hfig Hthm Hpatch. unfold parseState.
  apply scanTheorems_from; auto.
  apply scanFigures_from; auto.
  apply scanEquations_from; auto.
Qed.

(** ** Keys, kinds and prefixes *)

Lemma matchLabelWith_shape alts s lbl rest :
  matchLabelWith alts s = Some (lbl, rest) -> labelOver alts lbl.
Proof.
  unfold matchLabelWith.
  destruct (matchAlternatives alts s) as [[p r]|] eqn:Ha; [|discriminate].
  destruct (stripPrefix (lit "-") r) as [r'|]; [|discriminate].
  destruct (span isLabelChar r') as [name r''] eqn:Hsp.
  destruct (isEmpty name) eqn:Hn; [discriminate|].
  intros [= <- <-]. exists p, name.
  split; [eapply matchAlternatives_In; eauto|]. split; [reflexivity|].
  split; [destruct name; [discriminate|discriminate]|].
  eapply span_forall; eauto.
Qed.

Lemma equationLabel_shape s lbl :
  matchEquationLabel s = Some lbl -> labelOver [lit "eq"] lbl.
Proof.
  unfold matchEquationLabel.
  destruct (stripPrefix (lit "{#") s) as [r|]; [|discriminate].
  destruct (matchLabelWith [lit "eq"] r) as [[l r']|] eqn:Hm; [|discriminate].
  destruct (stripPrefix (lit "}") r') as [[|]|]; try discriminate.
  intros [= <-]. eapply matchLabelWith_shape; eauto.
Qed.

Lemma figureLabel_shape s lbl rest :
  matchFigureAt s = Some (lbl, rest) -> labelOver [lit "fig"] lbl.
Proof.
  unfold matchFigureAt.
  destruct (stripPrefix (lit "![") s) as [s1|]; [|discriminate].
  destruct (stripPrefix (lit "](") _) as [s2|]; [|discriminate].
  destruct (span _ s2) as [url s3].
  destruct (isEmpty url); [discriminate|].
  destruct (stripPrefix (lit ")") s3) as [s4|]; [|discriminate].
  destruct (stripPrefix (lit "{#") _) as [s5|]; [|discriminate].
  destruct (matchLabelWith [lit "fig"] s5) as [[l s6]|] eqn:Hm; [|discriminate].
  destruct (stripPrefix (lit "}") s6) as [s7|]; [|discriminate].
  intros [= <- <-]. eapply matchLabelWith_shape; eauto.
Qed.

Lemma theoremLabel_shape s lbl :
  matchTheoremStart s = Some lbl -> labelOver THEOREM_PREFIXES lbl.
Proof.
  unfold matchTheoremStart.
  destruct (stripPrefix (lit ":::") s) as [r|]; [|discriminate].
  destruct (stripPrefix (lit "{#") _) as [r'|]; [|discriminate].
  destruct (matchLabelWith THEOREM_PREFIXES r') as [[l r'']|] eqn:Hm; [|discriminate].
  destruct (stripPrefix (lit "}") r'') as [tail|]; [|discriminate].
  destruct (forallb isSpace tail); [|discriminate].
  intros [= <-]. eapply matchLabelWith_shape; eauto.
Qed.

Lemma labelOver_beforeDash alts lbl :
  forallb noDash alts = true -> labelOver alts lbl -> In (beforeDash lbl) alts.
Proof.
  intros Hnd (p & name & Hp & -> & _ & _).
  rewrite beforeDash_app; [exact Hp|].
  rewrite forallb_forall in Hnd. apply Hnd. exact Hp.
Qed.

Lemma map_get_None_keys m k : map_get m k = None -> ~ In k (List.map fst m).
Proof.
  induction m as [|[k' v'] m IH]; simpl; intros H; [tauto|].
  destruct (JS.eqb k k') eqn:E; [discriminate|].
  apply eqb_neq in E. intros [Heq|Hin]; [congruence|]. exact (IH H Hin).
Qed.

Lemma NoDup_snoc {A} (l : list A) x :
  List.NoDup l -> ~ In x l -> List.NoDup (l ++ [x]).
Proof.
  induction l as [|a l IH]; simpl; intros Hl Hx.
  - constructor; [tauto|constructor].
  - inversion Hl; subst. constructor.
    + intros Hin. apply in_app_or in Hin as [Hin|[<-|[]]]; tauto.
    + apply IH; tauto.
Qed.

Lemma entriesOk_addLabel offs st lbl k a b t :
  match k with
  | equation => labelOver [lit "eq"] lbl
  | figure => labelOver [lit "fig"] lbl
  | theorem => labelOver THEOREM_PREFIXES lbl
  end ->
  entriesOk st -> entriesOk (addLabel offs st lbl k a b t).
Proof.
  intros Hshape [[Hnd Hlab] Hcons]. unfold addLabel.
  destruct (map_has (st_labels st) lbl) eqn:Hhas; [exact (conj (conj Hnd Hlab) Hcons)|].
  apply map_has_false in Hhas.
  assert (Hgoal : forall num ls le,
    wellKeyed (st_labels st ++ [(lbl,
        {| label := lbl; kind := k; prefix := beforeDash lbl; number := num;
           title := t; lineStart := ls; lineEnd := le |})]) /\
    forall k' d', In (k', d') (st_labels st ++ [(lbl,
        {| label := lbl; kind := k; prefix := beforeDash lbl; number := num;
           title := t; lineStart := ls; lineEnd := le |})]) -> consistent d').
  { intros num ls le. split; [split|].
    - rewrite List.map_app. simpl. apply NoDup_snoc; [exact Hnd|].
      apply map_get_None_keys. exact Hhas.
    - intros k' d' Hin. apply in_app_or in Hin as [Hin|[Heq|[]]]; [eauto|].
      inversion Heq; subst. reflexivity.
    - intros k' d' Hin. apply in_app_or in Hin as [Hin|[Heq|[]]]; [eauto|].
      inversion Heq; subst. split; [reflexivity|]. simpl.
      destruct k; (split; [|exact Hshape]).
      + apply labelOver_beforeDash in Hshape; [|reflexivity].
        destruct Hshape as [<-|[]]. reflexivity.
      + apply labelOver_beforeDash in Hshape; [|reflexivity].
        destruct Hshape as [<-|[]]. reflexivity.
      + apply labelOver_beforeDash in Hshape; [exact Hshape|reflexivity]. }
  unfold entriesOk. destruct k; simpl; rewrite (map_set_new _ _ _ Hhas); apply Hgoal.
Qed.

Lemma entriesOk_patch st lbl l : entriesOk st -> entriesOk (patchFallbackTitle st lbl l).
Proof.
  intros H. unfold patchFallbackTitle.
  destruct (_ && _); [|exact H].
  destruct (map_get (st_labels st) lbl) as [d|] eqn:Hd; [|exact H].
  destruct (isEmpty (title d)); [|exact H].
  destruct H as [[Hnd Hlab] Hcons].
  set (t := trim _).
  destruct (map_set_existing _ _ _ (setTitle d t) Hd) as (l1 & l2 & Em & Es).
  unfold entriesOk. simpl. rewrite Es. rewrite Em in Hnd, Hlab, Hcons.
  assert (Hin : In (lbl, d) (l1 ++ (lbl, d) :: l2)) by (apply in_or_app; right; left; reflexivity).
  split; [split|].
  - rewrite List.map_app in *. exact Hnd.
  - intros k' d' H. apply in_app_or in H as [H|[H|H]].
    + apply Hlab. apply in_or_app. left. exact H.
    + inversion H; subst. simpl. apply (Hlab _ _ Hin).
    + apply Hlab. apply in_or_app. right. right. exact H.
  - intros k' d' H. apply in_app_or in H as [H|[H|H]].
    + eapply Hcons. apply in_or_app. left. exact H.
    + inversion H; subst. exact (Hcons _ _ Hin).
    + eapply Hcons. apply in_or_app. right. right. exact H.
Qed.

Lemma parseState_entriesOk source : entriesOk (parseState source).
Proof.
  apply parseState_from.
  - split; [split|]; simpl; [constructor|tauto|tauto].
  - intros. apply entriesOk_addLabel; auto. eapply equationLabel_shape; eauto.
  - intros. apply entriesOk_addLabel; auto. eapply figureLabel_shape; eauto.
  - intros. apply entriesOk_addLabel; auto. eapply theoremLabel_shape; eauto.
  - intros. apply entriesOk_patch; auto.
Qed.

Lemma map_get_of_In m k d :
  List.NoDup (List.map fst m) -> In (k, d) m -> map_get m k = Some d.
Proof.
  induction m as [|[k' v'] m IH]; simpl; intros Hnd Hin; [tauto|].
  inversion Hnd as [|? ? Hk' Hnd']; subst. clear Hnd. rename Hnd' into Hnd.
  destruct Hin as [Heq|Hin].
  - inversion Heq; subst. rewrite eqb_refl. reflexivity.
  - destruct (JS.eqb k k') eqn:E.
    + apply eqb_eq in E. subst k'. exfalso. apply Hk'.
      apply (in_map fst) in Hin. exact Hin.
    + auto.
Qed.

(** X1. The index is keyed by label: no label is in it twice, every entry
    stands under the label of its descriptor, and looking a label up gives
    the one descriptor registered for it. *)
Theorem index_keyed_by_label (source : jsstring) :
  List.NoDup (List.map fst (labels (parseCrossrefIndex source))) /\
  (forall k d,
     In (k, d) (labels (parseCrossrefIndex source)) <->
     map_get (labels (parseCrossrefIndex source)) k = Some d) /\
  (forall k d,
     map_get (labels (parseCrossrefIndex source)) k = Some d -> label d = k).
Proof.
  destruct (parseState_entriesOk source) as [[Hnd Hlab] _].
  unfold parseCrossrefIndex. cbn [labels].
  split; [exact Hnd|]. split.
  - intros k d. split; [apply map_get_of_In; exact Hnd|apply map_get_In].
  - intros k d H. apply Hlab. apply map_get_In. exact H.
Qed.

Lemma lookupTitle_theorem pre :
  In pre THEOREM_PREFIXES -> lookupTitle THEOREM_TITLES pre <> None.
Proof.
  intros H. unfold THEOREM_PREFIXES in H. simpl in H.
  repeat (destruct H as [<-|H]; [vm_compute; discriminate|]). destruct H.
Qed.

(** X2. In every descriptor of the index the kind, the prefix and the label
    go together: the prefix is the label up to its first hyphen; it is [eq]
    for an equation, [fig] for a figure and one of the eleven theorem
    prefixes for a theorem-like block; the label is that prefix, a hyphen and
    a non-empty name of letters, digits, [_] and [-]. So the table of titles
    has an entry for every theorem descriptor, and [descriptorDisplay] never
    falls back on its default. *)
Theorem descriptors_consistent (source : jsstring) (d : Descriptor) :
  In d (descriptors (labels (parseCrossrefIndex source))) ->
  consistent d /\
  (kind d = theorem -> lookupTitle THEOREM_TITLES (prefix d) <> None).
Proof.
  intros Hin. unfold descriptors in Hin. apply in_map_iff in Hin as ([k d'] & <- & Hin).
  destruct (parseState_entriesOk source) as [_ Hcons].
  pose proof (Hcons k d' Hin) as Hc. split; [exact Hc|].
  intros Hk. destruct Hc as [_ Hc]. simpl in *. rewrite Hk in Hc.
  apply lookupTitle_theorem. apply Hc.
Qed.

Lemma descriptors_consistent_witness :
  consistent {| label := lit "eq-b"; kind := equation; prefix := lit "eq"; number := 2;
                title := []; lineStart := 4; lineEnd := 8 |}.
Proof.
  apply (descriptors_consistent threeEquations). vm_compute. right. left. reflexivity.
Defined.

(** ** Numbers within one counter *)

Lemma sameCounter_ext d d' :
  sameCounter d d' = true -> forall e, sameCounter d e = sameCounter d' e.
Proof.
  unfold sameCounter. intros H e.
  destruct (kind d) eqn:Hk.
  - apply bool_decide_eq_true in H. rewrite H. reflexivity.
  - apply bool_decide_eq_true in H. rewrite H. reflexivity.
  - apply andb_true_iff in H as [H1 H2].
    apply bool_decide_eq_true in H1. apply eqb_eq in H2. rewrite H1, H2. reflexivity.
Qed.

Lemma filter_ext_length {A} (f g : A -> bool) l :
  (forall x, f x = g x) ->
  length (List.filter f l) = length (List.filter g l).
Proof.
  intros H. induction l as [|x l IH]; simpl; [reflexivity|].
  rewrite <- H. destruct (f x); simpl; rewrite IH; reflexivity.
Qed.

Lemma index_numbers_increase (source : jsstring) (i j : nat) (di dj : Descriptor) :
  descriptors (labels (parseCrossrefIndex source)) !! i = Some di ->
  descriptors (labels (parseCrossrefIndex source)) !! j = Some dj ->
  i < j -> sameCounter dj di = true ->
  1 <= number di /\ number di < number dj.
Proof.
  intros Hi Hj Hij Hsame.
  pose proof (rk_num _ (parseState_ranked source)) as Hrank.
  unfold parseCrossrefIndex in Hi, Hj. cbn [labels] in Hi, Hj.
  rewrite (Hrank i di Hi), (Hrank j dj Hj). unfold rankBefore.
  split; [lia|].
  set (ds := descriptors (st_labels (parseState source))) in *.
  assert (Hsplit : take j ds = take i ds ++ di :: take (j - S i) (drop (S i) ds)).
  { rewrite <- (take_drop i (take j ds)). rewrite take_take, Nat.min_l by lia.
    f_equal. rewrite drop_take_sub by lia.
    rewrite (drop_S _ _ _ Hi). replace (j - i) with (S (j - S i)) by lia. reflexivity. }
  rewrite Hsplit, filter_app_length. simpl. rewrite Hsame. simpl.
  rewrite (filter_ext_length _ _ (take i ds) (sameCounter_ext _ _ Hsame)). lia.
Qed.



(** ** Spans and the lines of the text *)

Lemma last_cons_default {A} (l : list A) a d : List.last (a :: l) d = List.last l a.
Proof.
  revert a d. induction l as [|b l IH]; intros a d; [reflexivity|].
  change (List.last (a :: b :: l) d) with (List.last (b :: l) d).
  rewrite (IH b d). symmetry. apply (IH b a).
Qed.

Lemma last_nonempty_default {A} (l : list A) d d' :
  l <> [] -> List.last l d = List.last l d'.
Proof.
  destruct l as [|a l]; [congruence|]. intros _. rewrite !last_cons_default. reflexivity.
Qed.

(** The last line is what stands in the text after the last line start. *)
Lemma last_line_length_from : forall s i,
  Z.of_nat (length (List.last (splitLines s) []))
  = (i + Z.of_nat (length s) - List.last (buildLineOffsets_from i s) i)%Z.
Proof.
  induction s as [|c s IH]; intros i; [simpl; lia|].
  cbn [splitLines buildLineOffsets_from]. unfold LF.
  destruct (N.eqb_spec c 10) as [->|Hc].
  - rewrite !last_cons_default.
    rewrite (IH (i + 1)%Z). cbn [length]. lia.
  - destruct (N.eqb c CR && startsWithLF s) eqn:Hcr.
    + rewrite (IH (i + 1)%Z).
      assert (Hne : buildLineOffsets_from (i + 1) s <> []).
      { apply andb_true_iff in Hcr as [_ Hlf]. destruct s as [|c' s]; [discriminate|].
        simpl in Hlf |- *. unfold LF in Hlf. rewrite Hlf. discriminate. }
      rewrite (last_nonempty_default _ i (i + 1)%Z Hne). cbn [length]. lia.
    + pose proof (splitLines_length s (i + 1)%Z) as Hlen.
      destruct (splitLines s) as [|l ls] eqn:Hs; [simpl in Hlen; lia|].
      destruct ls as [|l' ls].
      * simpl in Hlen.
        destruct (buildLineOffsets_from (i + 1) s) eqn:Ho; [|simpl in Hlen; lia].
        specialize (IH (i + 1)%Z). rewrite ?Hs, ?Ho in IH. simpl in IH. simpl. lia.
      * assert (Hne : buildLineOffsets_from (i + 1) s <> []).
        { destruct (buildLineOffsets_from (i + 1) s); [simpl in Hlen; lia|discriminate]. }
        rewrite (last_nonempty_default _ i (i + 1)%Z Hne).
        specialize (IH (i + 1)%Z). rewrite ?Hs in IH.
        rewrite !last_cons_default in IH. rewrite !last_cons_default.
        rewrite IH. cbn [length]. lia.
Qed.

Lemma last_lookup_default {A} (l : list A) d x :
  l !! (length l - 1) = Some x -> List.last l d = x.
Proof.
  revert d. induction l as [|a l IH]; intros d H.
  - rewrite lookup_nil in H. discriminate.
  - destruct l as [|b l].
    + simpl in H. injection H as ->. reflexivity.
    + change (List.last (a :: b :: l) d) with (List.last (b :: l) d).
      apply IH. cbn [length] in H |- *.
      replace (S (S (length l)) - 1) with (S (length l - 0)) in H by lia.
      replace (S (length l) - 1) with (length l - 0) by lia. exact H.
Qed.

(** The start of the last line and its length add up to the length of the
    text. *)
Lemma last_line_length source n l a :
  n = length (splitLines source) - 1 ->
  splitLines source !! n = Some l -> buildLineOffsets source !! n = Some a ->
  (a + Z.of_nat (length l) = Z.of_nat (length source))%Z.
Proof.
  intros -> Hl Ha.
  pose proof (last_line_length_from source 0%Z) as H.
  rewrite (last_lookup_default _ [] l Hl) in H.
  assert (List.last (buildLineOffsets_from 0 source) 0%Z = a); [|lia].
  rewrite lines_offsets_length in Ha.
  pose proof (last_lookup_default (buildLineOffsets source) 0%Z a Ha) as Hlast.
  unfold buildLineOffsets in Hlast. rewrite last_cons_default in Hlast. exact Hlast.
Qed.

(** The line of the last character of line [m], when line [m] is not empty. *)
Lemma offsetToLine_line_end source m l a a0 :
  (Z.of_nat (length source) < 1073741824)%Z ->
  splitLines source !! m = Some l -> l <> [] ->
  buildLineOffsets source !! m = Some a -> (a0 <= a)%Z ->
  offsetToLine (buildLineOffsets source)
    (Z.max a0 (offsetOrEnd source (buildLineOffsets source) (S m) - 1))
  = Z.of_nat m.
Proof.
  intros Hlen Hl Hne Ha Ha0.
  assert (Hm : m < length (splitLines source)) by (eapply lookup_lt_Some; eauto).
  unfold offsetOrEnd.
  destruct (Nat.ltb_spec (S m) (length (buildLineOffsets source))) as [Hlt|Hge].
  - destruct (lookup_lt_is_Some_2 _ _ Hlt) as [b Hb]. rewrite Hb.
    change (default 0%Z (Some b)) with b.
    assert (a < b)%Z by (eapply (buildLineOffsets_increasing source m (S m)); eauto).
    replace (Z.max a0 (b - 1)) with (b - 1)%Z by lia.
    apply (offsetToLine_exact _ _ m a);
      auto using buildLineOffsets_increasing, offsets_short; [lia|].
    intros b' Hb'. rewrite Hb in Hb'. inversion Hb'. lia.
  - rewrite <- lines_offsets_length in Hge.
    pose proof (last_line_length source m l a ltac:(lia) Hl Ha) as Hlast.
    rewrite <- Hlast.
    assert (0 < length l) by (destruct l; [congruence|simpl; lia]).
    replace (Z.max a0 (a + Z.of_nat (length l) - 1)) with (a + Z.of_nat (length l) - 1)%Z
      by lia.
    apply (offsetToLine_exact _ _ m a);
      auto using buildLineOffsets_increasing, offsets_short; [lia|].
    intros b' Hb'. apply lookup_lt_Some in Hb'. rewrite <- lines_offsets_length in Hb'. lia.
Qed.

Lemma offsetToLine_range offs offset :
  increasing offs -> (Z.of_nat (length offs) <= 1073741824)%Z -> offs <> [] ->
  (0 <= offsetToLine offs offset < Z.of_nat (length offs))%Z.
Proof.
  intros Hinc Hlen Hne. unfold offsetToLine.
  destruct (offsetToLine_spec offs offset Hinc Hlen) as (Hr & _).
  cbv zeta in Hr. destruct offs; [congruence|]. simpl length in *. lia.
Qed.

(** ** Every descriptor stands for a construct of the text *)

(** What [addLabel] may have added. *)
Lemma addLabel_In offs st lbl k a b t key d :
  In (key, d) (st_labels (addLabel offs st lbl k a b t)) ->
  In (key, d) (st_labels st) \/
  (key = lbl /\ label d = lbl /\ kind d = k /\ prefix d = beforeDash lbl /\ title d = t /\
   lineStart d = offsetToLine offs a /\
   lineEnd d = offsetToLine offs (Z.max a (b - 1))).
Proof.
  unfold addLabel. destruct (map_has (st_labels st) lbl); [auto|].
  intros Hin. simpl in Hin. apply In_map_set in Hin as [Hin|Heq].
  - left. destruct k; exact Hin.
  - right. inversion Heq; subst. simpl. repeat split; reflexivity.
Qed.

(** What the title patch leaves of an entry. *)
Lemma patch_In st lbl l key d :
  In (key, d) (st_labels (patchFallbackTitle st lbl l)) ->
  exists d0, In (key, d0) (st_labels st) /\ sameButTitle d0 d.
Proof.
  unfold patchFallbackTitle.
  destruct (_ && _); [|intros H; exists d; split; [exact H|apply sameButTitle_refl]].
  destruct (map_get (st_labels st) lbl) as [d1|] eqn:Hd;
    [|intros H; exists d; split; [exact H|apply sameButTitle_refl]].
  destruct (isEmpty (title d1));
    [|intros H; exists d; split; [exact H|apply sameButTitle_refl]].
  simpl. intros Hin. apply In_map_set in Hin as [Hin|Heq].
  - exists d. split; [exact Hin|apply sameButTitle_refl].
  - inversion Heq; subst. exists d1. split; [apply map_get_In; exact Hd|].
    repeat split.
Qed.

Section Sound.

Variable source : jsstring.
Hypothesis short : (Z.of_nat (length source) < 1073741824)%Z.

(** An invariant of the entries that the title does not enter into,
    established by each call of [addLabel] for the entry it adds. *)
Variable Q : Descriptor -> Prop.
Hypothesis Q_title : forall d d', sameButTitle d d' -> Q d -> Q d'.
Hypothesis Q_equation : forall d i li e l,
  splitLines source !! i = Some li -> isMathDelimiter li = true ->
  findClosing (S i) (drop (S i) (splitLines source)) = Some e ->
  splitLines source !! skipBlank (S e) (drop (S e) (splitLines source)) = Some l ->
  matchEquationLabel (trim l) = Some (label d) ->
  kind d = equation ->
  lineStart d = offsetToLine (buildLineOffsets source)
                  (offsetOrZero (buildLineOffsets source) i) ->
  lineEnd d = offsetToLine (buildLineOffsets source)
                (Z.max (offsetOrZero (buildLineOffsets source) i)
                   (offsetOrEnd source (buildLineOffsets source)
                      (S (skipBlank (S e) (drop (S e) (splitLines source)))) - 1)) ->
  Q d.
Hypothesis Q_figure : forall d index rest,
  index <= length source ->
  matchFigureAt (drop index source) = Some (label d, rest) ->
  kind d = figure ->
  lineStart d = offsetToLine (buildLineOffsets source) (Z.of_nat index) ->
  lineEnd d = offsetToLine (buildLineOffsets source)
                (Z.max (Z.of_nat index)
                   (Z.of_nat (index + (length (drop index source) - length rest)) - 1)) ->
  Q d.
Hypothesis Q_theorem : forall d i l,
  splitLines source !! i = Some l -> matchTheoremStart (trim l) = Some (label d) ->
  kind d = theorem ->
  lineStart d = offsetToLine (buildLineOffsets source)
                  (offsetOrZero (buildLineOffsets source) i) ->
  lineEnd d = offsetToLine (buildLineOffsets source)
                (Z.max (offsetOrZero (buildLineOffsets source) i)
                   (offsetOrEnd source (buildLineOffsets source)
                      (S (bs_blockEndLine
                            (scanBlock i (S i) (drop (S i) (splitLines source)) [] i)))
                    - 1)) ->
  Q d.

Lemma parseState_sound :
  forall key d, In (key, d) (st_labels (parseState source)) -> Q d.
Proof.
  apply (parseState_from source (fun st => forall key d, In (key, d) (st_labels st) -> Q d)).
  - intros key d [].
  - intros st i li e l lbl Hi Hd He Hl Hm IH key d Hin.
    apply addLabel_In in Hin as [Hin|(-> & Hlab & Hk & _ & _ & Hls & Hle)]; [eauto|].
    apply (Q_equation d i li e l); auto. rewrite Hlab. exact Hm.
  - intros st index lbl rest Hix Hm IH key d Hin.
    apply addLabel_In in Hin as [Hin|(-> & Hlab & Hk & _ & _ & Hls & Hle)]; [eauto|].
    apply (Q_figure d index rest); auto. rewrite Hlab. exact Hm.
  - intros st i l lbl Hi Hm IH key d Hin.
    apply addLabel_In in Hin as [Hin|(-> & Hlab & Hk & _ & _ & Hls & Hle)]; [eauto|].
    apply (Q_theorem d i l); auto. rewrite Hlab. exact Hm.
  - intros st lbl l IH key d Hin.
    apply patch_In in Hin as (d0 & Hin & Hsame). eapply Q_title; eauto.
Qed.

End Sound.

Lemma skipBlank_blank : forall rest j n l,
  j + n < skipBlank j rest -> rest !! n = Some l -> trim l = [].
Proof.
  induction rest as [|l0 rest IH]; intros j n l H Hn; simpl in *.
  - lia.
  - destruct (isEmpty (trim l0)) eqn:Hl0; [|lia].
    destruct n as [|n]; simpl in Hn.
    + injection Hn as <-. destruct (trim l0); [reflexivity|discriminate].
    + apply (IH (S j) n l); [lia|exact Hn].
Qed.

Lemma matchEquationLabel_nonempty s lbl : matchEquationLabel s = Some lbl -> s <> [].
Proof. intros H ->. discriminate. Qed.

Lemma trim_nonempty l : trim l <> [] -> l <> [].
Proof. intros H ->. apply H. reflexivity. Qed.

Lemma standsFor_title source d d' : sameButTitle d d' -> standsFor source d -> standsFor source d'.
Proof.
  intros (Hl & Hk & _ & _ & Hs & He). unfold standsFor.
  rewrite <- Hk, <- Hl, <- Hs, <- He. auto.
Qed.

Lemma parseState_standsFor source :
  (Z.of_nat (length source) < 1073741824)%Z ->
  forall key d, In (key, d) (st_labels (parseState source)) -> standsFor source d.
Proof.
  intros Hlen. apply parseState_sound.
  - apply standsFor_title.
  - intros d i li e l Hi Hd He Hl Hm Hk Hls Hle. unfold standsFor. rewrite Hk.
    set (m := skipBlank (S e) (drop (S e) (splitLines source))) in *.
    destruct (findClosing_spec _ _ _ He) as (Hie & (le & Hle' & Hdle) & Hbefore).
    rewrite lookup_drop in Hle'. replace (S i + (e - S i)) with e in Hle' by lia.
    pose proof (skipBlank_ge (drop (S e) (splitLines source)) (S e)) as Hm'. fold m in Hm'.
    assert (Hi' : i < length (buildLineOffsets source)).
    { rewrite <- lines_offsets_length. eapply lookup_lt_Some; eauto. }
    destruct (lookup_lt_is_Some_2 _ _ Hi') as [a Ha].
    assert (Hml : m < length (buildLineOffsets source)).
    { rewrite <- lines_offsets_length. eapply lookup_lt_Some; eauto. }
    destruct (lookup_lt_is_Some_2 _ _ Hml) as [am Ham].
    unfold offsetOrZero in Hls, Hle. rewrite Ha in Hls, Hle.
    change (default 0%Z (Some a)) with a in Hls, Hle.
    exists i, e, m, li, le, l.
    split; [rewrite Hls; apply offsetToLine_line_start; auto|].
    split.
    { rewrite Hle. apply (offsetToLine_line_end source m l am a); auto.
      - apply trim_nonempty. eapply matchEquationLabel_nonempty; eauto.
      - eapply (offsets_le source i m); eauto. lia. }
    split; [lia|]. split; [exact Hi|]. split; [exact Hd|].
    split; [exact Hle'|]. split; [exact Hdle|]. split.
    { intros j lj Hj Hlj. apply (Hbefore (j - S i)); [lia|].
      rewrite lookup_drop. replace (S i + (j - S i)) with j by lia. exact Hlj. }
    split; [|split; [exact Hl|exact Hm]].
    intros j lj Hj Hlj.
    apply (skipBlank_blank (drop (S e) (splitLines source)) (S e) (j - S e)).
    + fold m. lia.
    + rewrite lookup_drop. replace (S e + (j - S e)) with j by lia. exact Hlj.
  - intros d index rest Hix Hm Hk Hls Hle. unfold standsFor. rewrite Hk.
    exists index, rest. split; [exact Hix|]. split; [exact Hm|]. split; [exact Hls|].
    rewrite Hle. f_equal.
    pose proof (matchFigureAt_shorter _ _ _ Hm) as Hsh. rewrite length_drop in *. lia.
  - intros d i l Hi Hm Hk Hls Hle. unfold standsFor. rewrite Hk.
    exists i, l. split; [|auto].
    assert (Hi' : i < length (buildLineOffsets source)).
    { rewrite <- lines_offsets_length. eapply lookup_lt_Some; eauto. }
    destruct (lookup_lt_is_Some_2 _ _ Hi') as [a Ha].
    rewrite Hls. unfold offsetOrZero. rewrite Ha. apply offsetToLine_line_start; auto.
Qed.

Lemma parseState_within source :
  (Z.of_nat (length source) < 1073741824)%Z ->
  forall key d, In (key, d) (st_labels (parseState source)) ->
    (lineEnd d < Z.of_nat (length (splitLines source)))%Z.
Proof.
  intros Hlen.
  assert (Hr : forall o, (offsetToLine (buildLineOffsets source) o
                          < Z.of_nat (length (splitLines source)))%Z).
  { intros o. rewrite lines_offsets_length.
    apply offsetToLine_range; auto using buildLineOffsets_increasing, offsets_short.
    all: try discriminate. }
  apply (parseState_closed source
           (fun st => forall key d, In (key, d) (st_labels st) ->
              (lineEnd d < Z.of_nat (length (splitLines source)))%Z)).
  - intros key d [].
  - intros st lbl k a b t IH key d Hin.
    apply addLabel_In in Hin as [Hin|(_ & _ & _ & _ & _ & _ & ->)]; [eauto|apply Hr].
  - intros st lbl l IH key d Hin.
    apply patch_In in Hin as (d0 & Hin & (_ & _ & _ & _ & _ & <-)). eauto.
Qed.

(** X4. For a text below 2^30 characters every descriptor of the index
    stands for a construct of its kind in the text. An equation spans from a
    delimiter line, over the first delimiter line after it and nothing but
    blank lines, to the line that holds its label token. A figure is an
    occurrence of the figure pattern with its label, from the line of its
    first character to the line of its last. A theorem-like descriptor
    starts on a line that is an open marker with its label. No span reaches
    beyond the last line. *)
Theorem descriptors_stand_for_text (source : jsstring) (d : Descriptor) :
  (Z.of_nat (length source) < 1073741824)%Z ->
  In d (descriptors (labels (parseCrossrefIndex source))) ->
  standsFor source d /\
  (lineEnd d < Z.of_nat (length (splitLines source)))%Z.
Proof.
  intros Hlen Hin. unfold descriptors in Hin. apply in_map_iff in Hin as ([k d'] & <- & Hin).
  split.
  - exact (parseState_standsFor source Hlen k d' Hin).
  - exact (parseState_within source Hlen k d' Hin).
Qed.

Lemma descriptors_stand_for_text_witness :
  standsFor threeEquations
    {| label := lit "eq-b"; kind := equation; prefix := lit "eq"; number := 2;
       title := []; lineStart := 4; lineEnd := 8 |} /\
  (lineEnd {| label := lit "eq-b"; kind := equation; prefix := lit "eq"; number := 2;
              title := []; lineStart := 4; lineEnd := 8 |}
   < Z.of_nat (length (splitLines threeEquations)))%Z.
Proof.
  apply (descriptors_stand_for_text threeEquations).
  - vm_compute. reflexivity.
  - vm_compute. right. left. reflexivity.
Defined.

(** ** Theorem blocks: first marker, close marker, heading *)

Lemma marker_before_dec (lines : list jsstring) (lbl : jsstring) : forall n,
  openedBetween lines 0 n lbl \/ ~ openedBetween lines 0 n lbl.
Proof.
  induction n as [|n IH].
  - right. intros (j & l & Hj & _). lia.
  - destruct IH as [(j & l & Hj & Hl & Hm)|Hno].
    + left. exists j, l. split; [lia|auto].
    + destruct (lines !! n) as [l|] eqn:Hl.
      * destruct (decide (matchTheoremStart (trim l) = Some lbl)) as [Hm|Hm].
        -- left. exists n, l. split; [lia|auto].
        -- right. intros (j & l' & Hj & Hl' & Hm').
           destruct (decide (j = n)) as [->|Hne].
           ++ rewrite Hl in Hl'. injection Hl' as <-. exact (Hm Hm').
           ++ apply Hno. exists j, l'. split; [lia|auto].
      * right. intros (j & l' & Hj & Hl' & Hm').
        destruct (decide (j = n)) as [->|Hne]; [congruence|].
        apply Hno. exists j, l'. split; [lia|auto].
Qed.

(** The first line that is an open marker with a given label. *)
Lemma first_marker (lines : list jsstring) (lbl : jsstring) : forall i l,
  lines !! i = Some l -> matchTheoremStart (trim l) = Some lbl ->
  exists i0 l0,
    i0 <= i /\ lines !! i0 = Some l0 /\ matchTheoremStart (trim l0) = Some lbl /\
    ~ openedBetween lines 0 i0 lbl.
Proof.
  induction i as [i IH] using lt_wf_ind. intros l Hl Hm.
  destruct (marker_before_dec lines lbl i) as [(j & lj & Hj & Hlj & Hmj)|Hno].
  - destruct (IH j ltac:(lia) lj Hlj Hmj) as (i0 & l0 & Hi0 & H).
    exists i0, l0. split; [lia|exact H].
  - exists i, l. auto.
Qed.

Lemma index_kind_theorem source lbl s d :
  matchTheoremStart s = Some lbl ->
  map_get (labels (parseCrossrefIndex source)) lbl = Some d ->
  kind d = theorem /\ label d = lbl.
Proof.
  intros Hm Hd.
  destruct (parseState_entriesOk source) as [[_ Hlab] Hcons].
  assert (Hin : In (lbl, d) (st_labels (parseState source)))
    by (apply map_get_In; exact Hd).
  pose proof (Hlab _ _ Hin) as Hl.
  destruct (Hcons _ _ Hin) as [Hpre Hk].
  split; [|exact Hl].
  apply theoremLabel_prefix in Hm. rewrite <- Hl, <- Hpre in Hm.
  destruct (kind d); [| |reflexivity]; destruct Hk as [Hp _]; rewrite Hp in Hm;
    unfold THEOREM_PREFIXES in Hm; simpl in Hm;
    repeat (destruct Hm as [Hm|Hm]; [discriminate Hm|]); destruct Hm.
Qed.

(** X5. Every line that is an open marker has its label in the index, with
    a descriptor of kind theorem; for a text below 2^30 characters that
    descriptor starts on the first line that is an open marker with this
    label. *)
Theorem open_marker_is_registered (source : jsstring) (i : nat) (l lbl : jsstring) :
  splitLines source !! i = Some l -> matchTheoremStart (trim l) = Some lbl ->
  exists d,
    map_get (labels (parseCrossrefIndex source)) lbl = Some d /\
    kind d = theorem /\ label d = lbl /\
    ((Z.of_nat (length source) < 1073741824)%Z ->
     exists i0 l0,
       lineStart d = Z.of_nat i0 /\ i0 <= i /\
       splitLines source !! i0 = Some l0 /\
       matchTheoremStart (trim l0) = Some lbl /\
       ~ openedBetween (splitLines source) 0 i0 lbl).
Proof.
  intros Hi Hm.
  destruct (map_get (labels (parseCrossrefIndex source)) lbl) as [d|] eqn:Hd;
    [|exfalso; exact (index_has source i l lbl Hi Hm Hd)].
  destruct (index_kind_theorem source lbl (trim l) d Hm Hd) as [Hk Hl].
  exists d. split; [reflexivity|]. split; [exact Hk|]. split; [exact Hl|].
  intros Hlen.
  destruct (first_marker (splitLines source) lbl i l Hi Hm) as (i0 & l0 & Hi0 & Hl0 & Hm0 & Hfirst).
  destruct (index_registers source i0 l0 lbl Hlen Hl0 Hm0 Hfirst)
    as (d' & a & Hd' & _ & _ & Hls & _).
  rewrite Hd in Hd'. injection Hd' as <-.
  exists i0, l0. auto.
Qed.

Lemma open_marker_is_registered_witness :
  exists d,
    map_get (labels (parseCrossrefIndex duplicateTheorem)) (lit "thm-a") = Some d /\
    kind d = theorem /\ label d = lit "thm-a" /\
    ((Z.of_nat (length duplicateTheorem) < 1073741824)%Z ->
     exists i0 l0,
       lineStart d = Z.of_nat i0 /\ i0 <= 2 /\
       splitLines duplicateTheorem !! i0 = Some l0 /\
       matchTheoremStart (trim l0) = Some (lit "thm-a") /\
       ~ openedBetween (splitLines duplicateTheorem) 0 i0 (lit "thm-a")).
Proof.
  apply (open_marker_is_registered duplicateTheorem 2 (lit ":::{#thm-a}")).
  - reflexivity.
  - reflexivity.
Defined.

Section Blocks.

Variable lines : list jsstring.

(** The block opened on line [i] with plain lines up to the close marker on
    line [cursor + n]: closed there. *)
Lemma scanBlock_explicit : forall rest i cursor ttl bel n l,
  rest !! n = Some l -> testTheoremEnd (trim l) = true ->
  (forall j l', j < n -> rest !! j = Some l' -> plainLine l') ->
  let b := scanBlock i cursor rest ttl bel in
  bs_cursor b = cursor + n /\
  bs_blockEndLine b = cursor + n /\
  implicitClosedByNextStart b = false.
Proof.
  induction rest as [|current rest IH]; intros i cursor ttl bel n l Hn He Hplain; simpl.
  - rewrite lookup_nil in Hn. discriminate.
  - destruct n as [|n]; simpl in Hn.
    + injection Hn as ->. rewrite He. simpl. rewrite Nat.add_0_r. auto.
    + destruct (Hplain 0 current) as [He0 Hst]; [lia|reflexivity|].
      rewrite He0, Hst.
      match goal with |- context [scanBlock _ _ _ ?t _] =>
        specialize (IH i (S cursor) t cursor n l Hn He) end.
      cbv zeta in IH. destruct IH as (H1 & H2 & H3).
      * intros j l' Hj Hl'. apply (Hplain (S j)); [lia|exact Hl'].
      * rewrite H1, H2, H3. repeat split; lia.
Qed.

(** A title, once found, stays. *)
Lemma scanBlock_title_kept : forall rest i cursor ttl bel,
  ttl <> [] -> bs_title (scanBlock i cursor rest ttl bel) = ttl.
Proof.
  induction rest as [|current rest IH]; intros i cursor ttl bel Hne; simpl; [reflexivity|].
  assert (isEmpty ttl = false) as -> by (destruct ttl; [congruence|reflexivity]).
  destruct (testTheoremEnd _); [reflexivity|].
  destruct (testTheoremStart _); [reflexivity|].
  apply IH. exact Hne.
Qed.

(** The first heading with text, on a body line before any marker, is the
    title of the block. *)
Lemma scanBlock_title : forall rest i cursor bel n l g,
  rest !! n = Some l -> matchHeading l = Some g -> trim g <> [] ->
  (forall j l', j <= n -> rest !! j = Some l' -> plainLine l') ->
  (forall j l' g', j < n -> rest !! j = Some l' -> matchHeading l' = Some g' ->
                   trim g' = []) ->
  bs_title (scanBlock i cursor rest [] bel) = trim g.
Proof.
  induction rest as [|current rest IH]; intros i cursor bel n l g Hn Hh Hg Hplain Hnone.
  - rewrite lookup_nil in Hn. discriminate.
  - destruct (Hplain 0 current) as [He0 Hst]; [lia|reflexivity|].
    cbn [scanBlock isEmpty]. rewrite He0, Hst.
    destruct n as [|n]; simpl in Hn.
    + injection Hn as ->. rewrite Hh. apply scanBlock_title_kept. exact Hg.
    + assert (Hcur : match matchHeading current with Some g0 => trim g0 | None => [] end = []).
      { destruct (matchHeading current) as [g0|] eqn:Hg0; [|reflexivity].
        apply (Hnone 0 current g0); [lia|reflexivity|exact Hg0]. }
      rewrite Hcur.
      apply (IH i (S cursor) cursor n l g Hn Hh Hg).
      * intros j l' Hj Hl'. apply (Hplain (S j)); [lia|exact Hl'].
      * intros j l' g' Hj Hl' Hg'. apply (Hnone (S j) l' g'); [lia|exact Hl'|exact Hg'].
Qed.

End Blocks.

(** A descriptor with a title is out of reach of the title patch. *)
Lemma titled_patch key d st lbl l :
  title d <> [] -> map_get (st_labels st) key = Some d ->
  map_get (st_labels (patchFallbackTitle st lbl l)) key = Some d.
Proof.
  intros Ht H. unfold patchFallbackTitle.
  destruct (_ && _); [|exact H].
  destruct (map_get (st_labels st) lbl) as [d1|] eqn:Hd; [|exact H].
  destruct (isEmpty (title d1)) eqn:He; [|exact H].
  simpl. destruct (decide (lbl = key)) as [->|Hne].
  - rewrite H in Hd. injection Hd as <-. destruct (title d); [congruence|discriminate].
  - rewrite map_get_set_ne by exact Hne. exact H.
Qed.

Lemma scanTheorems_titled source offs lines key d : forall fuel i st,
  title d <> [] -> map_get (st_labels st) key = Some d ->
  map_get (st_labels (scanTheorems source offs lines fuel i st)) key = Some d.
Proof.
  intros fuel i st Ht H.
  apply (scanTheorems_closed source offs lines
           (fun st => map_get (st_labels st) key = Some d)); auto.
  - intros. apply addLabel_get_kept. assumption.
  - intros. apply titled_patch; assumption.
Qed.

(** The title that the block opened on line [i] finds is the title of its
    descriptor when its label is new. *)
Lemma scanTheorems_title source offs lines fuel st i l lbl :
  lines !! i = Some l -> matchTheoremStart (trim l) = Some lbl ->
  length lines <= fuel ->
  onlyEqFig st ->
  ~ openedBetween lines 0 i lbl ->
  bs_title (scanBlock i (S i) (drop (S i) lines) [] i) <> [] ->
  exists d,
    map_get (st_labels (scanTheorems source offs lines fuel 0 st)) lbl = Some d /\
    title d = bs_title (scanBlock i (S i) (drop (S i) lines) [] i).
Proof.
  intros Hi Hs Hfuel Hst Hfirst Ht.
  destruct (scanTheorems_visit source offs lines fuel 0 st i l lbl Hi Hs)
    as (fuel' & st' & E & Hf & Hkeys); [lia|lia|].
  rewrite E.
  assert (Hnew : map_get (st_labels st') lbl = None).
  { destruct (map_get (st_labels st') lbl) eqn:Hg; [|reflexivity].
    exfalso. destruct (Hkeys lbl) as [H|H]; [congruence| |exact (Hfirst H)].
    apply H. eapply onlyEqFig_not_theorem; eauto. }
  destruct fuel' as [|fuel']; [apply lookup_lt_Some in Hi; lia|].
  cbn [scanTheorems]. rewrite Hi, Hs. unfold theoremBlock.
  set (b := scanBlock i (S i) (drop (S i) lines) [] i) in *.
  assert (isEmpty (bs_title b) = false) as ->
    by (destruct (bs_title b); [congruence|reflexivity]).
  rewrite andb_false_r.
  destruct (addLabel_get_new offs st' lbl theorem (offsetOrZero offs i)
              (offsetOrEnd source offs (S (bs_blockEndLine b))) (bs_title b) Hnew)
    as [num Hget].
  eexists. split.
  - apply scanTheorems_titled; [|exact Hget]. exact Ht.
  - reflexivity.
Qed.

Lemma testTheoremEnd_nonempty s : testTheoremEnd s = true -> s <> [].
Proof. intros H ->. discriminate. Qed.

(** The block opened on line [i] and closed by the close marker on line
    [c]. *)
Lemma index_explicit_close (source : jsstring) (i c : nat) (l lc lbl : jsstring) :
  (Z.of_nat (length source) < 1073741824)%Z ->
  splitLines source !! i = Some l -> matchTheoremStart (trim l) = Some lbl ->
  splitLines source !! c = Some lc -> testTheoremEnd (trim lc) = true ->
  i < c ->
  (forall j lj, i < j < c -> splitLines source !! j = Some lj -> plainLine lj) ->
  ~ openedBetween (splitLines source) 0 i lbl ->
  exists d,
    map_get (labels (parseCrossrefIndex source)) lbl = Some d /\
    kind d = theorem /\
    lineStart d = Z.of_nat i /\ lineEnd d = Z.of_nat c /\
    (forall h lh g,
       i < h < c -> splitLines source !! h = Some lh ->
       matchHeading lh = Some g -> trim g <> [] ->
       (forall j lj g', i < j < h -> splitLines source !! j = Some lj ->
                        matchHeading lj = Some g' -> trim g' = []) ->
       title d = trim g).
Proof.
  intros Hlen Hi Hs Hc He Hic Hplain Hfirst.
  destruct (index_registers source i l lbl Hlen Hi Hs Hfirst)
    as (d & a & Hd & Ha & Hkind & Hls & Hle).
  exists d. split; [exact Hd|]. split; [exact Hkind|]. split; [exact Hls|].
  destruct (scanBlock_explicit (drop (S i) (splitLines source)) i (S i) [] i (c - S i) lc)
    as (_ & Hbel & _).
  { rewrite lookup_drop. replace (S i + (c - S i)) with c by lia. exact Hc. }
  { exact He. }
  { intros j l' Hj Hl'. rewrite lookup_drop in Hl'. eapply Hplain; [|exact Hl']. lia. }
  split.
  - rewrite Hle, Hbel. replace (S i + (c - S i)) with c by lia.
    assert (Hcl : c < length (buildLineOffsets source)).
    { rewrite <- lines_offsets_length. eapply lookup_lt_Some; eauto. }
    destruct (lookup_lt_is_Some_2 _ _ Hcl) as [ac Hac].
    apply (offsetToLine_line_end source c lc ac a); auto.
    + apply trim_nonempty. apply testTheoremEnd_nonempty. exact He.
    + eapply (offsets_le source i c); eauto. lia.
  - intros h lh g Hh Hlh Hg Hne Hnone.
    assert (Ht : bs_title (scanBlock i (S i) (drop (S i) (splitLines source)) [] i) = trim g).
    { apply (scanBlock_title (drop (S i) (splitLines source)) i (S i) i (h - S i) lh g).
      - rewrite lookup_drop. replace (S i + (h - S i)) with h by lia. exact Hlh.
      - exact Hg.
      - exact Hne.
      - intros j l' Hj Hl'. rewrite lookup_drop in Hl'. eapply Hplain; [|exact Hl']. lia.
      - intros j l' g' Hj Hl' Hg'. rewrite lookup_drop in Hl'.
        eapply (Hnone (S i + j)); [lia|exact Hl'|exact Hg']. }
    destruct (scanTheorems_title source (buildLineOffsets source) (splitLines source)
                (length (splitLines source)) _ i l lbl Hi Hs (le_n _)
                (parseState_onlyEqFig_before source) Hfirst) as (d' & Hd' & Ht').
    { rewrite Ht. exact Hne. }
    unfold parseCrossrefIndex, parseState in Hd. cbn [labels] in Hd.
    rewrite Hd in Hd'. injection Hd' as <-. rewrite Ht'. exact Ht.
Qed.

(** X6. A theorem block with an open marker on line [i], a close marker on
    line [c] and nothing but body lines between them, the first to declare
    its label, in a text below 2^30 characters: its descriptor spans lines
    [i] to [c], and when a body line is a heading with text, the first such
    line gives the title. *)
Theorem closed_block_span_and_title (source : jsstring) (i c : nat)
    (l lc lbl : jsstring) :
  (Z.of_nat (length source) < 1073741824)%Z ->
  splitLines source !! i = Some l -> matchTheoremStart (trim l) = Some lbl ->
  splitLines source !! c = Some lc -> testTheoremEnd (trim lc) = true ->
  i < c ->
  (forall j lj, i < j < c -> splitLines source !! j = Some lj -> plainLine lj) ->
  ~ openedBetween (splitLines source) 0 i lbl ->
  exists d,
    map_get (labels (parseCrossrefIndex source)) lbl = Some d /\
    kind d = theorem /\
    lineStart d = Z.of_nat i /\ lineEnd d = Z.of_nat c /\
    (forall h lh g,
       i < h < c -> splitLines source !! h = Some lh ->
       matchHeading lh = Some g -> trim g <> [] ->
       (forall j lj g', i < j < h -> splitLines source !! j = Some lj ->
                        matchHeading lj = Some g' -> trim g' = []) ->
       title d = trim g).
Proof. apply index_explicit_close. Qed.

Lemma closed_block_span_and_title_witness :
  exists d,
    map_get (labels (parseCrossrefIndex closedTheorem)) (lit "def-inner") = Some d /\
    kind d = theorem /\
    lineStart d = Z.of_nat 0 /\ lineEnd d = Z.of_nat 4 /\
    (forall h lh g,
       0 < h < 4 -> splitLines closedTheorem !! h = Some lh ->
       matchHeading lh = Some g -> trim g <> [] ->
       (forall j lj g', 0 < j < h -> splitLines closedTheorem !! j = Some lj ->
                        matchHeading lj = Some g' -> trim g' = []) ->
       title d = trim g).
Proof.
  apply (closed_block_span_and_title closedTheorem 0 4
           (lit "::: {#def-inner}") (lit ":::") (lit "def-inner")).
  - vm_compute. reflexivity.
  - reflexivity.
  - reflexivity.
  - reflexivity.
  - reflexivity.
  - lia.
  - intros j lj Hj Hl.
    destruct j as [|[|[|[|j]]]]; try lia; injection Hl as <-; split; reflexivity.
  - intros (j & lj & Hj & _). lia.
Defined.

(** ** The cache over a session *)

Lemma getCachedIndex_hit p sourcePath source e :
  indexCache p !! sourcePath = Some e -> hash e = fastHash source ->
  getCachedIndex p sourcePath source = (index e, p).
Proof.
  intros He Hh. unfold getCachedIndex. rewrite He, Hh, eqb_refl. reflexivity.
Qed.

Lemma debugLog_cache p sourcePath message payload :
  indexCache (debugLog p sourcePath message payload) = indexCache p.
Proof. unfold debugLog. destruct (isDebugSource sourcePath); reflexivity. Qed.

(** The two outcomes of [getCachedIndex]. *)
Lemma getCachedIndex_cases p sourcePath source :
  (exists e, indexCache p !! sourcePath = Some e /\ hash e = fastHash source /\
             getCachedIndex p sourcePath source = (index e, p)) \/
  (fst (getCachedIndex p sourcePath source) = parseCrossrefIndex source /\
   indexCache (snd (getCachedIndex p sourcePath source))
   = <[sourcePath := {| hash := fastHash source;
                        index := parseCrossrefIndex source |}]> (indexCache p)).
Proof.
  unfold getCachedIndex.
  destruct (indexCache p !! sourcePath) as [e|] eqn:He.
  - destruct (JS.eqb (hash e) (fastHash source)) eqn:Hh.
    + left. exists e. apply eqb_eq in Hh. auto.
    + right. cbn [fst snd indexCache]. split; [reflexivity|].
      destruct (isDebugSource sourcePath); [rewrite debugLog_cache|]; reflexivity.
  - right. cbn [fst snd indexCache]. split; [reflexivity|].
    destruct (isDebugSource sourcePath); [rewrite debugLog_cache|]; reflexivity.
Qed.

(** X7. After [getCachedIndex] has answered for a path and a text, asking
    again for the same path and text gives the same index and changes
    nothing, and the entries of other paths are as they were before the
    first call. *)
Theorem getCachedIndex_settles (p : Plugin) (sourcePath source : jsstring) :
  let r := getCachedIndex p sourcePath source in
  getCachedIndex (snd r) sourcePath source = r /\
  forall other, other <> sourcePath ->
    indexCache (snd r) !! other = indexCache p !! other.
Proof.
  cbv zeta.
  destruct (getCachedIndex_cases p sourcePath source)
    as [(e & He & Hh & E)|[Hidx Hcache]].
  - rewrite E. cbn [snd]. split; [rewrite (getCachedIndex_hit p _ _ e He Hh); reflexivity|].
    reflexivity.
  - split.
    + destruct (getCachedIndex p sourcePath source) as [idx p'] eqn:E.
      cbn [fst snd] in *. subst idx.
      rewrite (getCachedIndex_hit p' sourcePath source
                 {| hash := fastHash source; index := parseCrossrefIndex source |}).
      * reflexivity.
      * rewrite Hcache. apply lookup_insert_eq.
      * reflexivity.
    + intros other Hne. rewrite Hcache. apply lookup_insert_ne. congruence.
Qed.

Lemma cacheFrom_more evs ev p : cacheFrom evs p -> cacheFrom (evs ++ [ev]) p.
Proof.
  intros H k e He. destruct (H k e He) as (src & Hin & Hh & Hi).
  exists src. rewrite in_app_iff. auto.
Qed.

Lemma cacheFrom_evict evs p k : cacheFrom evs p -> cacheFrom evs (evict p k).
Proof.
  intros H k' e He. cbn [evict indexCache] in He.
  apply lookup_delete_Some in He as [_ He]. exact (H k' e He).
Qed.

Lemma cacheFrom_handle evs p ev :
  cacheFrom evs p -> cacheFrom (evs ++ [ev]) (handleEvent p ev).
Proof.
  intros H. destruct ev as [sp src|file oldPath|file|view|file]; cbn [handleEvent].
  - destruct (getCachedIndex_cases p sp src) as [(e & He & Hh & E)|[_ Hcache]].
    + rewrite E. cbn [snd]. apply cacheFrom_more, H.
    + intros k e He. rewrite Hcache in He.
      destruct (decide (k = sp)) as [->|Hne].
      * rewrite lookup_insert_eq in He. injection He as <-.
        exists src. rewrite in_app_iff. cbn. auto.
      * rewrite lookup_insert_ne in He by congruence.
        destruct (H k e He) as (s & Hin & Hh & Hi).
        exists s. rewrite in_app_iff. auto.
  - apply cacheFrom_more. unfold onRename.
    destruct (filePath file); destruct (isEmpty oldPath);
      repeat apply cacheFrom_evict; exact H.
  - apply cacheFrom_more. unfold onDelete.
    destruct (filePath file); repeat apply cacheFrom_evict; exact H.
  - apply cacheFrom_more. unfold onEditorChange.
    destruct (filePath (mjoin view)); repeat apply cacheFrom_evict; exact H.
  - apply cacheFrom_more. unfold onFileOpen.
    destruct (filePath file); repeat apply cacheFrom_evict; exact H.
Qed.

Lemma cacheFrom_fold evs : forall done p,
  cacheFrom done p -> cacheFrom (done ++ evs) (fold_left handleEvent evs p).
Proof.
  induction evs as [|ev evs IH]; intros done p H; cbn [fold_left].
  - rewrite app_nil_r. exact H.
  - replace (done ++ ev :: evs) with ((done ++ [ev]) ++ evs)
      by (rewrite <- app_assoc; reflexivity).
    apply IH, cacheFrom_handle, H.
Qed.

Lemma cacheFrom_replay evs : cacheFrom evs (replay evs).
Proof.
  apply (cacheFrom_fold evs [] onloadPlugin).
  intros k e He. cbn in He. rewrite lookup_empty in He. discriminate.
Qed.

(** X8. Whatever requests and eviction events came since [onload], the index
    that [getCachedIndex] returns for a path and a text is the index of a
    text with the same fingerprint: of the text itself, or of a text requested
    earlier for the same path. *)
Theorem cached_index_has_same_fingerprint (evs : list CacheEvent)
    (sourcePath source : jsstring) :
  exists src,
    fastHash src = fastHash source /\
    fst (getCachedIndex (replay evs) sourcePath source) = parseCrossrefIndex src /\
    (src = source \/ In (Requested sourcePath src) evs).
Proof.
  destruct (getCachedIndex_cases (replay evs) sourcePath source)
    as [(e & He & Hh & E)|[Hidx _]].
  - destruct (cacheFrom_replay evs sourcePath e He) as (src & Hin & Hh' & Hi).
    exists src. rewrite E. cbn [fst]. split; [congruence|]. auto.
  - exists source. auto.
Qed.

Lemma evicted_lookup p ev k : evicts ev k -> indexCache (handleEvent p ev) !! k = None.
Proof.
  destruct ev as [sp src|file oldPath|file|view|file]; cbn [handleEvent evicts].
  - intros [].
  - unfold onRename. intros [[-> Hne]|Hf].
    + assert (isEmpty k = false) as -> by (destruct k; [congruence|reflexivity]).
      destruct (filePath file) as [k'|]; cbn [evict indexCache].
      * destruct (decide (k' = k)) as [->|Hd].
        -- apply lookup_delete_eq.
        -- rewrite lookup_delete_ne by exact Hd. apply lookup_delete_eq.
      * apply lookup_delete_eq.
    + rewrite Hf. cbn [evict indexCache]. apply lookup_delete_eq.
  - unfold onDelete. intros ->. apply lookup_delete_eq.
  - unfold onEditorChange. intros ->. apply lookup_delete_eq.
  - unfold onFileOpen. intros ->. apply lookup_delete_eq.
Qed.

(** X9. Right after a rename, delete, editor-change or file-open event that
    names a path, [getCachedIndex] for that path parses the text it is given,
    whatever the cache held before, and stores the result under the text's
    fingerprint. *)
Theorem eviction_forces_reparse (p : Plugin) (ev : CacheEvent)
    (sourcePath source : jsstring) :
  evicts ev sourcePath ->
  let r := getCachedIndex (handleEvent p ev) sourcePath source in
  fst r = parseCrossrefIndex source /\
  indexCache (snd r) !! sourcePath
  = Some {| hash := fastHash source; index := parseCrossrefIndex source |}.
Proof.
  intros Hev. cbv zeta.
  pose proof (evicted_lookup p ev sourcePath Hev) as Hnone.
  destruct (getCachedIndex_cases (handleEvent p ev) sourcePath source)
    as [(e & He & _)|[Hidx Hcache]]; [congruence|].
  split; [exact Hidx|]. rewrite Hcache. apply lookup_insert_eq.
Qed.

Lemma eviction_forces_reparse_witness :
  let r := getCachedIndex
             (handleEvent notePlugin (Renamed (Some {| path := lit "new.md" |}) notePath))
             notePath oneEquation in
  fst r = parseCrossrefIndex oneEquation /\
  indexCache (snd r) !! notePath
  = Some {| hash := fastHash oneEquation; index := parseCrossrefIndex oneEquation |}.
Proof.
  apply (eviction_forces_reparse notePlugin
           (Renamed (Some {| path := lit "new.md" |}) notePath) notePath oneEquation).
  left. split; [reflexivity|discriminate].
Defined.

(** ** [fastHash] *)

Local Open Scope Z_scope.

Lemma toInt32_mod z : toInt32 z mod 4294967296 = z mod 4294967296.
Proof.
  unfold toInt32.
  rewrite <- Zminus_mod_idemp_l, Z.mod_mod by lia.
  rewrite Zminus_mod_idemp_l. f_equal. lia.
Qed.

Lemma lxor_mod a b :
  Z.lxor a b mod 4294967296 = Z.lxor (a mod 4294967296) (b mod 4294967296).
Proof.
  change 4294967296 with (2 ^ 32).
  apply Z.bits_inj'. intros n Hn.
  rewrite Z.lxor_spec, !Z.testbit_mod_pow2, Z.lxor_spec by lia.
  destruct (n <? 32); reflexivity.
Qed.

Lemma shl32_mod h k :
  0 <= k -> shl32 h k mod 4294967296 = (h * 2 ^ k) mod 4294967296.
Proof.
  intros Hk. unfold shl32. rewrite toInt32_mod, Z.shiftl_mul_pow2 by exact Hk.
  rewrite <- Z.mul_mod_idemp_l, toInt32_mod, Z.mul_mod_idemp_l by lia. reflexivity.
Qed.

Lemma xor32_mod a c :
  xor32 a c mod 4294967296 = Z.lxor (a mod 4294967296) (c mod 4294967296).
Proof. unfold xor32. rewrite lxor_mod, !toInt32_mod. reflexivity. Qed.

Lemma fastHash_step_mod a a' c :
  a mod 4294967296 = a' mod 4294967296 ->
  fastHash_step a c mod 4294967296
  = (Z.lxor a' (Z.of_N c) * 16777619) mod 4294967296.
Proof.
  intros Ha. unfold fastHash_step. cbv zeta.
  set (h := xor32 a (Z.of_N c)).
  assert (Hh : h mod 4294967296 = Z.lxor a' (Z.of_N c) mod 4294967296).
  { unfold h. rewrite xor32_mod, Ha, <- lxor_mod. reflexivity. }
  rewrite <- Z.mul_mod_idemp_l, <- Hh, Z.mul_mod_idemp_l by lia.
  rewrite Z.add_mod by lia.
  rewrite (Z.add_mod (_ + _ + _ + _) (shl32 h 24)) by lia.
  rewrite (Z.add_mod (_ + _ + _) (shl32 h 8)) by lia.
  rewrite (Z.add_mod (_ + _) (shl32 h 7)) by lia.
  rewrite (Z.add_mod (shl32 h 1) (shl32 h 4)) by lia.
  rewrite !shl32_mod by lia.
  rewrite <- (Z.add_mod (h * 2 ^ 1) (h * 2 ^ 4)) by lia.
  rewrite <- (Z.add_mod (_ + _) (h * 2 ^ 7)) by lia.
  rewrite <- (Z.add_mod (_ + _ + _) (h * 2 ^ 8)) by lia.
  rewrite <- (Z.add_mod (_ + _ + _ + _) (h * 2 ^ 24)) by lia.
  rewrite <- Z.add_mod by lia.
  f_equal. change (2 ^ 1) with 2. change (2 ^ 4) with 16. change (2 ^ 7) with 128.
  change (2 ^ 8) with 256. change (2 ^ 24) with 16777216. lia.
Qed.

Lemma fastHash_fold_mod text : forall a a',
  a mod 4294967296 = a' ->
  0 <= a' < 4294967296 ->
  fold_left fastHash_step text a mod 4294967296
  = fold_left (fun h c => (Z.lxor h (Z.of_N c) * 16777619) mod 4294967296) text a'.
Proof.
  induction text as [|c text IH]; intros a a' Ha Hr; cbn [fold_left].
  - exact Ha.
  - apply IH.
    + apply fastHash_step_mod. rewrite Ha. symmetry. apply Z.mod_small. exact Hr.
    + apply Z.mod_pos_bound. lia.
Qed.

Lemma fnv1a_fold_range text : forall a,
  0 <= a < 4294967296 ->
  0 <= fold_left (fun h c => (Z.lxor h (Z.of_N c) * 16777619) mod 4294967296) text a
    < 4294967296.
Proof.
  induction text as [|c text IH]; intros b Hb; cbn [fold_left]; [exact Hb|].
  apply IH. apply Z.mod_pos_bound. lia.
Qed.

Lemma fnv1a_range text : 0 <= fnv1a text < 4294967296.
Proof. apply fnv1a_fold_range. lia. Qed.

Lemma fastHash_fnv1a text : fastHash text = toString16 (fnv1a text).
Proof.
  unfold fastHash, toUint32, fnv1a. f_equal.
  apply fastHash_fold_mod; [reflexivity|lia].
Qed.

Lemma digitValue_hexDigit d : 0 <= d < 16 -> digitValue (hexDigit d) = d.
Proof.
  intros Hd. unfold digitValue, hexDigit.
  destruct (Z.ltb_spec d 10).
  - destruct (N.ltb_spec (Z.to_N (48 + d)) 58); lia.
  - destruct (N.ltb_spec (Z.to_N (87 + d)) 58); lia.
Qed.

Lemma isHexDigit_hexDigit d : 0 <= d < 16 -> isHexDigit (hexDigit d) = true.
Proof.
  intros Hd. unfold isHexDigit, isDigit, hexDigit.
  destruct (Z.ltb_spec d 10).
  - apply orb_true_iff. left. apply andb_true_iff. split; apply N.leb_le; lia.
  - apply orb_true_iff. right. apply andb_true_iff. split; apply N.leb_le; lia.
Qed.

(** The numeral that [toHexAux] puts in front of [acc]. *)
Lemma toHexAux_spec k : forall n acc,
  0 <= n < 16 ^ Z.of_nat k -> (0 < k)%nat ->
  exists ds,
    toHexAux k n acc = ds ++ acc /\
    (1 <= length ds <= k)%nat /\
    forallb isHexDigit ds = true /\
    forall v, fold_left (fun v c => v * 16 + digitValue c) ds v
              = v * 16 ^ Z.of_nat (length ds) + n.
Proof.
  induction k as [|k IH]; intros n acc Hn Hk; [lia|].
  cbn [toHexAux].
  assert (Hd : 0 <= n mod 16 < 16) by (apply Z.mod_pos_bound; lia).
  destruct (Z.eqb_spec (n / 16) 0) as [Hz|Hnz].
  - exists [hexDigit (n mod 16)]. split; [reflexivity|]. split; [simpl; lia|].
    split; [cbn [forallb]; rewrite isHexDigit_hexDigit by exact Hd; reflexivity|].
    intros v. cbn [fold_left length]. rewrite digitValue_hexDigit by exact Hd.
    change (16 ^ Z.of_nat 1) with 16.
    pose proof (Z.div_mod n 16 ltac:(lia)). lia.
  - assert (Hq : 0 <= n / 16 < 16 ^ Z.of_nat k).
    { split; [apply Z.div_pos; lia|].
      apply Z.div_lt_upper_bound; [lia|].
      replace (Z.of_nat (S k)) with (Z.of_nat k + 1) in Hn by lia.
      rewrite Z.pow_add_r in Hn by lia. change (16 ^ 1) with 16 in Hn. lia. }
    assert (Hk' : (0 < k)%nat).
    { destruct k; [|lia]. change (16 ^ Z.of_nat 0) with 1 in Hq. lia. }
    destruct (IH (n / 16) (hexDigit (n mod 16) :: acc) Hq Hk')
      as (ds & E & Hlen & Hall & Hval).
    exists (ds ++ [hexDigit (n mod 16)]). split.
    { rewrite E, <- app_assoc. reflexivity. }
    split; [rewrite length_app; simpl; lia|].
    split.
    { rewrite forallb_app, Hall. cbn [forallb].
      rewrite isHexDigit_hexDigit by exact Hd. reflexivity. }
    intros v. rewrite fold_left_app, Hval. cbn [fold_left].
    rewrite digitValue_hexDigit by exact Hd. rewrite length_app. cbn [length].
    replace (Z.of_nat (length ds + 1)) with (Z.of_nat (length ds) + 1) by lia.
    rewrite Z.pow_add_r by lia. change (16 ^ 1) with 16.
    pose proof (Z.div_mod n 16 ltac:(lia)). lia.
Qed.

Lemma toString16_spec n :
  0 <= n < 4294967296 ->
  hexValue (toString16 n) = n /\
  (1 <= length (toString16 n) <= 8)%nat /\
  forallb isHexDigit (toString16 n) = true.
Proof.
  intros Hn. unfold toString16, hexValue.
  destruct (toHexAux_spec 8 n [] ltac:(change (16 ^ Z.of_nat 8) with 4294967296; lia)
              ltac:(lia)) as (ds & E & Hlen & Hall & Hval).
  rewrite E, app_nil_r. split; [rewrite Hval; lia|]. auto.
Qed.

(** X10. [fastHash] is the 32-bit FNV-1a hash of the UTF-16 code units of the
    text, written in hexadecimal: one to eight digits in lower case whose
    value is the hash. *)
Theorem fastHash_is_fnv1a (text : jsstring) :
  fastHash text = toString16 (fnv1a text) /\
  hexValue (fastHash text) = fnv1a text /\
  (1 <= length (fastHash text) <= 8)%nat /\
  forallb isHexDigit (fastHash text) = true.
Proof.
  rewrite fastHash_fnv1a. split; [reflexivity|].
  apply toString16_spec, fnv1a_range.
Qed.

(** X11. Two texts have the same fingerprint exactly when their 32-bit FNV-1a
    hashes are equal, so [getCachedIndex] takes a cached entry for good
    exactly when the hash of the text is the hash of the text that the entry
    was built from. *)
Theorem fastHash_collides_iff (s t : jsstring) :
  fastHash s = fastHash t <-> fnv1a s = fnv1a t.
Proof.
  rewrite !fastHash_fnv1a. split; [|congruence].
  intros H.
  destruct (toString16_spec (fnv1a s) (fnv1a_range s)) as [Hs _].
  destruct (toString16_spec (fnv1a t) (fnv1a_range t)) as [Ht _].
  congruence.
Qed.

Local Close Scope Z_scope.

(** ** Offsets, lines and line breaks *)

Lemma filter_prefix_length {A} (p : A -> bool) (l : list A) : forall n,
  n <= length l ->
  (forall k a, k < n -> l !! k = Some a -> p a = true) ->
  (forall k a, n <= k -> l !! k = Some a -> p a = false) ->
  length (List.filter p l) = n.
Proof.
  induction l as [|x l IH]; intros n Hn Hlo Hhi; simpl in *.
  - lia.
  - destruct n as [|n].
    + rewrite (Hhi 0 x) by (auto; lia).
      apply IH; [lia| |]; intros k a Hk Ha; [lia|].
      apply (Hhi (S k) a); [lia|exact Ha].
    + rewrite (Hlo 0 x) by (auto; lia). simpl. f_equal.
      apply IH; [lia| |]; intros k a Hk Ha.
      * apply (Hlo (S k) a); [lia|exact Ha].
      * apply (Hhi (S k) a); [lia|exact Ha].
Qed.

Lemma offsets_upto source : forall i o,
  length (List.filter (fun a => (a <=? o)%Z) (buildLineOffsets_from i source))
  = length (List.filter (fun c => N.eqb c 10) (take (Z.to_nat (o - i)) source)).
Proof.
  induction source as [|c rest IH]; intros i o; cbn [buildLineOffsets_from].
  - rewrite take_nil. reflexivity.
  - destruct (Z_le_gt_dec (o - i) 0) as [Hle|Hgt].
    + replace (Z.to_nat (o - i)) with 0 by lia. cbn [take List.filter length].
      destruct (N.eqb c 10).
      * cbn [List.filter]. destruct (Z.leb_spec (i + 1) o); [lia|].
        rewrite IH. replace (Z.to_nat (o - (i + 1))) with 0 by lia. reflexivity.
      * rewrite IH. replace (Z.to_nat (o - (i + 1))) with 0 by lia. reflexivity.
    + replace (Z.to_nat (o - i)) with (S (Z.to_nat (o - (i + 1)))) by lia.
      cbn [take List.filter].
      destruct (N.eqb c 10).
      * cbn [List.filter]. destruct (Z.leb_spec (i + 1) o); [|lia].
        cbn [length]. rewrite IH. reflexivity.
      * apply IH.
Qed.

(** X12. For a text below 2^30 characters, [offsetToLine] on the offsets of
    [buildLineOffsets] gives the number of line feeds before the offset: the
    zero-based line of the character at that offset (0 for a negative
    offset, the last line for an offset past the end). *)
Theorem offsetToLine_counts_line_feeds (source : jsstring) (offset : Z) :
  (Z.of_nat (length source) < 1073741824)%Z ->
  offsetToLine (buildLineOffsets source) offset
  = Z.of_nat (length (List.filter (fun c => N.eqb c 10)
                        (take (Z.to_nat offset) source))).
Proof.
  intros Hlen.
  assert (Hl : (Z.of_nat (length (buildLineOffsets source)) <= 1073741824)%Z).
  { pose proof (buildLineOffsets_length_le source). lia. }
  pose proof (offsetToLine_spec (buildLineOffsets source) offset
                (buildLineOffsets_increasing source) Hl) as Hspec.
  cbv zeta in Hspec. unfold offsetToLine.
  set (r := offsetToLine_loop _ _ offset _ _) in *.
  destruct Hspec as (Hr & Hlo & Hhi).
  assert (Hcount : length (List.filter (fun a => (a <=? offset)%Z) (buildLineOffsets source))
                   = Z.to_nat (r + 1)).
  { apply filter_prefix_length.
    - lia.
    - intros k a Hk Ha. apply Z.leb_le. apply (Hlo k a); [lia|exact Ha].
    - intros k a Hk Ha. apply Z.leb_gt. apply (Hhi k a); [lia|exact Ha]. }
  unfold buildLineOffsets in Hcount. cbn [List.filter] in Hcount.
  pose proof (offsets_upto source 0 offset) as Hup.
  replace (offset - 0)%Z with offset in Hup by lia.
  rewrite <- Hup.
  destruct (Z.leb_spec 0 offset) as [H0|H0]; cbn [length] in Hcount.
  - lia.
  - replace (Z.to_nat offset) with 0 in Hup by lia.
    rewrite Hup in Hcount. rewrite Hup.
    change (take 0 source) with (@nil N) in *. cbn [List.filter length] in *. lia.
Qed.

Lemma offsetToLine_counts_line_feeds_witness :
  offsetToLine (buildLineOffsets oneEquation) 5
  = Z.of_nat (length (List.filter (fun c => N.eqb c 10)
                        (take (Z.to_nat 5) oneEquation))).
Proof.
  apply (offsetToLine_counts_line_feeds oneEquation 5). vm_compute. reflexivity.
Defined.

Lemma line_at_offset_from source : forall i0 k l a,
  splitLines source !! k = Some l ->
  (i0 :: buildLineOffsets_from i0 source) !! k = Some a ->
  (i0 <= a)%Z /\
  exists rest,
    drop (Z.to_nat (a - i0)) source = l ++ rest /\
    (rest = [] \/ (exists t, rest = LF :: t) \/ (exists t, rest = CR :: LF :: t)).
Proof.
  induction source as [|c s IH]; intros i0 k l a Hl Ha.
  - destruct k as [|k]; [|destruct k; discriminate].
    cbn in Hl, Ha. injection Hl as <-. injection Ha as <-.
    split; [lia|]. exists []. rewrite drop_nil. auto.
  - cbn [splitLines buildLineOffsets_from] in Hl, Ha.
    destruct (N.eqb_spec c LF) as [->|Hc].
    + change (N.eqb LF 10) with true in Ha. cbv iota in Ha.
      destruct k as [|k]; cbn in Hl, Ha.
      * injection Hl as <-. injection Ha as <-. split; [lia|].
        exists (LF :: s). replace (Z.to_nat (i0 - i0)) with 0 by lia.
        split; [reflexivity|]. right. left. eauto.
      * destruct (IH (i0 + 1)%Z k l a Hl Ha) as (Hle & rest & Hd & Hrest).
        split; [lia|]. exists rest. split; [|exact Hrest].
        replace (Z.to_nat (a - i0)) with (S (Z.to_nat (a - (i0 + 1)))) by lia.
        exact Hd.
    + assert (N.eqb c 10 = false) as Hc10 by (apply N.eqb_neq; exact Hc).
      rewrite Hc10 in Ha.
      destruct (N.eqb c CR && startsWithLF s) eqn:Hcr.
      * apply andb_true_iff in Hcr as [Hcr Hlf]. apply N.eqb_eq in Hcr. subst c.
        destruct s as [|c' s']; [discriminate|]. cbn [startsWithLF] in Hlf.
        apply N.eqb_eq in Hlf. subst c'.
        destruct k as [|k].
        -- cbn in Hl, Ha. injection Hl as <-. injection Ha as <-. split; [lia|].
           exists (CR :: LF :: s'). replace (Z.to_nat (i0 - i0)) with 0 by lia.
           split; [reflexivity|]. right. right. eauto.
        -- destruct (IH (i0 + 1)%Z (S k) l a Hl) as (Hle & rest & Hd & Hrest).
           { exact Ha. }
           split; [lia|]. exists rest. split; [|exact Hrest].
           replace (Z.to_nat (a - i0)) with (S (Z.to_nat (a - (i0 + 1)))) by lia.
           exact Hd.
      * destruct (splitLines s) as [|l0 ls] eqn:Hs.
        { exfalso. exact (splitLines_nonempty s Hs). }
        destruct k as [|k].
        -- cbn in Hl, Ha. injection Hl as <-. injection Ha as <-. split; [lia|].
           destruct (IH (i0 + 1)%Z 0 l0 (i0 + 1)%Z) as (_ & rest & Hd & Hrest);
             [reflexivity|reflexivity|].
           exists rest. split; [|exact Hrest].
           replace (Z.to_nat (i0 - i0)) with 0 by lia.
           replace (Z.to_nat (i0 + 1 - (i0 + 1))) with 0 in Hd by lia.
           change (drop 0 s) with s in Hd. change (drop 0 (c :: s)) with (c :: s).
           rewrite Hd. reflexivity.
        -- destruct (IH (i0 + 1)%Z (S k) l a) as (Hle & rest & Hd & Hrest).
           { exact Hl. }
           { exact Ha. }
           split; [lia|]. exists rest. split; [|exact Hrest].
           replace (Z.to_nat (a - i0)) with (S (Z.to_nat (a - (i0 + 1)))) by lia.
           exact Hd.
Qed.

(** X13. The [i]-th offset of [buildLineOffsets] is where the [i]-th line of
    the split text begins: the text from that offset on is the line followed
    by the end of the text, a line feed, or a carriage return and a line
    feed. *)
Theorem line_offsets_are_line_starts (source : jsstring) (i : nat)
    (l : jsstring) (a : Z) :
  splitLines source !! i = Some l ->
  buildLineOffsets source !! i = Some a ->
  (0 <= a <= Z.of_nat (length source))%Z /\
  exists rest,
    drop (Z.to_nat a) source = l ++ rest /\
    (rest = [] \/ (exists t, rest = LF :: t) \/ (exists t, rest = CR :: LF :: t)).
Proof.
  intros Hl Ha. split; [exact (buildLineOffsets_bounds source i a Ha)|].
  destruct (line_at_offset_from source 0%Z i l a Hl Ha) as (_ & rest & Hd & Hrest).
  exists rest. replace (a - 0)%Z with a in Hd by lia. auto.
Qed.

Lemma line_offsets_are_line_starts_witness :
  (0 <= 3 <= Z.of_nat (length oneEquation))%Z /\
  exists rest,
    drop (Z.to_nat 3) oneEquation = lit "x" ++ rest /\
    (rest = [] \/ (exists t, rest = LF :: t) \/ (exists t, rest = CR :: LF :: t)).
Proof.
  apply (line_offsets_are_line_starts oneEquation 1 (lit "x") 3); reflexivity.
Defined.

(** ** Sorting and the sections of a note *)

Section Sorting.

Variable compare : Descriptor -> Descriptor -> Z.
Variable R : Descriptor -> Descriptor -> Prop.
Hypothesis compare_R : forall a b, (compare a b <= 0)%Z <-> R a b.
Hypothesis R_total : forall a b, R a b \/ R b a.
Hypothesis R_trans : forall a b c, R a b -> R b c -> R a c.

Lemma insertBy_perm x l : Permutation (insertBy compare x l) (x :: l).
Proof.
  induction l as [|y l IH]; cbn [insertBy]; [reflexivity|].
  destruct (compare x y <=? 0)%Z; [reflexivity|].
  rewrite IH. apply perm_swap.
Qed.

Lemma sortBy_perm l : Permutation (sortBy compare l) l.
Proof.
  induction l as [|x l IH]; cbn [sortBy fold_right]; [reflexivity|].
  fold (sortBy compare l). rewrite insertBy_perm, IH. reflexivity.
Qed.

Lemma insertBy_sorted x l : sortedBy R l -> sortedBy R (insertBy compare x l).
Proof.
  induction l as [|y l IH]; cbn [insertBy sortedBy].
  - intros _. split; [constructor|exact I].
  - intros [Hy Hl].
    destruct (Z.leb_spec (compare x y) 0) as [Hle|Hgt]; cbn [sortedBy].
    + apply compare_R in Hle. split; [|split; assumption].
      constructor; [exact Hle|].
      eapply Forall_impl; [|exact Hy]. intros z Hz. cbn. eapply R_trans; eauto.
    + split; [|apply IH; exact Hl].
      assert (Hyx : R y x).
      { destruct (R_total y x) as [H|H]; [exact H|]. apply compare_R in H. lia. }
      rewrite (insertBy_perm x l). constructor; assumption.
Qed.

Lemma sortBy_sorted l : sortedBy R (sortBy compare l).
Proof.
  induction l as [|x l IH]; cbn [sortBy fold_right]; [exact I|].
  apply insertBy_sorted. exact IH.
Qed.

End Sorting.

Lemma filter_perm {A} (p : A -> bool) (l l' : list A) :
  Permutation l l' -> Permutation (List.filter p l) (List.filter p l').
Proof.
  induction 1 as [|x l l' _ IH|x y l|l l' l'' _ IH1 _ IH2]; cbn [List.filter].
  - reflexivity.
  - destruct (p x); [constructor|]; exact IH.
  - destruct (p x), (p y); try reflexivity. apply perm_swap.
  - etransitivity; eassumption.
Qed.

Lemma filter_sorted R p l : sortedBy R l -> sortedBy R (List.filter p l).
Proof.
  induction l as [|x l IH]; cbn [List.filter sortedBy]; [auto|].
  intros [Hx Hl]. destruct (p x); cbn [sortedBy]; [|auto].
  split; [|auto]. apply Forall_forall. intros y Hy.
  apply filter_In in Hy as [Hy _]. rewrite Forall_forall in Hx. auto.
Qed.

Lemma compareSpans_le a b : (compareSpans a b <= 0)%Z <-> spanLe a b.
Proof.
  unfold compareSpans, spanLe.
  destruct (Z.eqb_spec (lineStart a) (lineStart b)); cbn [negb]; lia.
Qed.

Lemma spanLe_total a b : spanLe a b \/ spanLe b a.
Proof. unfold spanLe. lia. Qed.

Lemma spanLe_trans a b c : spanLe a b -> spanLe b c -> spanLe a c.
Proof. unfold spanLe. lia. Qed.

(** X14. [selectTargetsForSection] returns nothing without section
    information; otherwise it returns the descriptors of the index whose
    span reaches into the section widened by one line on each side, each as
    often as the index has it, ordered by start line and then by end
    line. *)
Theorem selectTargetsForSection_spec (idx : Index) (info : SectionInfo) :
  selectTargetsForSection idx None = [] /\
  Permutation (selectTargetsForSection idx (Some info))
    (List.filter (nearSection info) (descriptors (labels idx))) /\
  sortedBy spanLe (selectTargetsForSection idx (Some info)).
Proof.
  split; [reflexivity|]. unfold selectTargetsForSection. split.
  - apply (filter_perm (nearSection info)). apply sortBy_perm.
  - apply (filter_sorted spanLe (nearSection info)).
    apply (sortBy_sorted compareSpans spanLe compareSpans_le spanLe_total spanLe_trans).
Qed.

(** *** [findTheoremMatchForSection] *)

Lemma find_first R p l d :
  sortedBy R l -> (forall a, R a a) -> List.find p l = Some d ->
  In d l /\ p d = true /\ forall d', In d' l -> p d' = true -> R d d'.
Proof.
  intros Hs Hrefl. induction l as [|x l IH]; cbn [List.find]; [discriminate|].
  destruct Hs as [Hx Hl]. destruct (p x) eqn:Hp.
  - intros [= <-]. split; [left; reflexivity|]. split; [exact Hp|].
    intros d' [<-|Hin] _; [apply Hrefl|]. rewrite Forall_forall in Hx. auto.
  - intros Hf. destruct (IH Hl Hf) as (Hin & Hpd & Hfirst).
    split; [right; exact Hin|]. split; [exact Hpd|].
    intros d' [<-|Hin'] Hp'; [congruence|auto].
Qed.

Lemma getTheoremDescriptors_In idx d :
  In d (getTheoremDescriptors idx) <->
  In d (descriptors (labels idx)) /\ kind d = theorem.
Proof.
  unfold getTheoremDescriptors.
  split; intros H.
  - apply (Permutation_in _ (sortBy_perm _ _)) in H.
    apply filter_In in H as [H1 H2]. apply bool_decide_eq_true in H2. auto.
  - destruct H as [H1 H2].
    apply (Permutation_in _ (Permutation_sym (sortBy_perm _ _))).
    apply filter_In. split; [exact H1|]. apply bool_decide_eq_true. exact H2.
Qed.

Lemma getTheoremDescriptors_sorted idx :
  sortedBy (fun a b => (lineStart a <= lineStart b)%Z) (getTheoremDescriptors idx).
Proof.
  unfold getTheoremDescriptors.
  apply (sortBy_sorted (fun a b => (lineStart a - lineStart b)%Z)
           (fun a b => (lineStart a <= lineStart b)%Z)).
  - intros a b. lia.
  - intros a b. lia.
  - intros a b c. lia.
Qed.

Lemma find_overlapping idx bounds d :
  List.find (overlapsSection bounds) (getTheoremDescriptors idx) = Some d ->
  In d (descriptors (labels idx)) /\ kind d = theorem /\
  overlapsSection bounds d = true /\
  forall d', In d' (descriptors (labels idx)) -> kind d' = theorem ->
             overlapsSection bounds d' = true -> (lineStart d <= lineStart d')%Z.
Proof.
  intros Hf.
  destruct (find_first _ _ _ _ (getTheoremDescriptors_sorted idx)
              ltac:(intros a; cbn; lia) Hf) as (Hin & Hp & Hfirst).
  apply getTheoremDescriptors_In in Hin as [Hin Hk].
  repeat split; auto.
  intros d' Hin' Hk' Hp'. apply Hfirst; [|exact Hp'].
  apply getTheoremDescriptors_In. auto.
Qed.

(** X15. What [findTheoremMatchForSection] returns is a descriptor of kind
    theorem of the index, flagged as start section or as fully inside. When
    the section text is an open marker it is the descriptor of the marker's
    label, flagged as start section whatever the section lines are.
    Otherwise the section has both line numbers, its lines overlap the span
    of the descriptor, and no theorem of the index that overlaps them starts
    on an earlier line. *)
Theorem findTheoremMatchForSection_sound (idx : Index)
    (sectionInfo : option SectionInfo) (directText : jsstring) (m : TheoremMatch) :
  findTheoremMatchForSection idx sectionInfo directText = Some m ->
  In (tm_descriptor m) (descriptors (labels idx)) /\
  kind (tm_descriptor m) = theorem /\
  sectionBounds m = getSectionBounds sectionInfo /\
  (isStartSection m = true \/ isFullyInside m = true) /\
  match matchTheoremStart directText with
  | Some lbl =>
      map_get (labels idx) lbl = Some (tm_descriptor m) /\ isStartSection m = true
  | None =>
      exists bounds,
        getSectionBounds sectionInfo = Some bounds /\
        overlapsSection bounds (tm_descriptor m) = true /\
        forall d', In d' (descriptors (labels idx)) -> kind d' = theorem ->
                   overlapsSection bounds d' = true ->
                   (lineStart (tm_descriptor m) <= lineStart d')%Z
  end.
Proof.
  unfold findTheoremMatchForSection.
  destruct (length (getTheoremDescriptors idx) =? 0); [discriminate|].
  destruct (matchTheoremStart directText) as [lbl|].
  - destruct (map_get (labels idx) lbl) as [d|] eqn:Hd; [|discriminate].
    destruct (bool_decide (kind d = theorem)) eqn:Hk; [|discriminate].
    apply bool_decide_eq_true in Hk. intros [= <-]. cbn.
    repeat split; auto.
    unfold descriptors. apply in_map_iff. exists (lbl, d).
    split; [reflexivity|apply map_get_In; exact Hd].
  - destruct (testTheoremEnd directText).
    + destruct (getSectionBounds sectionInfo) as [bounds|]; [|discriminate].
      destruct (List.find _ _) as [d|] eqn:Hf; [|discriminate].
      intros [= <-]. cbn.
      destruct (find_overlapping idx bounds d Hf) as (Hin & Hk & Hp & Hfirst).
      repeat split; auto. exists bounds. auto.
    + destruct (getSectionBounds sectionInfo) as [bounds|]; [|discriminate].
      destruct (List.find _ _) as [d|] eqn:Hf; [|discriminate].
      destruct (find_overlapping idx bounds d Hf) as (Hin & Hk & Hp & Hfirst).
      cbv zeta.
      destruct ((fst bounds <=? lineStart d)%Z && (lineStart d <=? snd bounds)%Z) eqn:Hs;
        destruct ((lineStart d <=? fst bounds)%Z && (snd bounds <=? lineEnd d)%Z) eqn:Hi;
        cbn [negb andb]; try discriminate; intros [= <-]; cbn;
        (repeat split; auto; try (exists bounds; auto)).
Qed.

Lemma findTheoremMatchForSection_sound_witness :
  let idx := parseCrossrefIndex closedTheorem in
  let m := {| tm_descriptor :=
                {| label := lit "def-inner"; kind := theorem; prefix := lit "def";
                   number := 1; title := lit "Inner Product";
                   lineStart := 0; lineEnd := 4 |};
              isStartSection := false; isFullyInside := true;
              sectionBounds := Some (1, 1)%Z |} in
  In (tm_descriptor m) (descriptors (labels idx)) /\
  kind (tm_descriptor m) = theorem /\
  sectionBounds m
  = getSectionBounds (Some {| info_lineStart := Some 1%Z; info_lineEnd := Some 1%Z |}) /\
  (isStartSection m = true \/ isFullyInside m = true) /\
  match matchTheoremStart (lit "intro") with
  | Some lbl =>
      map_get (labels idx) lbl = Some (tm_descriptor m) /\ isStartSection m = true
  | None =>
      exists bounds,
        getSectionBounds (Some {| info_lineStart := Some 1%Z; info_lineEnd := Some 1%Z |})
        = Some bounds /\
        overlapsSection bounds (tm_descriptor m) = true /\
        forall d', In d' (descriptors (labels idx)) -> kind d' = theorem ->
                   overlapsSection bounds d' = true ->
                   (lineStart (tm_descriptor m) <= lineStart d')%Z
  end.
Proof.
  cbv zeta.
  apply (findTheoremMatchForSection_sound (parseCrossrefIndex closedTheorem)
           (Some {| info_lineStart := Some 1%Z; info_lineEnd := Some 1%Z |})
           (lit "intro")).
  vm_compute. reflexivity.
Defined.

(** X16. A section whose text is an open-marker line of the note, trimmed,
    is matched with the descriptor that the index of the note has for the
    marker's label, as start section and fully inside, whatever the section
    information says. *)
Theorem open_marker_section_starts_theorem (source : jsstring) (i : nat)
    (l lbl : jsstring) (sectionInfo : option SectionInfo) :
  splitLines source !! i = Some l -> matchTheoremStart (trim l) = Some lbl ->
  exists d,
    map_get (labels (parseCrossrefIndex source)) lbl = Some d /\
    findTheoremMatchForSection (parseCrossrefIndex source) sectionInfo (trim l)
    = Some {| tm_descriptor := d; isStartSection := true; isFullyInside := true;
              sectionBounds := getSectionBounds sectionInfo |}.
Proof.
  intros Hl Hm.
  destruct (map_get (labels (parseCrossrefIndex source)) lbl) as [d|] eqn:Hd;
    [|exfalso; exact (index_has source i l lbl Hl Hm Hd)].
  exists d. split; [reflexivity|].
  destruct (index_kind_theorem source lbl (trim l) d Hm Hd) as [Hk _].
  unfold findTheoremMatchForSection.
  assert (Hin : In d (getTheoremDescriptors (parseCrossrefIndex source))).
  { apply getTheoremDescriptors_In. split; [|exact Hk].
    unfold descriptors. apply in_map_iff. exists (lbl, d).
    split; [reflexivity|apply map_get_In; exact Hd]. }
  destruct (getTheoremDescriptors (parseCrossrefIndex source)); [destruct Hin|].
  cbn [length Nat.eqb]. rewrite Hm, Hd.
  rewrite bool_decide_eq_true_2 by exact Hk. reflexivity.
Qed.

Lemma open_marker_section_starts_theorem_witness :
  exists d,
    map_get (labels (parseCrossrefIndex closedTheorem)) (lit "def-inner") = Some d /\
    findTheoremMatchForSection (parseCrossrefIndex closedTheorem) None
      (trim (lit "::: {#def-inner}"))
    = Some {| tm_descriptor := d; isStartSection := true; isFullyInside := true;
              sectionBounds := getSectionBounds None |}.
Proof.
  apply (open_marker_section_starts_theorem closedTheorem 0
           (lit "::: {#def-inner}") (lit "def-inner") None); reflexivity.
Defined.

(** ** The text of a rendered theorem *)







(** ** More on reference substitution *)

Section ResolvedReference.

Variable text : jsstring.
Variable idx : Index.
Variable sourcePath : jsstring.
Variable pre lbl post : jsstring.
Hypothesis text_eq : text = pre ++ lit "@" ++ lbl ++ post.
Hypothesis token : matchRefAt (lit "@" ++ lbl ++ post) = Some (lbl, post).
Hypothesis not_after_word : forall pre' c, pre = pre' ++ [c] -> isWordChar c = false.

(** The loop comes to the token at [length pre] and puts its node there,
    after nodes that stand for [pre]. *)
Lemma replaceLoop_reaches_token : forall fuel lastIndex cursor fragment replaced,
  cursor <= lastIndex -> lastIndex <= length pre ->
  length text - lastIndex <= fuel ->
  fragmentText fragment = take cursor text ->
  exists fuel' fragment0,
    replaceLoop fuel text idx sourcePath lastIndex cursor fragment replaced
    = replaceLoop fuel' text idx sourcePath
        (length pre + length (lit "@" ++ lbl)) (length pre + length (lit "@" ++ lbl))
        (fragment0 ++ [referenceNode idx sourcePath (lit "@" ++ lbl) lbl]) true /\
    fragmentText fragment0 = pre.
Proof.
  assert (Hp : length pre < length text).
  { rewrite text_eq, length_app. simpl. lia. }
  induction fuel as [|fuel IH]; intros lastIndex cursor fragment replaced Hc Hl Hfuel Hf;
    [lia|].
  destruct (regexExec_exists matchRefAt text lastIndex (length pre) lbl post)
    as (atIndex & lbl' & lastIndex' & E & Hix).
  { lia. }
  { rewrite (drop_pre text pre lbl post text_eq). exact token. }
  pose proof (exec_ref _ _ _ _ _ E) as (Hle & Hlt & -> & Hend & Hno & rest & Hd & Hm).
  simpl replaceLoop. rewrite E.
  destruct (decide (atIndex = length pre)) as [->|Hne].
  - rewrite (drop_pre text pre lbl post text_eq), token in Hm. injection Hm as <- <-.
    rewrite (previous_not_word text pre lbl post text_eq not_after_word).
    destruct (replace_step_text text idx sourcePath fragment cursor (length pre) lbl post)
      as [H1 H2]; auto; [lia|].
    exists fuel. eexists. split.
    + reflexivity.
    + rewrite H1, text_eq. apply take_app_length.
  - assert (Hends : atIndex + length (lit "@" ++ lbl') <= length pre).
    { apply (earlier_token_ends text pre lbl post text_eq atIndex lbl' rest); auto. lia. }
    destruct ((0 <? atIndex) && testWord _).
    + apply IH; auto; simpl in *; lia.
    + destruct (replace_step_text text idx sourcePath fragment cursor atIndex lbl' rest)
        as [_ H2]; auto; [lia|].
      apply IH; auto; simpl in *; lia.
Qed.

Lemma reference_node_placed :
  exists before after,
    replaceReferencesInNode text idx sourcePath
    = Some (before ++ referenceNode idx sourcePath (lit "@" ++ lbl) lbl :: after) /\
    fragmentText before = pre /\ fragmentText after = post.
Proof.
  set (node := referenceNode idx sourcePath (lit "@" ++ lbl) lbl).
  pose proof (replaceLoop_reaches_token (length text) 0 0 [] false) as H.
  destruct H as (fuel' & fragment0 & Hrun & Hpre); [lia|lia|lia|reflexivity|].
  fold node in Hrun.
  assert (Hnode : nodeText node = lit "@" ++ lbl) by apply nodeText_referenceNode.
  assert (Htake : fragmentText (fragment0 ++ [node])
                  = take (length pre + length (lit "@" ++ lbl)) text).
  { rewrite fragmentText_app, fragmentText_single, Hpre, Hnode.
    rewrite text_eq. rewrite take_app_ge by lia.
    f_equal. replace (length pre + length (lit "@" ++ lbl) - length pre)
      with (length (lit "@" ++ lbl)) by lia.
    rewrite (app_assoc (lit "@") lbl post). rewrite take_app_length. reflexivity. }
  assert (Hin : length pre + length (lit "@" ++ lbl) <= length text).
  { rewrite text_eq, !length_app. lia. }
  destruct (replaceLoop_text text idx sourcePath fuel' _ _ _ true (le_n _) Htake Hin)
    as (extra & cursor' & replaced' & Hrun' & Htext & Hcur & Hrep).
  specialize (Hrep eq_refl). subst replaced'.
  assert (Hout : exists after,
            replaceReferencesInNode text idx sourcePath
            = Some (fragment0 ++ node :: after)).
  { unfold replaceReferencesInNode. rewrite Hrun, Hrun'. simpl.
    destruct (cursor' <? length text).
    - exists (extra ++ [TextNode (slice text cursor' (length text))]).
      rewrite <- !app_assoc. reflexivity.
    - exists extra. rewrite <- !app_assoc. reflexivity. }
  destruct Hout as [after Hout].
  exists fragment0, after. split; [exact Hout|]. split; [exact Hpre|].
  pose proof (replaceReferencesInNode_text _ _ _ _ Hout) as Hall.
  rewrite fragmentText_app, Hpre in Hall.
  change (node :: after) with ([node] ++ after) in Hall.
  rewrite fragmentText_app, fragmentText_single, Hnode in Hall.
  rewrite text_eq in Hall.
  apply app_inv_head in Hall.
  rewrite (app_assoc (lit "@") lbl post) in Hall.
  apply app_inv_head in Hall. exact Hall.
Qed.

End ResolvedReference.

(** X19. In a text run [pre ++ "@" ++ lbl ++ post] where the pattern matches
    [@lbl] at that place, [pre] does not end in a word character and the
    index has the descriptor [d] for [lbl], the nodes that take the place of
    the run are nodes that stand for [pre], then the link to [lbl], then
    nodes that stand for [post]. The link has the class of the descriptor's
    kind, the fragment [#lbl] as href, the note path with that fragment as
    data href, and the badge of [d] as text. *)
Theorem resolved_reference_link (text : jsstring) (idx : Index)
    (sourcePath pre lbl post : jsstring) (d : Descriptor) :
  text = pre ++ lit "@" ++ lbl ++ post ->
  matchRefAt (lit "@" ++ lbl ++ post) = Some (lbl, post) ->
  (forall pre' c, pre = pre' ++ [c] -> isWordChar c = false) ->
  map_get (labels idx) lbl = Some d ->
  exists before after,
    replaceReferencesInNode text idx sourcePath
    = Some (before
            ++ RefLink (lit "crossref-ref crossref-ref-" ++ kindName (kind d))
                 (lit "#" ++ lbl) (sourcePath ++ lit "#" ++ lbl) lbl
                 (descriptorDisplay d)
            :: after) /\
    fragmentText before = pre /\ fragmentText after = post.
Proof.
  intros Ht Hm Hw Hd.
  destruct (reference_node_placed text idx sourcePath pre lbl post Ht Hm Hw)
    as (before & after & Hout & Hb & Ha).
  exists before, after. unfold referenceNode in Hout. rewrite Hd in Hout. auto.
Qed.

Lemma resolved_reference_link_witness :
  exists before after,
    replaceReferencesInNode (lit "see @eq-a.") (parseCrossrefIndex oneEquation) notePath
    = Some (before
            ++ RefLink (lit "crossref-ref crossref-ref-" ++ kindName equation)
                 (lit "#" ++ lit "eq-a") (notePath ++ lit "#" ++ lit "eq-a") (lit "eq-a")
                 (lit "(1)")
            :: after) /\
    fragmentText before = lit "see " /\ fragmentText after = lit ".".
Proof.
  apply (resolved_reference_link (lit "see @eq-a.") (parseCrossrefIndex oneEquation)
           notePath (lit "see ") (lit "eq-a") (lit ".")
           {| label := lit "eq-a"; kind := equation; prefix := lit "eq"; number := 1;
              title := []; lineStart := 0; lineEnd := 3 |}).
  - reflexivity.
  - reflexivity.
  - intros pre' c H.
    assert (c = 32%N) as ->; [|reflexivity].
    apply (f_equal (@rev N)) in H. rewrite rev_app_distr in H.
    vm_compute in H. injection H as H _. symmetry. exact H.
  - vm_compute. reflexivity.
Defined.

(** *** The shape of a replaced text run *)

Lemma textNodesApart_cons n ns : textNodesApart (n :: ns) -> textNodesApart ns.
Proof. destruct n; cbn; [destruct ns as [|[]]; cbn; tauto|auto|auto]. Qed.

Lemma apart_snoc_reference ns n :
  textNodesApart ns -> isReference n = true -> textNodesApart (ns ++ [n]).
Proof.
  intros H Hn. induction ns as [|x ns IH]; cbn.
  - destruct n; [discriminate|exact I|exact I].
  - specialize (IH (textNodesApart_cons _ _ H)).
    destruct x; try exact IH.
    destruct ns as [|y ns]; cbn in *.
    + destruct n; [discriminate|exact I|exact I].
    + destruct y; [destruct H|exact IH|exact IH].
Qed.

Lemma apart_snoc_text ns v :
  textNodesApart ns -> endsWithReference ns -> textNodesApart (ns ++ [TextNode v]).
Proof.
  intros H [->|(ns' & n & -> & Hn)]; [exact I|].
  revert H. induction ns' as [|x ns' IH]; intros H; cbn.
  - destruct n; [discriminate|exact I|exact I].
  - specialize (IH (textNodesApart_cons _ _ H)).
    destruct x; try exact IH.
    destruct ns' as [|y ns']; cbn in *.
    + destruct n; [discriminate|exact IH|exact IH].
    + destruct y; [destruct H|exact IH|exact IH].
Qed.

Lemma slice_nonempty (text : jsstring) a b :
  a < b -> a < length text -> slice text a b <> [].
Proof.
  intros Hab Ha Hs. apply (f_equal (@length N)) in Hs.
  unfold slice in Hs. rewrite length_take, length_drop in Hs. simpl in Hs. lia.
Qed.

Lemma referenceNode_ok idx sourcePath lbl :
  nodeOk idx sourcePath (referenceNode idx sourcePath (lit "@" ++ lbl) lbl) /\
  isReference (referenceNode idx sourcePath (lit "@" ++ lbl) lbl) = true.
Proof.
  unfold referenceNode. destruct (map_get (labels idx) lbl) as [d|] eqn:Hd; cbn.
  - split; [|reflexivity]. exists d. split; [exact Hd|reflexivity].
  - split; [|reflexivity]. split; [exact Hd|reflexivity].
Qed.

Lemma existsb_snoc_reference ns n :
  isReference n = true -> existsb isReference (ns ++ [n]) = true.
Proof. intros H. rewrite existsb_app. cbn. rewrite H. apply orb_true_iff. right. reflexivity. Qed.

Section Shape.

Variable text : jsstring.
Variable idx : Index.
Variable sourcePath : jsstring.

Lemma replaceLoop_shape : forall fuel lastIndex cursor fragment replaced,
  Forall (nodeOk idx sourcePath) fragment -> textNodesApart fragment ->
  endsWithReference fragment ->
  (replaced = true -> existsb isReference fragment = true) ->
  exists fragment' cursor' replaced',
    replaceLoop fuel text idx sourcePath lastIndex cursor fragment replaced
    = (fragment', cursor', replaced') /\
    Forall (nodeOk idx sourcePath) fragment' /\ textNodesApart fragment' /\
    endsWithReference fragment' /\
    (replaced' = true -> existsb isReference fragment' = true).
Proof.
  induction fuel as [|fuel IH]; intros lastIndex cursor fragment replaced Hok Hap Hend Hrep.
  - exists fragment, cursor, replaced. cbn [replaceLoop]. auto.
  - cbn [replaceLoop].
    destruct (regexExec matchRefAt text lastIndex) as [[[atIndex lbl] lastIndex']|] eqn:E.
    + pose proof (exec_ref _ _ _ _ _ E) as (Hix & Hlt & -> & Hle & Hno & rest & Hd & _).
      destruct ((0 <? atIndex) && testWord _).
      * apply IH; auto.
      * destruct (referenceNode_ok idx sourcePath lbl) as [Hnode Href].
        apply IH.
        -- apply Forall_app. split; [|constructor; [exact Hnode|constructor]].
           destruct (Nat.ltb_spec cursor atIndex) as [Hc|Hc]; [|exact Hok].
           apply Forall_app. split; [exact Hok|].
           constructor; [|constructor]. cbn. apply slice_nonempty; lia.
        -- apply apart_snoc_reference; [|exact Href].
           destruct (cursor <? atIndex); [|exact Hap].
           apply apart_snoc_text; assumption.
        -- right. eexists _, _. split; [reflexivity|exact Href].
        -- intros _. apply existsb_snoc_reference. exact Href.
    + exists fragment, cursor, replaced. auto.
Qed.

Lemma replaceReferencesInNode_shape ns :
  replaceReferencesInNode text idx sourcePath = Some ns ->
  Forall (nodeOk idx sourcePath) ns /\
  existsb isReference ns = true /\
  textNodesApart ns.
Proof.
  unfold replaceReferencesInNode.
  destruct (replaceLoop_shape (length text) 0 0 [] false)
    as (fragment & cursor & replaced & Hrun & Hok & Hap & Hend & Hrep).
  { constructor. } { exact I. } { left. reflexivity. } { discriminate. }
  rewrite Hrun. destruct replaced; cbn [negb]; [|discriminate].
  specialize (Hrep eq_refl).
  destruct (Nat.ltb_spec cursor (length text)) as [Hlt|Hge]; intros [= <-].
  - split; [|split].
    + apply Forall_app. split; [exact Hok|]. constructor; [|constructor].
      cbn. apply slice_nonempty; lia.
    + rewrite existsb_app, Hrep. reflexivity.
    + apply apart_snoc_text; assumption.
  - auto.
Qed.

End Shape.

(** X20. The nodes that [replaceReferencesInNode] puts in place of a text
    run: every text node is non-empty, every link is the link of a label
    that the index has (class of its kind, badge of its descriptor as text),
    every missing marker is that of a label that the index does not have;
    at least one node is a link or a missing marker, and no two text nodes
    stand side by side. *)
Theorem replaced_run_shape (text : jsstring) (idx : Index)
    (sourcePath : jsstring) (ns : list Node) :
  replaceReferencesInNode text idx sourcePath = Some ns ->
  Forall (nodeOk idx sourcePath) ns /\
  existsb isReference ns = true /\
  textNodesApart ns.
Proof. apply replaceReferencesInNode_shape. Qed.

Lemma replaced_run_shape_witness :
  let ns := [TextNode (lit "see ");
             RefLink (lit "crossref-ref crossref-ref-equation") (lit "#eq-a")
               (lit "note.md#eq-a") (lit "eq-a") (lit "(1)");
             TextNode (lit " and ");
             MissingSpan (lit "crossref-ref crossref-ref-missing") (lit "eq-b")
               (lit "@eq-b")] in
  Forall (nodeOk (parseCrossrefIndex oneEquation) notePath) ns /\
  existsb isReference ns = true /\
  textNodesApart ns.
Proof.
  cbv zeta.
  apply (replaced_run_shape (lit "see @eq-a and @eq-b") (parseCrossrefIndex oneEquation)
           notePath).
  vm_compute. reflexivity.
Defined.

(** *** Text runs that are left alone *)

(** A match of the reference pattern begins at an [@]. *)
Lemma exec_at text lastIndex atIndex lbl lastIndex' :
  regexExec matchRefAt text lastIndex = Some (atIndex, lbl, lastIndex') ->
  text !! atIndex = Some 64%N.
Proof.
  intros E. apply exec_ref in E as (_ & _ & _ & _ & _ & rest & Hd & _).
  rewrite <- (Nat.add_0_r atIndex), <- lookup_drop, Hd. reflexivity.
Qed.

Lemma exec_none_without_at text lastIndex :
  (forall j, lastIndex <= j -> text !! j <> Some 64%N) ->
  regexExec matchRefAt text lastIndex = None.
Proof.
  intros Hno.
  destruct (regexExec matchRefAt text lastIndex) as [[[atIndex lbl] li]|] eqn:E;
    [|reflexivity].
  exfalso. pose proof (exec_at _ _ _ _ _ E) as Hat.
  apply exec_ref in E as (Hle & _). exact (Hno atIndex Hle Hat).
Qed.

Lemma no_at_untouched text idx sourcePath :
  noAt text = true -> replaceReferencesInNode text idx sourcePath = None.
Proof.
  intros Hno. unfold replaceReferencesInNode.
  destruct (length text) as [|fuel]; cbn [replaceLoop]; [reflexivity|].
  rewrite exec_none_without_at; [reflexivity|].
  intros j _. apply noAt_lookup. exact Hno.
Qed.

Lemma after_word_untouched text idx sourcePath pre c lbl post :
  text = pre ++ [c] ++ lit "@" ++ lbl ++ post ->
  matchRefAt (lit "@" ++ lbl ++ post) = Some (lbl, post) ->
  isWordChar c = true -> noAt pre = true -> noAt post = true ->
  replaceReferencesInNode text idx sourcePath = None.
Proof.
  intros Ht Hm Hc Hpre Hpost.
  assert (Hcat : c <> 64%N) by (intros ->; discriminate).
  assert (Hlen : length text = length pre + 1 + 1 + length lbl + length post).
  { rewrite Ht, !length_app. change (length (lit "@")) with 1. cbn [length]. lia. }
  assert (Hdrop : drop (S (length pre)) text = lit "@" ++ lbl ++ post).
  { rewrite Ht. rewrite (app_assoc pre [c]).
    replace (S (length pre)) with (length (pre ++ [c])) by (rewrite length_app; cbn; lia).
    apply drop_app_length. }
  unfold replaceReferencesInNode.
  destruct (length text) as [|[|fuel]] eqn:Hl; [lia|lia|].
  cbn [replaceLoop].
  destruct (regexExec_exists matchRefAt text 0 (S (length pre)) lbl post)
    as (atIndex & lbl' & li & E & Hix); [lia|rewrite Hdrop; exact Hm|].
  rewrite E.
  pose proof (exec_at _ _ _ _ _ E) as Hat.
  assert (atIndex = S (length pre)) as ->.
  { destruct (decide (atIndex = S (length pre))) as [|Hne]; [assumption|exfalso].
    destruct (decide (atIndex = length pre)) as [->|Hne'].
    - rewrite Ht, lookup_app_r, Nat.sub_diag in Hat by lia. cbn in Hat. congruence.
    - rewrite Ht, lookup_app_l in Hat by lia. exact (noAt_lookup _ _ Hpre Hat). }
  pose proof (exec_ref _ _ _ _ _ E) as (_ & _ & -> & _ & _ & rest & _ & Hm').
  rewrite Hdrop, Hm in Hm'. injection Hm' as <- <-.
  assert (Hprev : charAt text (S (length pre) - 1) = [c]).
  { unfold charAt. replace (S (length pre) - 1) with (length pre) by lia.
    rewrite Ht, lookup_app_r, Nat.sub_diag by lia. reflexivity. }
  cbn [Nat.ltb Nat.leb]. rewrite Hprev. unfold testWord at 1. cbn [existsb].
  rewrite Hc. cbn [orb andb].
  rewrite exec_none_without_at; [reflexivity|].
  intros j Hj Hat'. rewrite length_raw in Hj.
  rewrite Ht in Hat'.
  rewrite (app_assoc pre), (app_assoc (pre ++ [c])), (app_assoc ((pre ++ [c]) ++ lit "@"))
    in Hat'.
  rewrite lookup_app_r in Hat'
    by (rewrite !length_app; change (length (lit "@")) with 1; cbn [length]; lia).
  exact (noAt_lookup _ _ Hpost Hat').
Qed.

(** X21. [replaceReferencesInNode] leaves a text run as it is when the run
    has no [@], and also when its only [@] begins a reference token but
    comes right after a word character, as in an e-mail address. *)
Theorem untouched_runs :
  (forall text idx sourcePath,
     noAt text = true -> replaceReferencesInNode text idx sourcePath = None) /\
  (forall text idx sourcePath pre c lbl post,
     text = pre ++ [c] ++ lit "@" ++ lbl ++ post ->
     matchRefAt (lit "@" ++ lbl ++ post) = Some (lbl, post) ->
     isWordChar c = true -> noAt pre = true -> noAt post = true ->
     replaceReferencesInNode text idx sourcePath = None).
Proof.
  split.
  - apply no_at_untouched.
  - apply after_word_untouched.
Qed.

Lemma untouched_runs_witness :
  replaceReferencesInNode (lit "plain text") (parseCrossrefIndex oneEquation) notePath
  = None /\
  replaceReferencesInNode (lit "mail me@eq-a.") (parseCrossrefIndex oneEquation) notePath
  = None.
Proof.
  split.
  - apply (proj1 untouched_runs). reflexivity.
  - apply (proj2 untouched_runs (lit "mail me@eq-a.") (parseCrossrefIndex oneEquation)
             notePath (lit "mail m") 101%N (lit "eq-a") (lit ".")); reflexivity.
Defined.

(** ** [dedupeElements] *)

Section DedupeFacts.

Context {Element : Type} `{EqDecision Element}.

Lemma dedupeLoop_spec (elements : list (option Element)) : forall seen unique,
  List.NoDup unique -> (forall e, In e unique <-> In e seen) ->
  exists added,
    dedupeLoop elements seen unique = unique ++ added /\
    List.NoDup (unique ++ added) /\
    (forall e, In e added <-> In (Some e) elements /\ ~ In e seen) /\
    sublist added (omap id elements).
Proof.
  induction elements as [|[x|] rest IH]; intros seen unique Hnd Hseen; cbn [dedupeLoop].
  - exists []. rewrite app_nil_r. split; [reflexivity|]. split; [exact Hnd|].
    split; [|constructor]. intros e. cbn. tauto.
  - destruct (bool_decide (x ∈ seen)) eqn:Hx.
    + apply bool_decide_eq_true in Hx. apply list_elem_of_In in Hx.
      destruct (IH seen unique Hnd Hseen) as (added & E & Hnd' & Hin & Hsub).
      exists added. split; [exact E|]. split; [exact Hnd'|]. split.
      * intros e. rewrite Hin. cbn. split; [tauto|].
        intros [[[= ->]|H1] H2]; [contradiction|auto].
      * cbn. apply sublist_cons. exact Hsub.
    + apply bool_decide_eq_false in Hx. rewrite list_elem_of_In in Hx.
      destruct (IH (x :: seen) (unique ++ [x])) as (added & E & Hnd' & Hin & Hsub).
      { apply NoDup_snoc; [exact Hnd|]. rewrite Hseen. exact Hx. }
      { intros e. rewrite in_app_iff, Hseen. cbn. tauto. }
      exists (x :: added). rewrite <- app_assoc in E, Hnd'. cbn in E, Hnd'.
      split; [exact E|]. split; [exact Hnd'|]. split.
      * intros e. cbn. rewrite Hin. cbn. split.
        -- intros [<-|[H1 H2]]; [auto|]. split; [auto|]. tauto.
        -- intros [[[= ->]|H1] H2]; [auto|].
           destruct (decide (x = e)) as [->|Hne]; [auto|]. right. split; [auto|]. tauto.
      * cbn. apply sublist_skip. exact Hsub.
  - destruct (IH seen unique Hnd Hseen) as (added & E & Hnd' & Hin & Hsub).
    exists added. split; [exact E|]. split; [exact Hnd'|]. split; [|exact Hsub].
    intros e. rewrite Hin. cbn. split; [tauto|].
    intros [[H1|H1] H2]; [discriminate|auto].
Qed.

(** X22. [dedupeElements] keeps the HTML elements of its argument, each
    once: the result has no element twice, an element is in the result
    exactly when it is in the argument, and the result runs in the order of
    the argument. *)
Theorem dedupeElements_spec (elements : list (option Element)) :
  List.NoDup (dedupeElements elements) /\
  (forall e, In e (dedupeElements elements) <-> In (Some e) elements) /\
  sublist (dedupeElements elements) (omap id elements).
Proof.
  unfold dedupeElements.
  destruct (dedupeLoop_spec elements [] []) as (added & E & Hnd & Hin & Hsub).
  { constructor. } { tauto. }
  rewrite E. cbn in *. split; [exact Hnd|]. split; [|exact Hsub].
  intros e. rewrite Hin. cbn. tauto.
Qed.

End DedupeFacts.

Lemma dedupeElements_spec_witness :
  List.NoDup (dedupeElements [Some 1; None; Some 2; Some 1]) /\
  (forall e, In e (dedupeElements [Some 1; None; Some 2; Some 1])
             <-> In (Some e) [Some 1; None; Some 2; Some 1]) /\
  sublist (dedupeElements [Some 1; None; Some 2; Some 1])
    (omap id [Some 1; None; Some 2; Some 1]).
Proof. exact (dedupeElements_spec [Some 1; None; Some 2; Some 1]). Defined.

(** ** The order of target resolution *)

Section Resolution.

Variable Element : Type.
Variable World : Type.
Variable Link : Type.
Variable activeViewOf : World -> option ActiveView.
Variable collectReferenceSearchRoots : World -> Link -> list (RenderRoot Element).

Lemma firstHit_None (q : RenderRoot Element -> option Element) roots :
  firstHit Element q roots = None <-> forall root, In root roots -> q root = None.
Proof.
  induction roots as [|r roots IH]; cbn [firstHit].
  - split; [intros _ root []|reflexivity].
  - destruct (q r) as [e|] eqn:Hq.
    + split; [discriminate|]. intros H. rewrite (H r) in Hq by (left; reflexivity).
      discriminate.
    + rewrite IH. split.
      * intros H root [<-|Hin]; auto.
      * intros H root Hin. apply H. right. exact Hin.
Qed.

Lemma firstHit_Some (q : RenderRoot Element -> option Element) roots e :
  firstHit Element q roots = Some e <->
  exists i root,
    roots !! i = Some root /\ q root = Some e /\
    forall j r, j < i -> roots !! j = Some r -> q r = None.
Proof.
  induction roots as [|r roots IH]; cbn [firstHit].
  - split; [discriminate|]. intros (i & root & Hi & _). rewrite lookup_nil in Hi.
    discriminate.
  - destruct (q r) as [e'|] eqn:Hq.
    + split.
      * intros [= ->]. exists 0, r. split; [reflexivity|]. split; [exact Hq|].
        intros j r' Hj. lia.
      * intros (i & root & Hi & He & Hbefore).
        destruct i as [|i].
        -- cbn in Hi. injection Hi as <-. congruence.
        -- rewrite (Hbefore 0 r) in Hq by (auto; lia). discriminate.
    + rewrite IH. split.
      * intros (i & root & Hi & He & Hbefore). exists (S i), root.
        split; [exact Hi|]. split; [exact He|].
        intros [|j] r' Hj Hr'.
        -- cbn in Hr'. injection Hr' as <-. exact Hq.
        -- apply (Hbefore j r'); [lia|exact Hr'].
      * intros (i & root & Hi & He & Hbefore).
        destruct i as [|i].
        -- cbn in Hi. injection Hi as <-. congruence.
        -- exists i, root. split; [exact Hi|]. split; [exact He|].
           intros j r' Hj Hr'. apply (Hbefore (S j) r'); [lia|exact Hr'].
Qed.

(** X23. [findTargetElement] asks every render root for a direct target
    before it asks any root for a badge, and it asks for a section by line
    range only when both fail and the index cached for the active file has
    the label. A direct hit in the first root that has one is the result,
    whatever the badges are; the result is nothing exactly when no root has
    a direct target or a badge target and, if the label is known, no root
    has a section in the range of its descriptor. *)
Theorem findTargetElement_order (p : Plugin) (w : World) (lbl : jsstring)
    (originLink : Link) :
  let roots := collectReferenceSearchRoots w originLink in
  let found := findTargetElement Element World Link activeViewOf
                 collectReferenceSearchRoots p w lbl originLink in
  (forall i root e,
     roots !! i = Some root -> findDirectTargetInRoot Element root lbl = Some e ->
     (forall j r, j < i -> roots !! j = Some r ->
                  findDirectTargetInRoot Element r lbl = None) ->
     found = Some e) /\
  (found = None <->
   forall root, In root roots ->
     findDirectTargetInRoot Element root lbl = None /\
     findBadgeTargetInRoot Element root lbl = None /\
     forall d,
       cachedDescriptor p (getActiveFilePath World activeViewOf w) lbl = Some d ->
       findTargetBySectionRange Element root d = None).
Proof.
  cbv zeta. unfold findTargetElement.
  set (roots := collectReferenceSearchRoots w originLink).
  set (direct := firstHit Element (fun root => findDirectTargetInRoot Element root lbl) roots).
  set (badge := firstHit Element (fun root => findBadgeTargetInRoot Element root lbl) roots).
  split.
  - intros i root e Hi He Hbefore.
    assert (Hd : direct = Some e).
    { apply firstHit_Some. exists i, root. auto. }
    rewrite Hd. reflexivity.
  - destruct direct as [e|] eqn:Hd.
    { split; [discriminate|]. intros H.
      apply firstHit_Some in Hd as (i & root & Hi & He & _).
      destruct (H root) as [H1 _]; [eapply list_elem_of_lookup_2 in Hi;
        apply list_elem_of_In; exact Hi|]. congruence. }
    destruct badge as [e|] eqn:Hb.
    { split; [discriminate|]. intros H.
      apply firstHit_Some in Hb as (i & root & Hi & He & _).
      destruct (H root) as (_ & H2 & _); [eapply list_elem_of_lookup_2 in Hi;
        apply list_elem_of_In; exact Hi|]. congruence. }
    pose proof (proj1 (firstHit_None _ _) Hd) as Hd'.
    pose proof (proj1 (firstHit_None _ _) Hb) as Hb'.
    destruct (cachedDescriptor p _ lbl) as [d|].
    + rewrite firstHit_None. split.
      * intros H root Hin. split; [auto|]. split; [auto|].
        intros d' [= <-]. auto.
      * intros H root Hin. destruct (H root Hin) as (_ & _ & H3). auto.
    + split; [|reflexivity]. intros _ root Hin.
      split; [auto|]. split; [auto|]. intros d' Hd''. discriminate.
Qed.

End Resolution.

Lemma findTargetElement_order_witness :
  let roots := noteRoots tt tt in
  let found := findTargetElement unit unit unit noteView noteRoots notePlugin tt
                 (lit "eq-a") tt in
  (forall i root e,
     roots !! i = Some root -> findDirectTargetInRoot unit root (lit "eq-a") = Some e ->
     (forall j r, j < i -> roots !! j = Some r ->
                  findDirectTargetInRoot unit r (lit "eq-a") = None) ->
     found = Some e) /\
  (found = None <->
   forall root, In root roots ->
     findDirectTargetInRoot unit root (lit "eq-a") = None /\
     findBadgeTargetInRoot unit root (lit "eq-a") = None /\
     forall d,
       cachedDescriptor notePlugin (getActiveFilePath unit noteView tt) (lit "eq-a") = Some d ->
       findTargetBySectionRange unit root d = None).
Proof.
  exact (findTargetElement_order unit unit unit noteView noteRoots notePlugin tt
           (lit "eq-a") tt).
Defined.

(** ** Badges *)

From Stdlib Require DecimalNat DecimalFacts.

Lemma lit_inj s t : lit s = lit t -> s = t.
Proof.
  unfold lit. intros H.
  rewrite <- (string_of_list_ascii_of_string s), <- (string_of_list_ascii_of_string t).
  f_equal. revert H. generalize (list_ascii_of_string s) (list_ascii_of_string t).
  induction l as [|a l IH]; intros [|b l']; cbn; try discriminate; [reflexivity|].
  intros [= Hab Hl]. f_equal; [|apply IH; exact Hl].
  rewrite <- (ascii_N_embedding a), <- (ascii_N_embedding b), Hab. reflexivity.
Qed.

Lemma to_uint_nonnil n : Nat.to_uint n <> Decimal.Nil.
Proof.
  rewrite DecimalNat.Unsigned.to_uint_alt. intros H.
  apply DecimalFacts.rev_nil_inv in H.
  destruct n as [|n]; [discriminate|].
  rewrite DecimalNat.Unsigned.to_lu_succ in H.
  destruct (DecimalNat.Unsigned.to_lu n); discriminate.
Qed.

Lemma decimal_inj a b : decimal a = decimal b -> a = b.
Proof.
  unfold decimal. intros H. apply lit_inj in H.
  apply DecimalNat.Unsigned.to_uint_inj.
  pose proof (NilZero.usu _ (to_uint_nonnil a)) as Ha.
  pose proof (NilZero.usu _ (to_uint_nonnil b)) as Hb.
  rewrite H in Ha. congruence.
Qed.

Lemma descriptor_consistent source i d :
  descriptors (labels (parseCrossrefIndex source)) !! i = Some d -> consistent d.
Proof.
  intros Hi. apply list_elem_of_lookup_2, list_elem_of_In in Hi.
  unfold descriptors in Hi. apply in_map_iff in Hi as ([k d'] & <- & Hin).
  destruct (parseState_entriesOk source) as [_ Hcons]. exact (Hcons k d' Hin).
Qed.

Ltac theorem_prefix H :=
  unfold THEOREM_PREFIXES in H; simpl in H;
  repeat (destruct H as [H|H]; [symmetry in H|]); [..|destruct H].

(** Descriptors of different counters have badges that begin differently. *)
Lemma display_differs di dj :
  consistent di -> consistent dj -> sameCounter dj di = false ->
  descriptorDisplay di <> descriptorDisplay dj.
Proof.
  intros [_ C1] [_ C2] Hs H. unfold sameCounter, descriptorDisplay in *.
  revert H. generalize (decimal (number di)) (decimal (number dj)). intros x y H.
  destruct (kind di) eqn:K1, (kind dj) eqn:K2; cbn in Hs; try discriminate Hs.
  all: try (destruct C1 as [C1 _]); try (destruct C2 as [C2 _]).
  - (* equation, figure *) vm_compute in H. discriminate H.
  - (* equation, theorem *)
    theorem_prefix C2; rewrite C2 in H; vm_compute in H; discriminate H.
  - (* figure, equation *) vm_compute in H. discriminate H.
  - (* figure, theorem *)
    theorem_prefix C2; rewrite C2 in H; vm_compute in H; discriminate H.
  - (* theorem, equation *)
    theorem_prefix C1; rewrite C1 in H; vm_compute in H; discriminate H.
  - (* theorem, figure *)
    theorem_prefix C1; rewrite C1 in H; vm_compute in H; discriminate H.
  - (* two theorems of different prefixes *)
    apply eqb_neq in Hs.
    theorem_prefix C1; theorem_prefix C2; rewrite C1, C2 in H, Hs;
      try (exfalso; apply Hs; reflexivity); vm_compute in H; discriminate H.
Qed.

Lemma display_same_counter di dj :
  sameCounter dj di = true -> descriptorDisplay di = descriptorDisplay dj ->
  number di = number dj.
Proof.
  unfold sameCounter, descriptorDisplay. intros Hs H.
  destruct (kind dj) eqn:K2.
  - apply bool_decide_eq_true in Hs. rewrite Hs in H.
    apply app_inv_head, app_inv_tail in H. apply decimal_inj. exact H.
  - apply bool_decide_eq_true in Hs. rewrite Hs in H.
    apply app_inv_head in H. apply decimal_inj. exact H.
  - apply andb_true_iff in Hs as [Hk Hp]. apply bool_decide_eq_true in Hk.
    apply eqb_eq in Hp. rewrite Hk, Hp in H.
    apply app_inv_head, app_inv_head in H. apply decimal_inj. exact H.
Qed.

Lemma badges_distinct_ordered source i j di dj :
  descriptors (labels (parseCrossrefIndex source)) !! i = Some di ->
  descriptors (labels (parseCrossrefIndex source)) !! j = Some dj ->
  i < j -> descriptorDisplay di <> descriptorDisplay dj.
Proof.
  intros Hi Hj Hij H.
  destruct (sameCounter dj di) eqn:Hs.
  - pose proof (index_numbers_increase source i j di dj Hi Hj Hij Hs) as [_ Hlt].
    pose proof (display_same_counter di dj Hs H). lia.
  - exact (display_differs di dj (descriptor_consistent _ _ _ Hi)
             (descriptor_consistent _ _ _ Hj) Hs H).
Qed.

(** X24. No two descriptors of an index have the same badge: the text that
    [descriptorDisplay] gives for references and captions tells the labels of
    a note apart. *)
Theorem badges_distinct (source : jsstring) (i j : nat) (di dj : Descriptor) :
  descriptors (labels (parseCrossrefIndex source)) !! i = Some di ->
  descriptors (labels (parseCrossrefIndex source)) !! j = Some dj ->
  i <> j -> descriptorDisplay di <> descriptorDisplay dj.
Proof.
  intros Hi Hj Hne.
  destruct (Nat.lt_total i j) as [Hlt|[Heq|Hgt]]; [|contradiction|].
  - exact (badges_distinct_ordered source i j di dj Hi Hj Hlt).
  - intros H. symmetry in H.
    exact (badges_distinct_ordered source j i dj di Hj Hi Hgt H).
Qed.

Lemma badges_distinct_witness :
  descriptorDisplay
    {| label := lit "thm-a"; kind := theorem; prefix := lit "thm"; number := 1;
       title := lit "A"; lineStart := 0; lineEnd := 1 |}
  <> descriptorDisplay
       {| label := lit "lem-b"; kind := theorem; prefix := lit "lem"; number := 1;
          title := []; lineStart := 2; lineEnd := 4 |}.
Proof.
  apply (badges_distinct adjacentTheorems 0 1).
  - vm_compute. reflexivity.
  - vm_compute. reflexivity.
  - lia.
Defined.

(** ** [stripLabelTokens] *)

Lemma matchLabelTokenAt_app s lbl rest :
  matchLabelTokenAt s = Some (lbl, rest) ->
  s = lit "{#" ++ lbl ++ lit "}" ++ rest.
Proof.
  unfold matchLabelTokenAt.
  destruct (stripPrefix (lit "{#") s) as [r|] eqn:H1; [|discriminate].
  destruct (matchLabelWith LABEL_PREFIXES r) as [[l r']|] eqn:H2; [|discriminate].
  destruct (stripPrefix (lit "}") r') as [tail|] eqn:H3; [|discriminate].
  intros [= <- <-].
  apply stripPrefix_app in H1, H3. apply matchLabelWith_app in H2 as [H2 _].
  rewrite H1, H2, H3. reflexivity.
Qed.

Lemma matchLabelTokenAt_shorter s lbl rest :
  matchLabelTokenAt s = Some (lbl, rest) -> length rest < length s.
Proof.
  intros H. apply matchLabelTokenAt_app in H. rewrite H, !length_app.
  change (length (lit "{#")) with 2. lia.
Qed.

Lemma matchLabelTokenAt_other c s :
  c <> 123%N -> matchLabelTokenAt (c :: s) = None.
Proof.
  intros Hc. unfold matchLabelTokenAt.
  change (lit "{#") with [123%N; 35%N]. cbn [stripPrefix].
  destruct (N.eqb_spec 123 c) as [Heq|]; [congruence|reflexivity].
Qed.

Lemma removeLabelTokens_fuel : forall fuel fuel' s,
  length s <= fuel -> length s <= fuel' ->
  removeLabelTokens fuel s = removeLabelTokens fuel' s.
Proof.
  induction fuel as [|fuel IH]; intros fuel' s H H'.
  - destruct s; [|simpl in H; lia]. destruct fuel'; reflexivity.
  - destruct fuel' as [|fuel'].
    + destruct s; [|simpl in H'; lia]. reflexivity.
    + cbn [removeLabelTokens].
      destruct (matchLabelTokenAt s) as [[lbl rest]|] eqn:E.
      * apply matchLabelTokenAt_shorter in E. apply IH; lia.
      * destruct s as [|c s]; [reflexivity|]. f_equal. apply IH; simpl in *; lia.
Qed.

Lemma removeLabelTokens_sublist : forall fuel s, sublist (removeLabelTokens fuel s) s.
Proof.
  induction fuel as [|fuel IH]; intros s; cbn [removeLabelTokens]; [reflexivity|].
  destruct (matchLabelTokenAt s) as [[lbl rest]|] eqn:E.
  - apply matchLabelTokenAt_app in E. rewrite E.
    rewrite !app_assoc. apply sublist_inserts_l. apply IH.
  - destruct s as [|c s]; [reflexivity|]. apply sublist_skip. apply IH.
Qed.

Lemma removeLabelTokens_pre : forall pre fuel s,
  noBrace pre = true -> length (pre ++ s) <= fuel ->
  removeLabelTokens fuel (pre ++ s) = pre ++ removeLabelTokens (length s) s.
Proof.
  induction pre as [|c pre IH]; intros fuel s Hpre Hfuel.
  - cbn [app]. apply removeLabelTokens_fuel; [exact Hfuel|lia].
  - cbn [noBrace forallb] in Hpre. apply andb_true_iff in Hpre as [Hc Hpre].
    apply negb_true_iff, N.eqb_neq in Hc.
    destruct fuel as [|fuel]; [simpl in Hfuel; lia|].
    cbn [app removeLabelTokens]. rewrite matchLabelTokenAt_other by exact Hc.
    f_equal. apply IH; [exact Hpre|simpl in Hfuel; lia].
Qed.

Lemma includes_app needle pre s :
  includes needle (pre ++ needle ++ s) = true.
Proof.
  induction pre as [|c pre IH].
  - cbn [app]. destruct (needle ++ s) eqn:E; cbn [includes]; rewrite <- E;
      rewrite stripPrefix_self; reflexivity.
  - cbn [app includes]. destruct (stripPrefix needle _); [reflexivity|exact IH].
Qed.

(** X25. For one text node, [stripLabelTokens] only deletes characters. It
    leaves the node as it is when the node has no parent element or stands
    inside an element that [shouldSkipTextNode] excludes, when its trimmed
    text is an open marker, or when the normalized text of its parent is
    one. Otherwise a label token [{#label}] that follows a text without
    braces is deleted, the text before it is kept, and the text after it is
    treated in the same way. *)
Theorem stripLabelTokens_spec :
  (forall parent raw, sublist (stripLabelTokens parent raw) raw) /\
  (forall parent raw,
     shouldSkipTextNode parent = true \/
     testTheoremStart (trim raw) = true \/
     (exists p, parent = Some p /\
                testTheoremStart (normalizeText (textContent p)) = true) ->
     stripLabelTokens parent raw = raw) /\
  (forall p raw pre lbl post,
     closestSkipped p = false ->
     raw = pre ++ lit "{#" ++ lbl ++ lit "}" ++ post ->
     noBrace pre = true ->
     matchLabelTokenAt (lit "{#" ++ lbl ++ lit "}" ++ post) = Some (lbl, post) ->
     testTheoremStart (trim raw) = false ->
     testTheoremStart (normalizeText (textContent p)) = false ->
     stripLabelTokens (Some p) raw = pre ++ removeLabelTokens (length post) post).
Proof.
  split; [|split].
  - intros parent raw. unfold stripLabelTokens.
    destruct (shouldSkipTextNode parent); [reflexivity|].
    destruct (negb _); [reflexivity|].
    destruct (testTheoremStart (trim raw)); [reflexivity|].
    destruct parent as [p|]; [destruct (testTheoremStart _); [reflexivity|]|];
      apply removeLabelTokens_sublist.
  - intros parent raw H. unfold stripLabelTokens.
    destruct (shouldSkipTextNode parent) eqn:Hskip; [reflexivity|].
    destruct (negb _); [reflexivity|].
    destruct H as [H|[->|(p & -> & ->)]]; [discriminate H|reflexivity|].
    destruct (testTheoremStart (trim raw)); reflexivity.
  - intros p raw pre lbl post Hskip Hraw Hpre Htok Hself Hparent.
    unfold stripLabelTokens. cbn [shouldSkipTextNode]. rewrite Hskip.
    assert (includes (lit "{#") raw = true) as ->
      by (rewrite Hraw; apply includes_app).
    cbn [negb]. rewrite Hself, Hparent.
    rewrite Hraw at 2.
    rewrite (removeLabelTokens_pre pre (length raw)) by (auto; rewrite Hraw; lia).
    f_equal.
    destruct (length (lit "{#" ++ lbl ++ lit "}" ++ post)) as [|fuel] eqn:Hl;
      [discriminate Hl|].
    cbn [removeLabelTokens]. rewrite Htok.
    apply removeLabelTokens_fuel; [|lia].
    apply matchLabelTokenAt_shorter in Htok. lia.
Qed.

Lemma stripLabelTokens_spec_witness :
  stripLabelTokens
    (Some {| closestSkipped := true; textContent := lit "x {#eq-a}" |})
    (lit "x {#eq-a}")
  = lit "x {#eq-a}" /\
  stripLabelTokens
    (Some {| closestSkipped := false; textContent := lit ":::{#thm-a}" |})
    (lit "{#thm-a}")
  = lit "{#thm-a}" /\
  stripLabelTokens
    (Some {| closestSkipped := false; textContent := lit "Energy {#eq-a} is kept" |})
    (lit "Energy {#eq-a} is kept")
  = lit "Energy " ++ removeLabelTokens (length (lit " is kept")) (lit " is kept").
Proof.
  split; [|split].
  - apply (proj1 (proj2 stripLabelTokens_spec)). left. reflexivity.
  - apply (proj1 (proj2 stripLabelTokens_spec)). right. right.
    exists {| closestSkipped := false; textContent := lit ":::{#thm-a}" |}.
    split; reflexivity.
  - apply (proj2 (proj2 stripLabelTokens_spec)
             {| closestSkipped := false; textContent := lit "Energy {#eq-a} is kept" |}
             (lit "Energy {#eq-a} is kept")
             (lit "Energy ") (lit "eq-a") (lit " is kept")); reflexivity.
Defined.

(** ** Every label of the index can be referenced *)

Lemma span_prefix p : forall a b,
  forallb p a = true -> (forall c b', b = c :: b' -> p c = false) ->
  span p (a ++ b) = (a, b).
Proof.
  induction a as [|x a IH]; intros b Ha Hb.
  - cbn [app]. destruct b as [|c b']; [reflexivity|].
    cbn [span]. rewrite (Hb c b' eq_refl). reflexivity.
  - cbn [forallb] in Ha. apply andb_true_iff in Ha as [Hx Ha].
    cbn [app span]. rewrite Hx, (IH b Ha Hb). reflexivity.
Qed.

(** The alternatives of the label pattern exclude one another. *)
Lemma matchAlternatives_prefix p rest :
  In p LABEL_PREFIXES ->
  matchAlternatives LABEL_PREFIXES (p ++ lit "-" ++ rest) = Some (p, lit "-" ++ rest).
Proof.
  intros H. unfold LABEL_PREFIXES, THEOREM_PREFIXES in H. simpl in H.
  repeat (destruct H as [<-|H]; [reflexivity|]). destruct H.
Qed.

Lemma matchLabelWith_complete lbl post :
  labelOver LABEL_PREFIXES lbl ->
  (forall c post', post = c :: post' -> isLabelChar c = false) ->
  matchLabelWith LABEL_PREFIXES (lbl ++ post) = Some (lbl, post).
Proof.
  intros (p & name & Hp & -> & Hne & Hall) Hpost.
  unfold matchLabelWith. rewrite <- !app_assoc.
  rewrite (matchAlternatives_prefix p (name ++ post) Hp).
  rewrite stripPrefix_self, (span_prefix isLabelChar name post Hall Hpost).
  destruct name; [congruence|]. reflexivity.
Qed.

Lemma labelOver_incl alts alts' lbl :
  (forall p, In p alts -> In p alts') -> labelOver alts lbl -> labelOver alts' lbl.
Proof. intros Hincl (p & name & Hp & H). exists p, name. auto. Qed.

Lemma consistent_label d : consistent d -> labelOver LABEL_PREFIXES (label d).
Proof.
  intros [_ H]. destruct (kind d); destruct H as [_ H];
    apply (labelOver_incl _ LABEL_PREFIXES _) in H; try exact H;
    unfold LABEL_PREFIXES; intros p Hp; cbn in *; tauto.
Qed.

Lemma index_label_link (source : jsstring) (d : Descriptor)
    (sourcePath pre post : jsstring) :
  In d (descriptors (labels (parseCrossrefIndex source))) ->
  (forall pre' c, pre = pre' ++ [c] -> isWordChar c = false) ->
  (forall c post', post = c :: post' -> isLabelChar c = false) ->
  exists before after,
    replaceReferencesInNode (pre ++ lit "@" ++ label d ++ post)
      (parseCrossrefIndex source) sourcePath
    = Some (before ++ linkNode sourcePath (label d) d :: after) /\
    fragmentText before = pre /\ fragmentText after = post.
Proof.
  intros Hin Hpre Hpost.
  unfold descriptors in Hin. apply in_map_iff in Hin as ([k d'] & Hd & Hin).
  cbn [snd] in Hd. subst d'.
  destruct (parseState_entriesOk source) as [[Hnd Hlab] Hcons].
  pose proof (Hlab k d Hin) as Hk. subst k.
  assert (Hget : map_get (labels (parseCrossrefIndex source)) (label d) = Some d).
  { apply map_get_of_In; [exact Hnd|exact Hin]. }
  assert (Htok : matchRefAt (lit "@" ++ label d ++ post) = Some (label d, post)).
  { unfold matchRefAt. rewrite stripPrefix_self.
    apply matchLabelWith_complete; [|exact Hpost].
    apply consistent_label. exact (Hcons _ _ Hin). }
  destruct (reference_node_placed _ (parseCrossrefIndex source) sourcePath
              pre (label d) post eq_refl Htok Hpre)
    as (before & after & Hout & Hb & Ha).
  exists before, after. unfold referenceNode in Hout. rewrite Hget in Hout. auto.
Qed.

(** X26. Every label of the index of a note can be referenced: in a text run
    where [@] and the label of a descriptor of the index follow a text that
    does not end in a word character and stand before a text that does not
    begin with a letter, digit, [_] or [-], [replaceReferencesInNode] puts
    the link of that descriptor at the place of the token, between nodes that
    stand for the text before and the text after. *)
Theorem index_labels_resolve (source : jsstring) (d : Descriptor)
    (sourcePath pre post : jsstring) :
  In d (descriptors (labels (parseCrossrefIndex source))) ->
  (forall pre' c, pre = pre' ++ [c] -> isWordChar c = false) ->
  (forall c post', post = c :: post' -> isLabelChar c = false) ->
  exists before after,
    replaceReferencesInNode (pre ++ lit "@" ++ label d ++ post)
      (parseCrossrefIndex source) sourcePath
    = Some (before ++ linkNode sourcePath (label d) d :: after) /\
    fragmentText before = pre /\ fragmentText after = post.
Proof. apply index_label_link. Qed.

Lemma index_labels_resolve_witness :
  exists before after,
    replaceReferencesInNode
      (lit "by " ++ lit "@"
       ++ label {| label := lit "def-inner"; kind := theorem; prefix := lit "def";
                   number := 1; title := lit "Inner Product";
                   lineStart := 0; lineEnd := 4 |}
       ++ lit ", then")
      (parseCrossrefIndex closedTheorem) notePath
    = Some (before
            ++ linkNode notePath (lit "def-inner")
                 {| label := lit "def-inner"; kind := theorem; prefix := lit "def";
                    number := 1; title := lit "Inner Product";
                    lineStart := 0; lineEnd := 4 |}
            :: after) /\
    fragmentText before = lit "by " /\ fragmentText after = lit ", then".
Proof.
  apply (index_labels_resolve closedTheorem
           {| label := lit "def-inner"; kind := theorem; prefix := lit "def";
              number := 1; title := lit "Inner Product"; lineStart := 0; lineEnd := 4 |}
           notePath (lit "by ") (lit ", then")).
  - vm_compute. left. reflexivity.
  - intros pre' c H.
    assert (c = 32%N) as ->; [|reflexivity].
    apply (f_equal (@rev N)) in H. rewrite rev_app_distr in H.
    vm_compute in H. injection H as H _. symmetry. exact H.
  - intros c post' H. vm_compute in H. injection H as <- _. reflexivity.
Defined.

(** ** The suggesters *)

Lemma matchQueryAfter_Some mark s q :
  matchQueryAfter mark s = Some q -> s = mark ++ q /\ forallb isLabelChar q = true.
Proof.
  unfold matchQueryAfter.
  destruct (stripPrefix mark s) as [r|] eqn:E; [|discriminate].
  destruct (forallb isLabelChar r) eqn:Hr; [|discriminate].
  intros [= <-]. apply stripPrefix_app in E. auto.
Qed.

Lemma matchQueryAfter_here mark q :
  forallb isLabelChar q = true -> matchQueryAfter mark (mark ++ q) = Some q.
Proof. intros H. unfold matchQueryAfter. rewrite stripPrefix_self, H. reflexivity. Qed.

Lemma split_at_last (c : N) : forall u u' q q',
  ~ In c q -> ~ In c q' -> u ++ c :: q = u' ++ c :: q' -> u = u' /\ q = q'.
Proof.
  induction u as [|x u IH]; intros [|y u'] q q' Hq Hq' E; cbn in E.
  - injection E as ->. auto.
  - injection E as -> ->. exfalso. apply Hq. apply in_or_app. right. left. reflexivity.
  - injection E as -> <-. exfalso. apply Hq'. apply in_or_app. right. left. reflexivity.
  - injection E as -> E. destruct (IH u' q q' Hq Hq' E) as [-> ->]. auto.
Qed.

Lemma labelChars_without (c : N) q :
  isLabelChar c = false -> forallb isLabelChar q = true -> ~ In c q.
Proof.
  intros Hc Hq Hin. rewrite forallb_forall in Hq. rewrite (Hq c Hin) in Hc. discriminate.
Qed.

Lemma searchSuffix_here m b s q : m b s = Some q -> searchSuffix m b s = Some q.
Proof. intros H. destruct s; cbn [searchSuffix]; rewrite H; reflexivity. Qed.

Lemma searchSuffix_finds m s' q :
  (forall b, m b s' = Some q) ->
  forall w b, exists q', searchSuffix m b (w ++ s') = Some q'.
Proof.
  intros Hm. induction w as [|x w IH]; intros b.
  - exists q. apply searchSuffix_here. apply Hm.
  - cbn [app searchSuffix]. destruct (m b (x :: w ++ s')) as [q'|]; [eauto|apply IH].
Qed.

Lemma searchSuffix_sound m : forall s b q,
  searchSuffix m b s = Some q ->
  exists w s' b', s = w ++ s' /\ m b' s' = Some q.
Proof.
  induction s as [|x s IH]; intros b q; cbn [searchSuffix].
  - destruct (m b []) eqn:E; [|discriminate]. intros [= <-]. exists [], [], b. auto.
  - destruct (m b (x :: s)) eqn:E.
    + intros [= <-]. exists [], (x :: s), b. auto.
    + intros H. destruct (IH false q H) as (w & s' & b' & -> & Hm).
      exists (x :: w), s', b'. auto.
Qed.

Lemma take_before (pre mid post : jsstring) :
  take (length pre + length mid) (pre ++ mid ++ post) = pre ++ mid.
Proof.
  rewrite app_assoc. replace (length pre + length mid) with (length (pre ++ mid))
    by (rewrite length_app; reflexivity).
  apply take_app_length.
Qed.

Lemma drop_before (pre mid post : jsstring) :
  drop (length pre + length mid) (pre ++ mid ++ post) = post.
Proof.
  rewrite app_assoc. replace (length pre + length mid) with (length (pre ++ mid))
    by (rewrite length_app; reflexivity).
  apply drop_app_length.
Qed.

Lemma labelOnTrigger_at pre q post :
  forallb isLabelChar q = true ->
  labelOnTrigger (pre ++ lit "{#" ++ q ++ post) (length pre + 2 + length q)
  = Some {| start_ch := length pre; end_ch := length pre + 2 + length q; query := q |}.
Proof.
  intros Hq. unfold labelOnTrigger. cbv zeta.
  replace (length pre + 2 + length q) with (length pre + length (lit "{#" ++ q))
    by (rewrite length_app; change (length (lit "{#")) with 2; lia).
  rewrite (app_assoc (lit "{#") q post), take_before.
  destruct (searchSuffix_finds (fun _ => matchQueryAfter (lit "{#")) (lit "{#" ++ q) q
              (fun _ => matchQueryAfter_here _ q Hq) pre true) as [q' Hs].
  rewrite Hs.
  destruct (searchSuffix_sound _ _ _ _ Hs) as (w & s' & b' & E & Hm).
  apply matchQueryAfter_Some in Hm as [-> Hq'].
  change (lit "{#") with ([123%N] ++ [35%N]) in E. rewrite <- !app_assoc in E.
  cbn [app] in E.
  apply split_at_last in E as [_ E].
  - injection E as <-.
    assert (Hlen : length (lit "{#" ++ q) = 2 + length q) by reflexivity.
    rewrite Hlen. f_equal. f_equal; lia.
  - intros [H|H]; [discriminate|]. revert H. apply labelChars_without; auto.
  - intros [H|H]; [discriminate|]. revert H. apply labelChars_without; auto.
Qed.

(** X27. With the cursor right after [{#] and a run [q] of characters of
    [[A-Za-z0-9_-]], the label suggester is triggered with [q] as query and
    the range from the brace to the cursor; selecting an item replaces that
    range by [{#], the item's prefix and [}], keeps the text around it, and
    puts the cursor in front of the closing brace. *)
Theorem label_suggestion_round_trip (pre q post prefix : jsstring) :
  forallb isLabelChar q = true ->
  let line := pre ++ lit "{#" ++ q ++ post in
  let ch := length pre + 2 + length q in
  labelOnTrigger line ch
  = Some {| start_ch := length pre; end_ch := ch; query := q |} /\
  labelSelectSuggestion (labelOnTrigger line ch) prefix line
  = (pre ++ lit "{#" ++ prefix ++ lit "}" ++ post,
     Some (length (pre ++ lit "{#" ++ prefix))).
Proof.
  intros Hq. cbv zeta. rewrite (labelOnTrigger_at pre q post Hq).
  split; [reflexivity|].
  unfold labelSelectSuggestion, replaceRange. cbn [start_ch end_ch]. f_equal.
  - rewrite take_app_length.
    replace (length pre + 2 + length q) with (length pre + length (lit "{#" ++ q))
      by (rewrite length_app; change (length (lit "{#")) with 2; lia).
    rewrite (app_assoc (lit "{#") q post), drop_before.
    rewrite <- !app_assoc. reflexivity.
  - f_equal. rewrite !length_app. change (length (lit "}")) with 1. lia.
Qed.

Lemma label_suggestion_round_trip_witness :
  let line := lit "E = mc^2 " ++ lit "{#" ++ lit "e" ++ lit " and more" in
  let ch := length (lit "E = mc^2 ") + 2 + length (lit "e") in
  labelOnTrigger line ch
  = Some {| start_ch := length (lit "E = mc^2 "); end_ch := ch; query := lit "e" |} /\
  labelSelectSuggestion (labelOnTrigger line ch) (lit "eq-") line
  = (lit "E = mc^2 " ++ lit "{#" ++ lit "eq-" ++ lit "}" ++ lit " and more",
     Some (length (lit "E = mc^2 " ++ lit "{#" ++ lit "eq-"))).
Proof.
  apply (label_suggestion_round_trip (lit "E = mc^2 ") (lit "e") (lit " and more")
           (lit "eq-")).
  reflexivity.
Defined.

(** *** The reference suggester *)







(** ** Numbers by category *)

Lemma categoryOf_prefix p name :
  In p LABEL_PREFIXES -> categoryOf (p ++ lit "-" ++ name) = Some p.
Proof.
  intros H. unfold LABEL_PREFIXES, THEOREM_PREFIXES in H. simpl in H.
  repeat (destruct H as [<-|H]; [reflexivity|]). destruct H.
Qed.

(** The prefix that [addLabel] stores is the category of the label. *)
Lemma categoryOf_consistent d : consistent d -> categoryOf (label d) = Some (prefix d).
Proof.
  intros Hc. pose proof (consistent_label d Hc) as (p & name & Hp & Hl & _ & _).
  destruct Hc as [Hpre _]. rewrite Hpre, Hl.
  rewrite categoryOf_prefix by exact Hp. f_equal. symmetry.
  apply beforeDash_app.
  unfold LABEL_PREFIXES, THEOREM_PREFIXES in Hp. simpl in Hp.
  repeat (destruct Hp as [<-|Hp]; [reflexivity|]). destruct Hp.
Qed.

Lemma sameCounter_sameCategory d d' :
  consistent d -> consistent d' -> sameCounter d d' = sameCategory d d'.
Proof.
  intros Hd Hd'. unfold sameCounter, sameCategory.
  rewrite (categoryOf_consistent d Hd), (categoryOf_consistent d' Hd').
  destruct (kind d) eqn:Hk; rewrite ?andb_true_r; try reflexivity.
  destruct (bool_decide (kind d' = theorem)); [|reflexivity]. cbn [andb].
  unfold JS.eqb. apply bool_decide_ext. split; congruence.
Qed.

Lemma filter_ext_in_length {A} (f g : A -> bool) l :
  (forall x, In x l -> f x = g x) ->
  length (List.filter f l) = length (List.filter g l).
Proof.
  intros H. induction l as [|x l IH]; cbn [List.filter]; [reflexivity|].
  rewrite <- (H x) by (left; reflexivity).
  destruct (f x); cbn [length]; rewrite IH; auto; intros y Hy; apply H; right; exact Hy.
Qed.

Lemma index_rank source i d :
  descriptors (labels (parseCrossrefIndex source)) !! i = Some d ->
  number d = rankAmong (take i (descriptors (labels (parseCrossrefIndex source)))) d.
Proof.
  intros Hi.
  rewrite (rk_num _ (parseState_ranked source) i d Hi).
  unfold rankBefore, rankAmong. f_equal.
  apply filter_ext_in_length. intros d' Hin.
  apply sameCounter_sameCategory.
  - exact (descriptor_consistent source i d Hi).
  - apply list_elem_of_In, list_elem_of_lookup in Hin as [j Hj].
    rewrite lookup_take_Some in Hj. destruct Hj as [Hj _].
    exact (descriptor_consistent source j d' Hj).
Qed.

(** C3. The number of every descriptor of the index is its 1-based rank
    among the descriptors registered before it that count with it: those of
    the same kind for an equation or a figure, those of kind theorem whose
    label is of the same category for a theorem-like block, the category
    being read off the label. Three equations declared in the order eq-a,
    eq-b, eq-c get 1, 2, 3; theorem-like blocks thm-a, lem-b, thm-c, lem-d
    get 1, 1, 2, 2. *)
Theorem number_is_rank :
  (forall source i d,
     descriptors (labels (parseCrossrefIndex source)) !! i = Some d ->
     number d
     = rankAmong (take i (descriptors (labels (parseCrossrefIndex source)))) d) /\
  List.map (fun d => (label d, number d))
    (descriptors (labels (parseCrossrefIndex threeEquations)))
  = [(lit "eq-a", 1); (lit "eq-b", 2); (lit "eq-c", 3)] /\
  List.map (fun d => (label d, number d))
    (descriptors (labels (parseCrossrefIndex mixedTheorems)))
  = [(lit "thm-a", 1); (lit "lem-b", 1); (lit "thm-c", 2); (lit "lem-d", 2)].
Proof.
  split; [|split].
  - intros source i d H. apply index_rank. exact H.
  - vm_compute. reflexivity.
  - vm_compute. reflexivity.
Qed.

Lemma number_is_rank_witness :
  number {| label := lit "thm-c"; kind := theorem; prefix := lit "thm"; number := 2;
            title := []; lineStart := 4; lineEnd := 5 |}
  = rankAmong (take 2 (descriptors (labels (parseCrossrefIndex mixedTheorems))))
      {| label := lit "thm-c"; kind := theorem; prefix := lit "thm"; number := 2;
         title := []; lineStart := 4; lineEnd := 5 |}.
Proof.
  apply (proj1 number_is_rank mixedTheorems 2). vm_compute. reflexivity.
Defined.

(** ** Adjacent blocks *)

(** C7 as stated fails: in [duplicateTheorem] the open marker of thm-a on
    line 2 and that of thm-b on line 4 have one body line and no close
    marker between them, and the descriptor of thm-a spans lines 0 to 1, the
    lines of the earlier block that declared the label first, not lines 2
    to 3. *)
Lemma adjacent_duplicate_keeps_first_span :
  splitLines duplicateTheorem !! 2 = Some (lit ":::{#thm-a}") /\
  matchTheoremStart (trim (lit ":::{#thm-a}")) = Some (lit "thm-a") /\
  splitLines duplicateTheorem !! 3 = Some (lit "Hello") /\
  plainLine (lit "Hello") /\
  splitLines duplicateTheorem !! 4 = Some (lit ":::{#thm-b}") /\
  matchTheoremStart (trim (lit ":::{#thm-b}")) = Some (lit "thm-b") /\
  exists d,
    map_get (labels (parseCrossrefIndex duplicateTheorem)) (lit "thm-a") = Some d /\
    lineStart d = 0%Z /\ lineEnd d = 1%Z /\ lineEnd d <> (Z.of_nat 4 - 1)%Z.
Proof.
  repeat (split; [reflexivity|]).
  split; [split; reflexivity|].
  repeat (split; [reflexivity|]).
  eexists. split; [vm_compute; reflexivity|].
  split; [reflexivity|]. split; [reflexivity|]. discriminate.
Qed.

(** C7, amended. Two theorem blocks with nothing but body lines between the
    open marker of the first, on line [i], and that of the second, on line
    [k]: when no earlier open marker carries the label of the first block,
    its descriptor spans lines [i] to [k - 1]; both labels are in the index,
    each numbered by its rank among the theorem-like blocks registered
    before it whose label is of the same category. In [adjacentTheorems]
    thm-a is Theorem 1 on lines 0 to 1 and lem-b is Lemma 1. *)
Theorem adjacent_blocks_implicit_close :
  (forall source i k l1 l2 lbl1 lbl2,
     (Z.of_nat (length source) < 1073741824)%Z ->
     splitLines source !! i = Some l1 -> matchTheoremStart (trim l1) = Some lbl1 ->
     splitLines source !! k = Some l2 -> matchTheoremStart (trim l2) = Some lbl2 ->
     i < k ->
     (forall j l, i < j < k -> splitLines source !! j = Some l -> plainLine l) ->
     ~ openedBetween (splitLines source) 0 i lbl1 ->
     exists d1 d2 n1 n2,
       map_get (labels (parseCrossrefIndex source)) lbl1 = Some d1 /\
       map_get (labels (parseCrossrefIndex source)) lbl2 = Some d2 /\
       kind d1 = theorem /\ kind d2 = theorem /\
       label d1 = lbl1 /\ label d2 = lbl2 /\
       lineStart d1 = Z.of_nat i /\ lineEnd d1 = (Z.of_nat k - 1)%Z /\
       descriptors (labels (parseCrossrefIndex source)) !! n1 = Some d1 /\
       number d1
       = rankAmong (take n1 (descriptors (labels (parseCrossrefIndex source)))) d1 /\
       descriptors (labels (parseCrossrefIndex source)) !! n2 = Some d2 /\
       number d2
       = rankAmong (take n2 (descriptors (labels (parseCrossrefIndex source)))) d2) /\
  summaries (parseCrossrefIndex adjacentTheorems)
  = [(lit "thm-a", theorem, lit "thm", 1, lit "A", 0%Z, 1%Z);
     (lit "lem-b", theorem, lit "lem", 1, [], 2%Z, 4%Z)] /\
  List.map descriptorDisplay (descriptors (labels (parseCrossrefIndex adjacentTheorems)))
  = [lit "Theorem 1"; lit "Lemma 1"].
Proof.
  split; [|split; vm_compute; reflexivity].
  intros source i k l1 l2 lbl1 lbl2 Hlen Hi Hs1 Hk Hs2 Hik Hplain Hfirst.
  destruct (index_implicit_close source i k l1 l2 lbl1 lbl2 Hlen Hi Hs1 Hk Hs2 Hik
              Hplain Hfirst) as (d1 & Hd1 & Hkind & Hls & Hle).
  destruct (map_get (labels (parseCrossrefIndex source)) lbl2) as [d2|] eqn:Hd2;
    [|exfalso; exact (index_has source k l2 lbl2 Hk Hs2 Hd2)].
  destruct (index_kind_theorem source lbl1 (trim l1) d1 Hs1 Hd1) as [_ Hl1].
  destruct (index_kind_theorem source lbl2 (trim l2) d2 Hs2 Hd2) as [Hkind2 Hl2].
  destruct (map_get_position _ _ _ Hd1) as [n1 Hn1].
  destruct (map_get_position _ _ _ Hd2) as [n2 Hn2].
  exists d1, d2, n1, n2.
  split; [exact Hd1|]. split; [reflexivity|]. split; [exact Hkind|].
  split; [exact Hkind2|]. split; [exact Hl1|]. split; [exact Hl2|].
  split; [exact Hls|]. split; [exact Hle|]. split; [exact Hn1|].
  split; [apply index_rank; exact Hn1|].
  split; [exact Hn2|].
  apply index_rank; exact Hn2.
Qed.

Lemma adjacent_blocks_implicit_close_witness :
  exists d1 d2 n1 n2,
    map_get (labels (parseCrossrefIndex adjacentTheorems)) (lit "thm-a") = Some d1 /\
    map_get (labels (parseCrossrefIndex adjacentTheorems)) (lit "lem-b") = Some d2 /\
    kind d1 = theorem /\ kind d2 = theorem /\
    label d1 = lit "thm-a" /\ label d2 = lit "lem-b" /\
    lineStart d1 = Z.of_nat 0 /\ lineEnd d1 = (Z.of_nat 2 - 1)%Z /\
    descriptors (labels (parseCrossrefIndex adjacentTheorems)) !! n1 = Some d1 /\
    number d1
    = rankAmong (take n1 (descriptors (labels (parseCrossrefIndex adjacentTheorems)))) d1 /\
    descriptors (labels (parseCrossrefIndex adjacentTheorems)) !! n2 = Some d2 /\
    number d2
    = rankAmong (take n2 (descriptors (labels (parseCrossrefIndex adjacentTheorems)))) d2.
Proof.
  apply (proj1 adjacent_blocks_implicit_close adjacentTheorems 0 2
           (lit ":::{#thm-a}") (lit ":::{#lem-b}")).
  - vm_compute. reflexivity.
  - reflexivity.
  - reflexivity.
  - reflexivity.
  - reflexivity.
  - lia.
  - intros j l Hj Hl. assert (j = 1) as -> by lia.
    injection Hl as <-. split; reflexivity.
  - intros (j & l & Hj & _). lia.
Defined.

(** ** The navigation fallback, event by event *)

Section NavigationFallback.

Variable Element : Type.
Variable closestCrossrefTarget : Element -> option Element.
Variable crossrefKindOf : Element -> jsstring.
Variable World : Type.
Variable Link : Type.
Variable activeViewOf : World -> option ActiveView.
Variable collectReferenceSearchRoots : World -> Link -> list (RenderRoot Element).
Variable openLinkText : World -> Plugin -> jsstring -> Z -> option (World * Plugin).

(** C1, amended. Without an active file path, without a descriptor of the
    label in the index cached for the active file, or without an active view
    that has a leaf, [navigateToReferenceLabel] returns [false] and does
    nothing: no request, no event, no log line. Otherwise it asks the host
    for these things, in this order and no others: the suppression of the
    native flash and one navigation request, for the start line of the
    descriptor; if the request fails it returns [false] there; if not, one
    wait of 90 ms, the clearing of native highlights and one more
    resolution, and it returns [true] whether or not that found a target;
    when it found one, the target is scrolled into view and flashed for
    1200 ms, and nothing is scrolled or flashed when it found none. *)
Theorem navigation_fallback (s : Session Element World) (lbl : jsstring)
    (originLink : Link) :
  let path := getActiveFilePath World activeViewOf (world s) in
  let r := navigateToReferenceLabel Element closestCrossrefTarget crossrefKindOf
             World Link activeViewOf collectReferenceSearchRoots openLinkText
             s lbl originLink in
  (path = [] \/
   cachedDescriptor (plugin s) path lbl = None \/
   activeViewOf (world s) = None \/
   (exists activeView,
      activeViewOf (world s) = Some activeView /\ av_leaf activeView = false) ->
   r = (false, s)) /\
  (forall descriptor activeView,
     cachedDescriptor (plugin s) path lbl = Some descriptor ->
     activeViewOf (world s) = Some activeView ->
     av_leaf activeView = true ->
     let request :=
       [EvStartNativeFlashSuppression; EvOpenLinkText path (lineStart descriptor)] in
     match openLinkText (world s) (plugin s) path (lineStart descriptor) with
     | None => fst r = false /\ trace (snd r) = trace s ++ request
     | Some (w', p') =>
         fst r = true /\
         trace (snd r)
         = trace s ++ request
           ++ [EvAwaitTimeout 90; EvClearNativeFlashHighlights; EvFindTargetElement lbl]
           ++ match findTargetElement Element World Link activeViewOf
                      collectReferenceSearchRoots p' w' lbl originLink with
              | Some target =>
                  [EvScrollIntoView (default target (closestCrossrefTarget target));
                   EvFlash (default target (closestCrossrefTarget target)) 1200]
              | None => []
              end
     end).
Proof.
  cbv zeta. split.
  - intros H. unfold navigateToReferenceLabel.
    destruct (cachedDescriptor (plugin s) _ lbl) as [descriptor|] eqn:Hd.
    + destruct (activeViewOf (world s)) as [activeView|] eqn:Hv; [|reflexivity].
      destruct (av_leaf activeView) eqn:Hleaf; [|reflexivity].
      exfalso. destruct H as [H|[H|[H|(v & Hv' & Hl)]]].
      * unfold cachedDescriptor in Hd. rewrite H in Hd. discriminate Hd.
      * discriminate H.
      * discriminate H.
      * injection Hv' as <-. congruence.
    + reflexivity.
  - intros descriptor activeView Hd Hv Hleaf. unfold navigateToReferenceLabel.
    rewrite Hd, Hv, Hleaf. cbn [negb emit world plugin trace].
    destruct (openLinkText (world s) (plugin s) _ _) as [[w' p']|].
    + cbn [emit world plugin trace].
      destruct (findTargetElement Element World Link activeViewOf
                  collectReferenceSearchRoots p' w' lbl originLink) as [target|];
        cbn [fst snd logDebug emit world plugin trace];
        (split; [reflexivity|]); rewrite <- ?app_assoc; reflexivity.
    + cbn [fst snd emit world plugin trace].
      split; [reflexivity|]. rewrite <- ?app_assoc. reflexivity.
Qed.

End NavigationFallback.

Lemma navigation_fallback_witness :
  fst (noteNavigate (lit "eq-a")) = true /\
  trace (snd (noteNavigate (lit "eq-a")))
  = trace noteSession
    ++ [EvStartNativeFlashSuppression; EvOpenLinkText notePath 0%Z]
    ++ [EvAwaitTimeout 90; EvClearNativeFlashHighlights;
        EvFindTargetElement (lit "eq-a")]
    ++ [].
Proof.
  exact (proj2 (navigation_fallback unit (fun _ => None) (fun _ => []) unit unit
                  noteView noteRoots noteOpen noteSession (lit "eq-a") tt)
           {| label := lit "eq-a"; kind := equation; prefix := lit "eq"; number := 1;
              title := []; lineStart := 0; lineEnd := 3 |}
           {| av_file := Some notePath; av_leaf := true |}
           ltac:(vm_compute; reflexivity) eq_refl eq_refl).
Defined.

